(** * flat_unordered_map: open addressing with linear probing and tombstones

    A shallow embedding of [flat_buffered_unordered_map.cpp].  The table is a
    record holding the bucket vector and the two counters; [size_type] is a
    64-bit unsigned integer carried as a [Z] with its wrap-around written
    out; the [float] load factor goes through a small interface
    ([FloatOps]) that is instantiated with IEEE binary32 below.

    The three smaller containers of the repository follow in modules of
    their own: [SimpleMap] (the search tree of [map.cpp]), [UnorderedMap]
    (the chained table of [unordered_map.cpp]) and [EntityManager] (the
    packed vector of [vector_with_index_map.cpp]). *)

From Stdlib Require Import ZArith Lia Bool List.
From Stdlib Require Import Floats.SpecFloat.
From stdpp Require Import base list strings gmap.

Local Open Scope Z_scope.

(** ** Machine integers *)

Definition size_bits : Z := 64.
Definition size_mod : Z := 2 ^ size_bits.

(** Reduction of an integer into the range of [size_type]. *)
Definition wrap (z : Z) : Z := z mod size_mod.

(** [static_cast<size_type>(-1)], the sentinel of [insert_or_assign_impl]. *)
Definition npos : Z := wrap (-1).

(** ** Outcomes of a member function

    A call either returns a value and leaves a table, throws leaving a table,
    never leaves one of the [for (;;)] probe loops, indexes the vector out of
    range, or exhausts the recursion budget of the model. *)

Inductive exn : Type :=
| invalid_argument
| length_error
| bad_alloc.

Inductive outcome (S A : Type) : Type :=
| Ret (a : A) (s : S)
| Throw (e : exn) (s : S)
| Loops
| Undefined
| NoFuel.

Arguments Ret {S A} a s.
Arguments Throw {S A} e s.
Arguments Loops {S A}.
Arguments Undefined {S A}.
Arguments NoFuel {S A}.

Definition bind {S A B : Type} (m : outcome S A) (f : A -> S -> outcome S B)
  : outcome S B :=
  match m with
  | Ret a s => f a s
  | Throw e s => Throw e s
  | Loops => Loops
  | Undefined => Undefined
  | NoFuel => NoFuel
  end.

(** ** The [float] interface *)

Record FloatOps : Type := {
  float : Type;
  (** [static_cast<float>(n)] for an unsigned [n] *)
  of_size : Z -> float;
  (** [static_cast<size_type>(x)] *)
  to_size : float -> Z;
  fdiv : float -> float -> float;
  (** [a > b], [a <= b], [a >= b] *)
  fgt : float -> float -> bool;
  fle : float -> float -> bool;
  fge : float -> float -> bool;
  (** the literals [0.7f], [0.1f] and [0.95f] *)
  lit_0_7 : float;
  lit_0_1 : float;
  lit_0_95 : float
}.

(** *** IEEE 754 binary32 *)

Module Binary32.

Definition prec : Z := 24.
Definition emax : Z := 128.

Definition of_Z (n : Z) : spec_float := binary_normalize prec emax n 0 false.

(** Truncation toward zero of a finite value; the conversion of a NaN, of
    an infinity or of a value outside the range of [size_type] has no
    defined result in C++ and is given the value 0 here. *)
Definition trunc (x : spec_float) : Z :=
  match x with
  | S754_finite false m e =>
      let z := if 0 <=? e then Z.shiftl (Zpos m) e else Z.shiftr (Zpos m) (- e) in
      if z <? size_mod then z else 0
  | _ => 0
  end.

Definition gt (a b : spec_float) : bool := SFltb b a.
Definition le (a b : spec_float) : bool := SFleb a b.
Definition ge (a b : spec_float) : bool := SFleb b a.

(** [0.7f = 0x3F333333], [0.1f = 0x3DCCCCCD], [0.95f = 0x3F733333]. *)
Definition f0_7 : spec_float := S754_finite false 11744051 (-24).
Definition f0_1 : spec_float := S754_finite false 13421773 (-27).
Definition f0_95 : spec_float := S754_finite false 15938355 (-24).

Definition ops : FloatOps := {|
  float := spec_float;
  of_size := of_Z;
  to_size := trunc;
  fdiv := SFdiv prec emax;
  fgt := gt;
  fle := le;
  fge := ge;
  lit_0_7 := f0_7;
  lit_0_1 := f0_1;
  lit_0_95 := f0_95
|}.

(** The exact value of a positive finite [x] is [m * 2^e]; this is the
    smallest integer that is at least [n / x], for [n >= 0]. *)
Definition ceil_quot (n : Z) (x : spec_float) : Z :=
  match x with
  | S754_finite false m e =>
      let num := if 0 <=? e then n else n * 2 ^ (- e) in
      let den := if 0 <=? e then Zpos m * 2 ^ e else Zpos m in
      (num + den - 1) / den
  | _ => 0
  end.

(** The requirement on the bucket count as the specification words it:
    [ceil(n / max_load_factor) + 1]. *)
Definition reserve_required_spec (n : Z) (f : spec_float) : Z :=
  ceil_quot n f + 1.

End Binary32.

(** ** [next_pow2] *)

(** The loop [for (i = 1; i < sizeof(size_type) * 8; i <<= 1) x |= x >> i]. *)
Fixpoint smear (fuel : nat) (i x : Z) : Z :=
  match fuel with
  | O => x
  | S fuel' =>
      if i <? size_bits
      then smear fuel' (wrap (Z.shiftl i 1)) (Z.lor x (Z.shiftr x i))
      else x
  end.

Definition next_pow2 (x : Z) : Z :=
  if x <? 2 then 2
  else
    let x := wrap (x - 1) in
    wrap (smear 64 1 x + 1).

(** *** Auxiliary notions for [next_pow2] *)

Definition is_pow2 (z : Z) : Prop := exists k, 0 <= k /\ z = 2 ^ k.

Definition smear_step (i x : Z) : Z := Z.lor x (Z.shiftr x i).

(** Bits above [k] are clear. *)
Definition clear_above (k y : Z) : Prop :=
  forall j, k < j -> Z.testbit y j = false.

(** The [w] bits from [k] downward are set. *)
Definition set_below (k w y : Z) : Prop :=
  forall j, 0 <= j <= k -> k - j < w -> Z.testbit y j = true.

(** The bucket count [rehash] settles on: [next_pow2], raised to 2. *)
Definition rehash_len (new_bucket_count : Z) : Z :=
  let n := next_pow2 new_bucket_count in
  if n <? 2 then 2 else n.

(** ** Data model *)

Inductive State : Type := Empty | Filled | Deleted.

Definition State_eqb (a b : State) : bool :=
  match a, b with
  | Empty, Empty | Filled, Filled | Deleted, Deleted => true
  | _, _ => false
  end.

Section Table.

Context {Key T : Type}.
(** [Key()] and [T()], the values a default-constructed bucket holds. *)
Variable key_default : Key.
Variable value_default : T.
Variable hasher_ : Key -> Z.
Variable keyeq_ : Key -> Key -> bool.
Variable fl : FloatOps.
(** [std::vector<Bucket>::max_size()]: [assign] and [resize] throw
    [std::length_error] beyond it. *)
Variable max_size : Z.
(** Whether the allocator provides storage for that many buckets: [assign]
    and [resize] throw [std::bad_alloc] when it does not. *)
Variable can_allocate : Z -> bool.

Record Bucket : Type := mkBucket {
  key : Key;
  value : T;
  state : State
}.

Record flat_unordered_map : Type := mkMap {
  buckets_ : list Bucket;
  size_ : Z;
  tombstones_ : Z;
  max_load_factor_ : float fl
}.

Local Abbreviation M A := (outcome flat_unordered_map A).

Definition bucket_default : Bucket := mkBucket key_default value_default Empty.

Definition with_buckets (s : flat_unordered_map) (bs : list Bucket) :=
  mkMap bs (size_ s) (tombstones_ s) (max_load_factor_ s).

(** [buckets_[i] = b] *)
Definition set_bucket (s : flat_unordered_map) (i : Z) (b : Bucket) :=
  with_buckets s (<[Z.to_nat i := b]> (buckets_ s)).

Definition bucket_at (s : flat_unordered_map) (i : Z) : option Bucket :=
  buckets_ s !! Z.to_nat i.

(** An argument passed by reference ([const Key&], [const T&]): what it
    refers to lies outside the bucket vector, or in the value stored in slot
    [slot] of the vector, as in [m.insert_or_assign(13, *m.find(1))]; [part]
    reads the object referred to off that value.  The member functions hand
    out pointers to stored values only, never to a key or a state. *)
Inductive arg (A : Type) : Type :=
| Outside (a : A)
| Inside (slot : Z) (part : T -> A).

Arguments Outside {A} a.
Arguments Inside {A} slot part.

Definition is_outside {A : Type} (r : arg A) : bool :=
  match r with
  | Outside _ => true
  | Inside _ _ => false
  end.

(** Reading through the reference while the vector it may point into is
    alive; there is nothing to read at a slot outside the vector. *)
Definition read_arg {A : Type} (s : flat_unordered_map) (r : arg A) : option A :=
  match r with
  | Outside a => Some a
  | Inside i part => option_map (fun b => part (value b)) (bucket_at s i)
  end.

Definition bucket_count (s : flat_unordered_map) : Z :=
  Z.of_nat (length (buckets_ s)).

Definition size (s : flat_unordered_map) : Z := size_ s.

Definition empty (s : flat_unordered_map) : bool := size_ s =? 0.

Definition mask (s : flat_unordered_map) : Z := wrap (bucket_count s - 1).

Definition bucket_index (s : flat_unordered_map) (k : Key) : Z :=
  Z.land (hasher_ k) (mask s).

Definition current_load (s : flat_unordered_map) : float fl :=
  fdiv fl (of_size fl (wrap (size_ s + tombstones_ s)))
          (of_size fl (bucket_count s)).

Definition buckets_empty (s : flat_unordered_map) : bool :=
  match buckets_ s with [] => true | _ => false end.

(** The table of [flat_unordered_map() = default]. *)
Definition empty_map : flat_unordered_map := mkMap [] 0 0 (lit_0_7 fl).

(** ** Insertion *)

Section WithRehash.

(** [insert_or_assign_impl] and [rehash] call each other; the helper is
    written over the [rehash] it calls and the knot is tied below. *)
Variable rehash : Z -> flat_unordered_map -> M unit.

Definition rehash_if_needed (s : flat_unordered_map) : M unit :=
  if buckets_empty s || fgt fl (current_load s) (max_load_factor_ s)
  then
    let new_cap := if buckets_empty s then 16 else wrap (bucket_count s * 2) in
    rehash new_cap s
  else Ret tt s.

(** The [for (;;)] loop of [insert_or_assign_impl]; [fuel] bounds the
    number of iterations. *)
Fixpoint insert_probe (fuel : nat) (k : Key) (v : T) (idx first_deleted : Z)
    (s : flat_unordered_map) : M (Z * bool) :=
  match fuel with
  | O => Loops
  | S fuel' =>
      match bucket_at s idx with
      | None => Undefined
      | Some b =>
          match state b with
          | Empty =>
              let target := if first_deleted =? npos then idx else first_deleted in
              match bucket_at s target with
              | None => Undefined
              | Some t =>
                  let tomb :=
                    if State_eqb (state t) Deleted
                    then wrap (tombstones_ s - 1) else tombstones_ s in
                  Ret (target, true)
                      (mkMap (<[Z.to_nat target := mkBucket k v Filled]> (buckets_ s))
                             (wrap (size_ s + 1)) tomb (max_load_factor_ s))
              end
          | Deleted =>
              let first_deleted :=
                if first_deleted =? npos then idx else first_deleted in
              insert_probe fuel' k v (Z.land (idx + 1) (mask s)) first_deleted s
          | Filled =>
              if keyeq_ (key b) k
              then Ret (idx, false) (set_bucket s idx (mkBucket (key b) v Filled))
              else insert_probe fuel' k v (Z.land (idx + 1) (mask s)) first_deleted s
          end
      end
  end.

(** The body of [insert_or_assign_impl] on a key and a value that stay
    readable through the call.  A probe that has not returned after one full
    turn of the ring never returns: the budget is the number of buckets. *)
Definition insert_stable (k : Key) (v : T) (s : flat_unordered_map)
  : M (Z * bool) :=
  bind (rehash_if_needed s) (fun _ s =>
    insert_probe (length (buckets_ s)) k v (bucket_index s k) npos s).

(** [insert_or_assign_impl(K&& k, V&& v)].  The references are read after
    [rehash_if_needed()]: when that call rehashed, the vector the table had
    is destroyed, and reading an argument that lay in it is undefined. *)
Definition insert_or_assign_impl (k : arg Key) (v : arg T)
    (s : flat_unordered_map) : M (Z * bool) :=
  let rehashes :=
    buckets_empty s || fgt fl (current_load s) (max_load_factor_ s) in
  bind (rehash_if_needed s) (fun _ s =>
    if negb (is_outside k && is_outside v) && rehashes then Undefined
    else
      match read_arg s k, read_arg s v with
      | Some k, Some v =>
          insert_probe (length (buckets_ s)) k v (bucket_index s k) npos s
      | _, _ => Undefined
      end).

(** [for (auto& b : old) if (b.state == State::Filled)
    insert_or_assign_impl(b.key, b.value)]; [old] is the vector moved out of
    [buckets_], alive until [rehash] returns. *)
Fixpoint reinsert (old : list Bucket) (s : flat_unordered_map) : M unit :=
  match old with
  | [] => Ret tt s
  | b :: rest =>
      match state b with
      | Filled =>
          bind (insert_or_assign_impl (Outside (key b)) (Outside (value b)) s)
               (fun _ s => reinsert rest s)
      | _ => reinsert rest s
      end
  end.

End WithRehash.

(** ** Rehash; [fuel] bounds the depth of nested growth. *)
Fixpoint rehash (fuel : nat) (new_bucket_count : Z) (s : flat_unordered_map)
  : M unit :=
  match fuel with
  | O => NoFuel
  | S fuel' =>
      let n := next_pow2 new_bucket_count in
      let n := if n <? 2 then 2 else n in
      let old := buckets_ s in
      if max_size <? n then Throw length_error (with_buckets s [])
      else if negb (can_allocate n) then Throw bad_alloc (with_buckets s [])
      else
        reinsert (rehash fuel') old
                 (mkMap (replicate (Z.to_nat n) bucket_default) 0 0
                        (max_load_factor_ s))
  end.

Definition insert_stable_core (fuel : nat) :=
  insert_stable (rehash fuel).

(** ** Public member functions *)

(** [explicit flat_unordered_map(size_type bucket_count, ...)] *)
Definition make (bucket_count : Z) : M unit :=
  let n := next_pow2 bucket_count in
  if max_size <? n then Throw length_error empty_map
  else if (0 <? n) && negb (can_allocate n) then Throw bad_alloc empty_map
  else Ret tt (mkMap (replicate (Z.to_nat n) bucket_default) 0 0 (lit_0_7 fl)).

(** [insert_or_assign] on a key and a value that stay readable through the
    call: the flag and the slot whose value is pointed to. *)
Definition insert_or_assign_stable (fuel : nat) (k : Key) (v : T)
    (s : flat_unordered_map) : M (bool * Z) :=
  bind (insert_stable_core fuel k v s)
       (fun '(pos, inserted) s => Ret (inserted, pos) s).

(** [std::pair<bool, T*> insert_or_assign(const Key& k, const T& v)]: the
    flag and the slot whose value is pointed to.  The overload taking
    [Key&&] and [T&&] does the same to the table when it is given
    temporaries, which lie outside the vector. *)
Definition insert_or_assign (fuel : nat) (k : arg Key) (v : arg T)
    (s : flat_unordered_map) : M (bool * Z) :=
  bind (insert_or_assign_impl (rehash fuel) k v s)
       (fun '(pos, inserted) s => Ret (inserted, pos) s).

(** The loop of [find]; the result is the slot pointed to, [None] for
    [nullptr]. *)
Fixpoint find_probe (fuel : nat) (k : Key) (idx : Z) (s : flat_unordered_map)
  : M (option Z) :=
  match fuel with
  | O => Loops
  | S fuel' =>
      match bucket_at s idx with
      | None => Undefined
      | Some b =>
          if State_eqb (state b) Empty then Ret None s
          else if State_eqb (state b) Filled && keyeq_ (key b) k then Ret (Some idx) s
          else find_probe fuel' k (Z.land (idx + 1) (mask s)) s
      end
  end.

Definition find (k : Key) (s : flat_unordered_map) : M (option Z) :=
  if buckets_empty s then Ret None s
  else find_probe (length (buckets_ s)) k (bucket_index s k) s.

(** Reading through the pointer [find] returned. *)
Definition deref (s : flat_unordered_map) (p : option Z) : option T :=
  match p with
  | None => None
  | Some i => option_map value (bucket_at s i)
  end.

(** [operator[]] on a key that stays readable through the call. *)
Definition index_stable (fuel : nat) (k : Key) (s : flat_unordered_map) : M Z :=
  bind (find k s) (fun p s =>
    match p with
    | Some i => Ret i s
    | None =>
        bind (insert_or_assign_stable fuel k value_default s)
             (fun '(_, ptr) s => Ret ptr s)
    end).

(** [T& operator[](const Key& k)]: [find(k)] reads [k] on the table as it
    is; the reference is then handed on to [insert_or_assign], with the
    temporary [T{}]. *)
Definition index (fuel : nat) (k : arg Key) (s : flat_unordered_map) : M Z :=
  match read_arg s k with
  | None => Undefined
  | Some k' =>
      bind (find k' s) (fun p s =>
        match p with
        | Some i => Ret i s
        | None =>
            bind (insert_or_assign fuel k (Outside value_default) s)
                 (fun '(_, ptr) s => Ret ptr s)
        end)
  end.

Fixpoint erase_probe (rfuel fuel : nat) (k : Key) (idx : Z)
    (s : flat_unordered_map) : M bool :=
  match fuel with
  | O => Loops
  | S fuel' =>
      match bucket_at s idx with
      | None => Undefined
      | Some b =>
          if State_eqb (state b) Empty then Ret false s
          else if State_eqb (state b) Filled && keyeq_ (key b) k then
            let s1 :=
              mkMap (<[Z.to_nat idx := mkBucket (key b) (value b) Deleted]> (buckets_ s))
                    (wrap (size_ s - 1)) (wrap (tombstones_ s + 1))
                    (max_load_factor_ s) in
            if bucket_count s1 / 2 <? tombstones_ s1
            then bind (rehash rfuel (bucket_count s1) s1) (fun _ s => Ret true s)
            else Ret true s1
          else erase_probe rfuel fuel' k (Z.land (idx + 1) (mask s)) s
      end
  end.

Definition erase (fuel : nat) (k : Key) (s : flat_unordered_map) : M bool :=
  if buckets_empty s then Ret false s
  else erase_probe fuel (length (buckets_ s)) k (bucket_index s k) s.

Definition clear (s : flat_unordered_map) : M unit :=
  Ret tt (mkMap (map (fun b => mkBucket (key b) (value b) Empty) (buckets_ s))
                0 0 (max_load_factor_ s)).

Definition reserve (fuel : nat) (n : Z) (s : flat_unordered_map) : M unit :=
  let needed :=
    wrap (to_size fl (fdiv fl (of_size fl n) (max_load_factor_ s)) + 1) in
  if bucket_count s <? needed then rehash fuel needed s else Ret tt s.

(** [void max_load_factor(float f)] *)
Definition set_max_load_factor (fuel : nat) (f : float fl)
    (s : flat_unordered_map) : M unit :=
  if fle fl f (lit_0_1 fl) || fge fl f (lit_0_95 fl)
  then Throw invalid_argument s
  else rehash_if_needed (rehash fuel)
         (mkMap (buckets_ s) (size_ s) (tombstones_ s) f).

(** [float max_load_factor() const] *)
Definition max_load_factor (s : flat_unordered_map) : float fl :=
  max_load_factor_ s.

(** ** Probe sequences *)

(** The step [(idx + 1) & mask()] shared by the three probe loops. *)
Definition next_idx (s : flat_unordered_map) (idx : Z) : Z :=
  Z.land (idx + 1) (mask s).

(** The slot reached from [idx] after [j] steps. *)
Fixpoint probe_at (s : flat_unordered_map) (idx : Z) (j : nat) : Z :=
  match j with
  | O => idx
  | S j' => probe_at s (next_idx s idx) j'
  end.

(** A bucket over which a search for [k] continues: it is not Empty and it
    is not a Filled bucket holding a key equal to [k]. *)
Definition passes (k : Key) (b : Bucket) : bool :=
  negb (State_eqb (state b) Empty) &&
  negb (State_eqb (state b) Filled && keyeq_ (key b) k).

(** The first [j] slots of the probe sequence from [idx] are passed over. *)
Definition path_passes (s : flat_unordered_map) (k : Key) (idx : Z) (j : nat)
  : Prop :=
  forall i, (i < j)%nat ->
    exists b, bucket_at s (probe_at s idx i) = Some b /\ passes k b = true.

(** What a search from [idx] answers within [n] steps. *)
Inductive find_result (s : flat_unordered_map) (k : Key) (idx : Z) (n : nat)
  : option Z -> Prop :=
| FR_none j b :
    (j < n)%nat ->
    path_passes s k idx j ->
    bucket_at s (probe_at s idx j) = Some b ->
    state b = Empty ->
    find_result s k idx n None
| FR_some j b :
    (j < n)%nat ->
    path_passes s k idx j ->
    bucket_at s (probe_at s idx j) = Some b ->
    state b = Filled ->
    keyeq_ (key b) k = true ->
    find_result s k idx n (Some (probe_at s idx j)).

(** The table [insert_probe] leaves when it fills slot [pos], whose former
    bucket was [t]. *)
Definition filled_at (s : flat_unordered_map) (pos : Z) (t : Bucket)
    (k : Key) (v : T) : flat_unordered_map :=
  mkMap (<[Z.to_nat pos := mkBucket k v Filled]> (buckets_ s))
        (wrap (size_ s + 1))
        (if State_eqb (state t) Deleted
         then wrap (tombstones_ s - 1) else tombstones_ s)
        (max_load_factor_ s).

(** What an insertion probe from [idx] does within [n] steps. *)
Inductive insert_result (s : flat_unordered_map) (k : Key) (v : T) (idx : Z)
    (n : nat) : Z -> bool -> flat_unordered_map -> Prop :=
| IR_assign j b :
    (j < n)%nat ->
    path_passes s k idx j ->
    bucket_at s (probe_at s idx j) = Some b ->
    state b = Filled ->
    keyeq_ (key b) k = true ->
    insert_result s k v idx n (probe_at s idx j) false
      (set_bucket s (probe_at s idx j) (mkBucket (key b) v Filled))
| IR_insert j t b tb :
    (j < n)%nat ->
    path_passes s k idx j ->
    bucket_at s (probe_at s idx j) = Some b ->
    state b = Empty ->
    (t <= j)%nat ->
    bucket_at s (probe_at s idx t) = Some tb ->
    (t = j \/ state tb = Deleted) ->
    insert_result s k v idx n (probe_at s idx t) true
      (filled_at s (probe_at s idx t) tb k v).

(** The slot remembered in [first_deleted] after [j] steps: none, or an
    earlier Deleted slot of the sequence. *)
Definition first_deleted_ok (s : flat_unordered_map) (idx0 : Z) (j : nat)
    (fd : Z) : Prop :=
  fd = npos \/
  exists t tb, (t < j)%nat /\ fd = probe_at s idx0 t /\
               bucket_at s fd = Some tb /\ state tb = Deleted.

(** ** Invariants of a table *)

(** The number of buckets of [l] in state [st]. *)
Definition count_state (st : State) (l : list Bucket) : Z :=
  Z.of_nat (length (filter (fun b => State_eqb (state b) st = true) l)).

(** A Filled bucket equal to [k] carrying [v] occurs in [l]. *)
Definition live_in (l : list Bucket) (k : Key) (v : T) : Prop :=
  exists i b, l !! i = Some b /\ state b = Filled /\
              keyeq_ (key b) k = true /\ value b = v.

(** The table maps [k] to [v]. *)
Definition holds (s : flat_unordered_map) (k : Key) (v : T) : Prop :=
  live_in (buckets_ s) k v.

(** No two Filled buckets of [l] hold equal keys. *)
Definition unique_keys (l : list Bucket) : Prop :=
  forall i i' b b',
    l !! i = Some b -> l !! i' = Some b' ->
    state b = Filled -> state b' = Filled ->
    keyeq_ (key b) (key b') = true -> i = i'.

(** The first [j] slots of the probe sequence from [idx] are not Empty. *)
Definition path_nonempty (s : flat_unordered_map) (idx : Z) (j : nat) : Prop :=
  forall i, (i < j)%nat ->
    exists b, bucket_at s (probe_at s idx i) = Some b /\ state b <> Empty.

(** Every Filled bucket is reached from the home slot of its key, within one
    turn of the ring, without crossing an Empty slot. *)
Definition linked (s : flat_unordered_map) : Prop :=
  forall i b,
    buckets_ s !! i = Some b -> state b = Filled ->
    exists j, (j < length (buckets_ s))%nat /\
              Z.to_nat (probe_at s (bucket_index s (key b)) j) = i /\
              path_nonempty s (bucket_index s (key b)) j.

(** The counters agree with the bucket states. *)
Definition counted (s : flat_unordered_map) : Prop :=
  size_ s = count_state Filled (buckets_ s) /\
  tombstones_ s = count_state Deleted (buckets_ s).

(** The storage is absent, or its length is a power of two, at least 2. *)
Definition pow2_storage (s : flat_unordered_map) : Prop :=
  buckets_ s = [] \/ (is_pow2 (bucket_count s) /\ 2 <= bucket_count s).

Record well_formed (s : flat_unordered_map) : Prop := mkWF {
  wf_pow2 : pow2_storage s;
  wf_max : bucket_count s <= max_size;
  wf_linked : linked s;
  wf_unique : unique_keys (buckets_ s);
  wf_counted : counted s
}.

(** No Filled bucket of the table holds a key equal to [k]. *)
Definition absent (s : flat_unordered_map) (k : Key) : Prop :=
  forall i b, buckets_ s !! i = Some b -> state b = Filled ->
              keyeq_ (key b) k = false.

(** The effect of an insertion probe for [k], [v] that wrote slot [p]:
    [ob] is the bucket it found there and [nb] the one it left. *)
Record written (s s' : flat_unordered_map) (k : Key) (v : T) (p : nat)
    (ins : bool) (ob nb : Bucket) : Prop := mkWritten {
  wr_old : buckets_ s !! p = Some ob;
  wr_new : buckets_ s' = <[p := nb]> (buckets_ s);
  wr_state : state nb = Filled;
  wr_value : value nb = v;
  wr_key : keyeq_ (key nb) k = true;
  wr_home : bucket_index s (key nb) = bucket_index s k;
  wr_link :
    exists j, (j < length (buckets_ s))%nat /\
              Z.to_nat (probe_at s (bucket_index s k) j) = p /\
              path_nonempty s (bucket_index s k) j;
  wr_case :
    (ins = false /\ state ob = Filled /\ key nb = key ob) \/
    (ins = true /\ state ob <> Filled /\ absent s k);
  wr_size : size_ s' = if ins then wrap (size_ s + 1) else size_ s;
  wr_tomb :
    tombstones_ s' =
    if ins && State_eqb (state ob) Deleted
    then wrap (tombstones_ s - 1) else tombstones_ s;
  wr_mlf : max_load_factor_ s' = max_load_factor_ s
}.

(** What the insertion helper relies on from the [rehash] it calls. *)
Definition rehash_ok (rh : Z -> flat_unordered_map -> M unit) : Prop :=
  forall n s s',
    rh n s = Ret tt s' ->
    unique_keys (buckets_ s) ->
    well_formed s' /\
    tombstones_ s' = 0 /\
    (forall k v, holds s' k v <-> holds s k v) /\
    max_load_factor_ s' = max_load_factor_ s /\
    rehash_len n <= bucket_count s' /\
    size_ s' = count_state Filled (buckets_ s).

(** One table extends another: the storage did not shrink, the load factor
    bound is the same and no tombstone was added. *)
Definition extends (s s' : flat_unordered_map) : Prop :=
  bucket_count s <= bucket_count s' /\
  max_load_factor_ s' = max_load_factor_ s /\
  tombstones_ s' <= tombstones_ s.

(** The table [erase] leaves, before any compaction, when it removes the
    bucket [b] found at slot [pos]. *)
Definition erased (s : flat_unordered_map) (pos : Z) (b : Bucket)
  : flat_unordered_map :=
  mkMap (<[Z.to_nat pos := mkBucket (key b) (value b) Deleted]> (buckets_ s))
        (wrap (size_ s - 1)) (wrap (tombstones_ s + 1)) (max_load_factor_ s).

(** The test [tombstones_ > buckets_.size() / 2] of [erase]. *)
Definition compacts (s : flat_unordered_map) : bool :=
  bucket_count s / 2 <? tombstones_ s.

(** What an erasing probe from [idx] does within [n] steps. *)
Inductive erase_result (rfuel : nat) (s : flat_unordered_map) (k : Key)
    (idx : Z) (n : nat) : bool -> flat_unordered_map -> Prop :=
| ER_none j b :
    (j < n)%nat ->
    path_passes s k idx j ->
    bucket_at s (probe_at s idx j) = Some b ->
    state b = Empty ->
    erase_result rfuel s k idx n false s
| ER_plain j b :
    (j < n)%nat ->
    path_passes s k idx j ->
    bucket_at s (probe_at s idx j) = Some b ->
    state b = Filled ->
    keyeq_ (key b) k = true ->
    compacts (erased s (probe_at s idx j) b) = false ->
    erase_result rfuel s k idx n true (erased s (probe_at s idx j) b)
| ER_compact j b s' :
    (j < n)%nat ->
    path_passes s k idx j ->
    bucket_at s (probe_at s idx j) = Some b ->
    state b = Filled ->
    keyeq_ (key b) k = true ->
    compacts (erased s (probe_at s idx j) b) = true ->
    rehash rfuel (bucket_count (erased s (probe_at s idx j) b))
           (erased s (probe_at s idx j) b) = Ret tt s' ->
    erase_result rfuel s k idx n true s'.

(** ** Sequences of public operations *)

(** Assignment through the pointer returned by [find], [insert_or_assign] or
    [operator[]], as in [fm[3] = "cherry"]; the pointer addresses the value
    of a Filled bucket. *)
Definition store (p : Z) (v : T) (s : flat_unordered_map) : M unit :=
  match bucket_at s p with
  | Some b =>
      match state b with
      | Filled => Ret tt (set_bucket s p (mkBucket (key b) v Filled))
      | _ => Undefined
      end
  | None => Undefined
  end.

Inductive operation : Type :=
| Op_insert_or_assign (k : Key) (v : T)
| Op_find (k : Key)
| Op_index (k : Key)
| Op_store (p : Z) (v : T)
| Op_erase (k : Key)
| Op_clear
| Op_reserve (n : Z)
| Op_rehash (n : Z)
| Op_max_load_factor (f : float fl).

(** One public call, its result dropped.  The key and the value of the call
    lie outside the bucket vector; a call that passes a reference into the
    vector and returns leaves the table that the call on the values referred
    to leaves ([insert_or_assign_by_reference], [index_by_reference] and
    [reachable_by_reference] below). *)
Definition exec (fuel : nat) (o : operation) (s : flat_unordered_map) : M unit :=
  match o with
  | Op_insert_or_assign k v =>
      bind (insert_or_assign fuel (Outside k) (Outside v) s) (fun _ s => Ret tt s)
  | Op_find k => bind (find k s) (fun _ s => Ret tt s)
  | Op_index k => bind (index fuel (Outside k) s) (fun _ s => Ret tt s)
  | Op_store p v => store p v s
  | Op_erase k => bind (erase fuel k s) (fun _ s => Ret tt s)
  | Op_clear => clear s
  | Op_reserve n => reserve fuel n s
  | Op_rehash n => rehash fuel n s
  | Op_max_load_factor f => set_max_load_factor fuel f s
  end.

(** The tables a program can hold: a constructed table, then any number of
    public calls, each of which returned or threw an exception that the
    program caught. *)
Inductive reachable : flat_unordered_map -> Prop :=
| reach_default : reachable empty_map
| reach_make n s :
    0 <= n < size_mod -> make n = Ret tt s -> reachable s
| reach_step fuel o s s' :
    reachable s -> exec fuel o s = Ret tt s' -> reachable s'
| reach_throw fuel o s e s' :
    reachable s -> exec fuel o s = Throw e s' -> reachable s'.


(** The bucket count [reserve] asks for:
    [static_cast<size_type>(n / max_load_factor_) + 1]. *)
Definition reserve_needed (n : Z) (s : flat_unordered_map) : Z :=
  wrap (to_size fl (fdiv fl (of_size fl n) (max_load_factor_ s)) + 1).


(** The load the growth check computes when [c] buckets are in use. *)
Definition load_of (s : flat_unordered_map) (c : Z) : float fl :=
  fdiv fl (of_size fl c) (of_size fl (bucket_count s)).

(** The growth check would not fire with [c] buckets in use. *)
Definition load_fits (s : flat_unordered_map) (c : Z) : Prop :=
  fgt fl (load_of s c) (max_load_factor_ s) = false.

(** On this table a larger count never passes a growth check that a smaller
    count fails: the float quotient and comparison are monotone. *)
Definition load_monotone (s : flat_unordered_map) : Prop :=
  forall a b, 0 <= a <= b -> b <= bucket_count s ->
              load_fits s b -> load_fits s a.

(** The last growth check that let the table reach its present load passed,
    or the table has just been doubled. *)
Definition load_settled (s : flat_unordered_map) : Prop :=
  (exists c, 0 <= c /\
             size_ s + tombstones_ s - 1 <= c <= size_ s + tombstones_ s /\
             load_fits s c) \/
  size_ s + tombstones_ s <= bucket_count s / 2 + 1.

(** What holds of a table whose calls all returned. *)
Definition sound (s : flat_unordered_map) : Prop :=
  well_formed s /\ tombstones_ s <= bucket_count s / 2 /\ load_settled s.

(** ** Storage shapes *)

(** Storage of a power-of-two length between 2 and [max_size]. *)
Definition shaped (s : flat_unordered_map) : Prop :=
  is_pow2 (bucket_count s) /\ 2 <= bucket_count s <= max_size.

(** A slot number inside the storage. *)
Definition in_range (s : flat_unordered_map) (idx : Z) : Prop :=
  0 <= idx < bucket_count s.

(** A [rehash] that never indexes out of range and leaves shaped storage. *)
Definition rehash_safe (rh : Z -> flat_unordered_map -> M unit) : Prop :=
  forall n s,
    rh n s <> Undefined /\ (forall s', rh n s = Ret tt s' -> shaped s').

(** ** Arguments that lie outside the vector *)

Lemma insert_impl_outside rh k v s :
  insert_or_assign_impl rh (Outside k) (Outside v) s = insert_stable rh k v s.
Proof. reflexivity. Qed.

Lemma insert_or_assign_outside fuel k v s :
  insert_or_assign fuel (Outside k) (Outside v) s =
  insert_or_assign_stable fuel k v s.
Proof. reflexivity. Qed.

Lemma index_outside fuel k s :
  index fuel (Outside k) s = index_stable fuel k s.
Proof. reflexivity. Qed.

Lemma reinsert_cons rh b rest s :
  reinsert rh (b :: rest) s =
  match state b with
  | Filled =>
      bind (insert_stable rh (key b) (value b) s) (fun _ s => reinsert rh rest s)
  | _ => reinsert rh rest s
  end.
Proof. reflexivity. Qed.

(** ** Facts about [wrap] and [next_pow2] *)

Lemma size_mod_val : size_mod = 18446744073709551616.
Proof. reflexivity. Qed.

Lemma wrap_small z : 0 <= z < size_mod -> wrap z = z.
Proof. intros H. unfold wrap. apply Z.mod_small. exact H. Qed.

Lemma wrap_range z : 0 <= wrap z < size_mod.
Proof. unfold wrap. apply Z.mod_pos_bound. reflexivity. Qed.

Lemma smear_unroll x :
  smear 64 1 x =
  smear_step 32 (smear_step 16 (smear_step 8 (smear_step 4
    (smear_step 2 (smear_step 1 x))))).
Proof. reflexivity. Qed.

Lemma testbit_smear_step i x j :
  0 <= i -> 0 <= j ->
  Z.testbit (smear_step i x) j = Z.testbit x j || Z.testbit x (j + i).
Proof.
  intros Hi Hj. unfold smear_step.
  rewrite Z.lor_spec, Z.shiftr_spec by assumption. reflexivity.
Qed.

Lemma clear_above_step k i y :
  0 <= k -> 0 <= i -> clear_above k y -> clear_above k (smear_step i y).
Proof.
  intros Hk Hi H j Hj. rewrite testbit_smear_step by lia.
  rewrite !H by lia. reflexivity.
Qed.

Lemma set_below_step k w y :
  0 < w -> set_below k w y -> set_below k (2 * w) (smear_step w y).
Proof.
  intros Hw H j Hj Hlt. rewrite testbit_smear_step by lia.
  destruct (Z_lt_le_dec (k - j) w) as [Hnear | Hfar].
  - rewrite (H j) by lia. reflexivity.
  - rewrite (H (j + w)) by lia. apply orb_true_r.
Qed.

Lemma ones_of_bits k y :
  0 <= k -> clear_above k y -> set_below k (k + 1) y -> y = Z.ones (k + 1).
Proof.
  intros Hk Hc Hs. apply Z.bits_inj'. intros j Hj.
  rewrite Z.testbit_ones_nonneg by lia.
  destruct (Z.ltb_spec j (k + 1)).
  - apply Hs; lia.
  - apply Hc; lia.
Qed.

Lemma smear_ones x :
  0 < x < size_mod -> smear 64 1 x = Z.ones (Z.log2 x + 1).
Proof.
  intros [Hpos Hlt]. pose proof size_mod_val as Hm.
  assert (Hk : 0 <= Z.log2 x) by apply Z.log2_nonneg.
  assert (Hk64 : Z.log2 x < 64).
  { apply Z.log2_lt_pow2; [lia | exact Hlt]. }
  rewrite smear_unroll.
  apply (ones_of_bits (Z.log2 x)); [exact Hk | |].
  - do 6 (apply clear_above_step; [lia | lia |]).
    intros j Hj. apply Z.bits_above_log2; lia.
  - assert (H1 : set_below (Z.log2 x) 1 x).
    { intros j Hj Hw. replace j with (Z.log2 x) by lia. apply Z.bit_log2. lia. }
    pose proof (set_below_step _ 1 _ ltac:(lia) H1) as H2.
    pose proof (set_below_step _ 2 _ ltac:(lia) H2) as H4.
    pose proof (set_below_step _ 4 _ ltac:(lia) H4) as H8.
    pose proof (set_below_step _ 8 _ ltac:(lia) H8) as H16.
    pose proof (set_below_step _ 16 _ ltac:(lia) H16) as H32.
    pose proof (set_below_step _ 32 _ ltac:(lia) H32) as H64.
    intros j Hj Hw. apply H64; lia.
Qed.

(** The value [next_pow2] computes on the whole range of [size_type]. *)
Lemma next_pow2_value n :
  2 <= n < size_mod ->
  next_pow2 n = wrap (2 ^ (Z.log2 (n - 1) + 1)).
Proof.
  intros Hn. unfold next_pow2. pose proof size_mod_val as Hm.
  destruct (Z.ltb_spec n 2); [lia |].
  rewrite (wrap_small (n - 1)) by lia.
  rewrite smear_ones by lia.
  rewrite Z.ones_equiv. f_equal. unfold Z.pred. lia.
Qed.

Lemma next_pow2_log2_up n :
  2 <= n <= 2 ^ 63 -> next_pow2 n = 2 ^ Z.log2_up n.
Proof.
  intros Hn. rewrite next_pow2_value by (rewrite size_mod_val; lia).
  rewrite Z.log2_up_eqn by lia.
  rewrite <- Z.sub_1_r, <- Z.add_1_r.
  apply wrap_small.
  assert (Hl : Z.log2 (n - 1) < 63).
  { apply Z.log2_lt_pow2; lia. }
  assert (0 <= Z.log2 (n - 1)) by apply Z.log2_nonneg.
  split; [apply Z.pow_nonneg; lia |].
  apply Z.le_lt_trans with (2 ^ 63); [| reflexivity].
  apply Z.pow_le_mono_r; lia.
Qed.

Lemma rehash_len_pow2 n : is_pow2 (rehash_len n) /\ 2 <= rehash_len n.
Proof.
  unfold rehash_len. pose proof size_mod_val as Hm.
  destruct (Z.ltb_spec (next_pow2 n) 2) as [Hsmall | Hbig].
  { split; [exists 1; split; [lia | reflexivity] | lia]. }
  split; [| exact Hbig].
  unfold next_pow2 in *.
  destruct (Z.ltb_spec n 2); [exists 1; split; [lia | reflexivity] |].
  pose proof (wrap_range (n - 1)) as Hr.
  destruct (Z.eq_dec (wrap (n - 1)) 0) as [Hz | Hnz].
  { rewrite Hz in Hbig.
    change (wrap (smear 64 1 0 + 1)) with 1 in Hbig. lia. }
  rewrite smear_ones in * by lia.
  rewrite Z.ones_equiv in *.
  set (k := Z.log2 (wrap (n - 1)) + 1) in *.
  replace (Z.pred (2 ^ k) + 1) with (2 ^ k) in * by (unfold Z.pred; lia).
  assert (Hk0 : 0 < k) by (pose proof (Z.log2_nonneg (wrap (n - 1))); lia).
  assert (Hk64 : k <= 64).
  { assert (Z.log2 (wrap (n - 1)) < 64); [| lia].
    apply Z.log2_lt_pow2; [lia | apply Hr]. }
  destruct (Z.eq_dec k 64) as [E | NE].
  - rewrite E in Hbig. change (wrap (2 ^ 64)) with 0 in Hbig. lia.
  - exists k. split; [lia |]. apply wrap_small.
    split; [apply Z.pow_nonneg; lia |].
    unfold size_mod, size_bits. apply Z.pow_lt_mono_r; lia.
Qed.

(** ** Probe loops *)

Lemma State_eqb_eq a b : State_eqb a b = true <-> a = b.
Proof. destruct a, b; simpl; split; intros H; congruence. Qed.

Lemma State_eqb_neq a b : State_eqb a b = false <-> a <> b.
Proof. destruct a, b; simpl; split; intros H; congruence. Qed.

Lemma probe_at_S_r s idx j :
  probe_at s idx (S j) = next_idx s (probe_at s idx j).
Proof.
  revert idx. induction j as [| j IH]; intros idx; [reflexivity |].
  change (probe_at s idx (S (S j))) with (probe_at s (next_idx s idx) (S j)).
  rewrite IH. reflexivity.
Qed.

Lemma path_passes_0 s k idx : path_passes s k idx 0.
Proof. intros i Hi. lia. Qed.

Lemma path_passes_snoc s k idx j b :
  path_passes s k idx j ->
  bucket_at s (probe_at s idx j) = Some b ->
  passes k b = true ->
  path_passes s k idx (S j).
Proof.
  intros Hp Hb Hpass i Hi.
  destruct (Nat.eq_dec i j) as [-> | Hne].
  - exists b. split; assumption.
  - apply Hp. lia.
Qed.

Lemma path_passes_tail s k idx j :
  path_passes s k idx (S j) -> path_passes s k (next_idx s idx) j.
Proof. intros Hp i Hi. apply (Hp (S i)). lia. Qed.

Lemma path_passes_le s k idx j j' :
  (j' <= j)%nat -> path_passes s k idx j -> path_passes s k idx j'.
Proof. intros Hle Hp i Hi. apply Hp. lia. Qed.

Lemma passes_intro k b :
  State_eqb (state b) Empty = false ->
  State_eqb (state b) Filled && keyeq_ (key b) k = false ->
  passes k b = true.
Proof. intros H1 H2. unfold passes. rewrite H1, H2. reflexivity. Qed.

Lemma passes_elim k b :
  passes k b = true ->
  State_eqb (state b) Empty = false /\
  State_eqb (state b) Filled && keyeq_ (key b) k = false.
Proof.
  unfold passes. intros H. apply andb_true_iff in H as [H1 H2].
  apply negb_true_iff in H1, H2. split; assumption.
Qed.

Lemma find_probe_sound s k idx0 fuel :
  forall j r s',
    path_passes s k idx0 j ->
    find_probe fuel k (probe_at s idx0 j) s = Ret r s' ->
    s' = s /\ find_result s k idx0 (j + fuel) r.
Proof.
  induction fuel as [| fuel IH]; intros j r s' Hp Hf; simpl in Hf.
  - discriminate.
  - destruct (bucket_at s (probe_at s idx0 j)) as [b |] eqn:Hb; [| discriminate].
    destruct (State_eqb (state b) Empty) eqn:He.
    + injection Hf as <- <-. split; [reflexivity |].
      apply FR_none with j b; auto; [lia | now apply State_eqb_eq].
    + destruct (State_eqb (state b) Filled && keyeq_ (key b) k) eqn:Hm.
      * injection Hf as <- <-. split; [reflexivity |].
        apply andb_true_iff in Hm as [Hfi Hk].
        apply FR_some with b; auto; [lia | now apply State_eqb_eq].
      * fold (next_idx s (probe_at s idx0 j)) in Hf.
        rewrite <- probe_at_S_r in Hf.
        apply IH in Hf.
        -- replace (j + S fuel)%nat with (S j + fuel)%nat by lia. exact Hf.
        -- eapply path_passes_snoc; eauto using passes_intro.
Qed.

Lemma find_probe_skip s k :
  forall j idx fuel,
    path_passes s k idx j ->
    (j <= fuel)%nat ->
    find_probe fuel k idx s = find_probe (fuel - j) k (probe_at s idx j) s.
Proof.
  induction j as [| j IH]; intros idx fuel Hp Hle.
  - rewrite Nat.sub_0_r. reflexivity.
  - destruct fuel as [| fuel]; [lia |].
    destruct (Hp O ltac:(lia)) as (b & Hb & Hpass).
    apply passes_elim in Hpass as [He Hm].
    simpl in Hb. simpl. rewrite Hb, He, Hm.
    apply IH; [now apply path_passes_tail | lia].
Qed.

Lemma find_probe_complete s k idx fuel r :
  find_result s k idx fuel r -> find_probe fuel k idx s = Ret r s.
Proof.
  intros [j b Hj Hp Hb He | j b Hj Hp Hb Hfi Hk];
    rewrite (find_probe_skip s k j idx fuel Hp) by lia;
    (destruct (fuel - j)%nat as [| m] eqn:Hm; [lia |]); simpl; rewrite Hb.
  - rewrite He. reflexivity.
  - rewrite Hfi, Hk. reflexivity.
Qed.

Lemma insert_probe_sound s k v idx0 fuel :
  forall j fd pos ins s',
    first_deleted_ok s idx0 j fd ->
    path_passes s k idx0 j ->
    insert_probe fuel k v (probe_at s idx0 j) fd s = Ret (pos, ins) s' ->
    insert_result s k v idx0 (j + fuel) pos ins s'.
Proof.
  induction fuel as [| fuel IH]; intros j fd pos ins s' Hfd Hp Hi; simpl in Hi.
  - discriminate.
  - destruct (bucket_at s (probe_at s idx0 j)) as [b |] eqn:Hb; [| discriminate].
    destruct (state b) eqn:Hst.
    + (* Empty *)
      destruct (Z.eqb_spec fd npos) as [Heq | Hne].
      * rewrite Hb in Hi. injection Hi as <- <- <-.
        apply (IR_insert s k v idx0 (j + S fuel) j j b b); auto. lia.
      * destruct Hfd as [? | (t & tb & Ht & Hfd & Htb & Hdel)]; [contradiction |].
        rewrite Htb in Hi. injection Hi as <- <- <-. subst fd.
        apply (IR_insert s k v idx0 (j + S fuel) j t b tb); auto; lia.
    + (* Filled *)
      destruct (keyeq_ (key b) k) eqn:Hk.
      * injection Hi as <- <- <-.
        apply (IR_assign s k v idx0 (j + S fuel) j b); auto. lia.
      * fold (next_idx s (probe_at s idx0 j)) in Hi.
        rewrite <- probe_at_S_r in Hi.
        replace (j + S fuel)%nat with (S j + fuel)%nat by lia.
        apply (IH (S j) fd); auto.
        -- destruct Hfd as [-> | (t & tb & Ht & Hfd)]; [now left | right].
           exists t, tb. split; [lia | exact Hfd].
        -- eapply path_passes_snoc; eauto.
           unfold passes. rewrite Hst, Hk. reflexivity.
    + (* Deleted *)
      fold (next_idx s (probe_at s idx0 j)) in Hi.
      rewrite <- probe_at_S_r in Hi.
      replace (j + S fuel)%nat with (S j + fuel)%nat by lia.
      apply (IH (S j) _ pos ins s' ) in Hi; auto.
      * destruct (Z.eqb_spec fd npos) as [Heq | Hne].
        -- right. exists j, b. repeat split; auto.
        -- destruct Hfd as [? | (t & tb & Ht & Hfd)]; [contradiction | right].
           exists t, tb. split; [lia | exact Hfd].
      * eapply path_passes_snoc; eauto.
        unfold passes. rewrite Hst. reflexivity.
Qed.

Lemma insert_probe_spec s k v idx fuel pos ins s' :
  insert_probe fuel k v idx npos s = Ret (pos, ins) s' ->
  insert_result s k v idx fuel pos ins s'.
Proof.
  intros H.
  apply (insert_probe_sound s k v idx fuel 0 npos pos ins s');
    [now left | apply path_passes_0 | exact H].
Qed.

(** ** Assumptions on the injected hash and equality *)

Hypothesis keyeq_refl : forall a, keyeq_ a a = true.
Hypothesis keyeq_sym : forall a b, keyeq_ a b = true -> keyeq_ b a = true.
Hypothesis keyeq_trans :
  forall a b c, keyeq_ a b = true -> keyeq_ b c = true -> keyeq_ a c = true.
Hypothesis hasher_compat :
  forall a b, keyeq_ a b = true -> hasher_ a = hasher_ b.
Hypothesis max_size_bound : 0 <= max_size < 2 ^ 63.

Lemma bind_Ret {A B : Type} (m : M A) (f : A -> flat_unordered_map -> M B) b s' :
  bind m f = Ret b s' -> exists a s1, m = Ret a s1 /\ f a s1 = Ret b s'.
Proof. destruct m; simpl; intros H; try discriminate. eauto. Qed.





Lemma probe_at_same_length s s' idx j :
  length (buckets_ s') = length (buckets_ s) ->
  probe_at s' idx j = probe_at s idx j.
Proof.
  intros Hlen. revert idx. induction j as [| j IH]; intros idx; [reflexivity |].
  simpl. rewrite IH. f_equal.
  unfold next_idx, mask, bucket_count. rewrite Hlen. reflexivity.
Qed.

Lemma bucket_index_same_length s s' k :
  length (buckets_ s') = length (buckets_ s) ->
  bucket_index s' k = bucket_index s k.
Proof.
  intros Hlen. unfold bucket_index, mask, bucket_count. rewrite Hlen. reflexivity.
Qed.

Lemma first_below (P : nat -> Prop) (dec : forall i, {P i} + {~ P i}) n :
  (forall i, (i < n)%nat -> ~ P i) \/
  (exists i0, (i0 < n)%nat /\ P i0 /\ forall i, (i < i0)%nat -> ~ P i).
Proof.
  induction n as [| n [Hnone | (i0 & Hlt & HP & Hmin)]].
  - left. intros i Hi. lia.
  - destruct (dec n) as [Hn | Hn].
    + right. exists n. repeat split; auto.
    + left. intros i Hi. destruct (Nat.eq_dec i n) as [-> | Hne]; auto.
      apply Hnone. lia.
  - right. exists i0. repeat split; auto.
Qed.

Lemma first_hit (P : nat -> Prop) (dec : forall i, {P i} + {~ P i}) j :
  P j -> exists i0, (i0 <= j)%nat /\ P i0 /\ forall i, (i < i0)%nat -> ~ P i.
Proof.
  intros Hj. destruct (first_below P dec j) as [Hnone | (i0 & Hlt & HP & Hmin)].
  - exists j. repeat split; auto.
  - exists i0. repeat split; auto. lia.
Qed.

Lemma bucket_at_insert_eq s pos b0 b :
  bucket_at s pos = Some b0 ->
  <[Z.to_nat pos := b]> (buckets_ s) !! Z.to_nat pos = Some b.
Proof.
  intros H. apply list_lookup_insert_eq.
  apply lookup_lt_Some in H. exact H.
Qed.


(** ** Counting bucket states *)

Lemma count_state_nil st : count_state st [] = 0.
Proof. reflexivity. Qed.

Lemma count_state_cons st b l :
  count_state st (b :: l) = Z.b2z (State_eqb (state b) st) + count_state st l.
Proof.
  unfold count_state. rewrite filter_cons.
  destruct (decide (State_eqb (state b) st = true)) as [H | H].
  - rewrite H. simpl length. simpl Z.b2z. lia.
  - apply not_true_is_false in H. rewrite H. simpl Z.b2z. lia.
Qed.

Lemma count_state_bounds st l : 0 <= count_state st l <= Z.of_nat (length l).
Proof.
  induction l as [| b l IH].
  - rewrite count_state_nil. simpl. lia.
  - rewrite count_state_cons. simpl length.
    destruct (State_eqb (state b) st); simpl Z.b2z; lia.
Qed.

Lemma count_state_insert st l i b b' :
  l !! i = Some b ->
  count_state st (<[i := b']> l) =
  count_state st l - Z.b2z (State_eqb (state b) st)
                   + Z.b2z (State_eqb (state b') st).
Proof.
  revert i. induction l as [| a l IH]; intros i Hi.
  - discriminate.
  - destruct i as [| i]; simpl in Hi.
    + injection Hi as ->. simpl. rewrite !count_state_cons. lia.
    + simpl. rewrite !count_state_cons. rewrite (IH i Hi). lia.
Qed.

Lemma count_state_replicate st n b :
  count_state st (replicate n b) =
  if State_eqb (state b) st then Z.of_nat n else 0.
Proof.
  induction n as [| n IH]; simpl replicate.
  - rewrite count_state_nil. destruct (State_eqb (state b) st); reflexivity.
  - rewrite count_state_cons, IH.
    destruct (State_eqb (state b) st); simpl Z.b2z; lia.
Qed.

Lemma count_state_pos st l i b :
  l !! i = Some b -> state b = st -> 1 <= count_state st l.
Proof.
  revert i. induction l as [| a l IH]; intros i Hi Hst.
  - discriminate.
  - rewrite count_state_cons. pose proof (count_state_bounds st l).
    destruct i as [| i]; simpl in Hi.
    + injection Hi as ->. rewrite Hst.
      replace (State_eqb st st) with true by (destruct st; reflexivity).
      simpl Z.b2z. lia.
    + specialize (IH i Hi Hst). destruct (State_eqb (state a) st); simpl Z.b2z; lia.
Qed.

Lemma count_state_zero st l :
  count_state st l = 0 -> forall i b, l !! i = Some b -> state b <> st.
Proof.
  intros Hz i b Hi Hst. pose proof (count_state_pos st l i b Hi Hst). lia.
Qed.

Lemma count_states_sum l :
  count_state Filled l + count_state Deleted l <= Z.of_nat (length l).
Proof.
  induction l as [| b l IH].
  - rewrite !count_state_nil. simpl. lia.
  - rewrite !count_state_cons. simpl length.
    destruct (state b); simpl State_eqb; simpl Z.b2z; lia.
Qed.

(** ** What an insertion probe writes *)

Lemma bucket_index_compat s a b :
  keyeq_ a b = true -> bucket_index s a = bucket_index s b.
Proof. intros H. unfold bucket_index. rewrite (hasher_compat a b H). reflexivity. Qed.

Lemma passes_nonempty k b : passes k b = true -> state b <> Empty.
Proof.
  intros H. apply passes_elim in H as [H _]. now apply State_eqb_neq.
Qed.

Lemma path_passes_nonempty s k idx j :
  path_passes s k idx j -> path_nonempty s idx j.
Proof.
  intros Hp i Hi. destruct (Hp i Hi) as (b & Hb & Hpass).
  exists b. split; [exact Hb | now apply passes_nonempty with k].
Qed.

Lemma path_nonempty_le s idx j j' :
  (j' <= j)%nat -> path_nonempty s idx j -> path_nonempty s idx j'.
Proof. intros Hle Hp i Hi. apply Hp. lia. Qed.

(** A probe for [k] that reached an Empty slot shows [k] absent. *)
Lemma absent_of_probe s k j b :
  linked s ->
  path_passes s k (bucket_index s k) j ->
  bucket_at s (probe_at s (bucket_index s k) j) = Some b ->
  state b = Empty ->
  absent s k.
Proof.
  intros Hl Hp Hb He i bi Hi Hfi.
  destruct (keyeq_ (key bi) k) eqn:Hk; [exfalso | reflexivity].
  destruct (Hl i bi Hi Hfi) as (j1 & Hj1 & Hto & Hne).
  rewrite (bucket_index_compat s _ _ Hk) in Hto, Hne.
  destruct (lt_eq_lt_dec j1 j) as [[Hlt | Heq] | Hgt].
  - destruct (Hp j1 Hlt) as (b' & Hb' & Hpass).
    unfold bucket_at in Hb'. rewrite Hto in Hb'.
    assert (b' = bi) by congruence. subst b'.
    unfold passes in Hpass. rewrite Hfi, Hk in Hpass. discriminate.
  - subst j1. unfold bucket_at in Hb. rewrite Hto in Hb.
    assert (b = bi) by congruence. subst b. congruence.
  - destruct (Hne j Hgt) as (b' & Hb' & Hne').
    assert (b' = b) by congruence. subst b'. contradiction.
Qed.

Lemma insert_result_written s k v pos ins s' :
  linked s ->
  insert_result s k v (bucket_index s k) (length (buckets_ s)) pos ins s' ->
  exists ob nb, written s s' k v (Z.to_nat pos) ins ob nb.
Proof.
  intros Hl [j b Hj Hp Hb Hfi Hk | j t b tb Hj Hp Hb He Ht Htb Hcase].
  - exists b, (mkBucket (key b) v Filled).
    constructor; simpl; auto.
    + now apply bucket_index_compat.
    + exists j. repeat split; auto. now apply path_passes_nonempty with k.
  - exists tb, (mkBucket k v Filled).
    assert (Hnf : state tb <> Filled).
    { destruct Hcase as [-> | Hd]; [| congruence].
      assert (tb = b) by congruence. subst tb. congruence. }
    constructor; simpl; auto.
    + exists t. repeat split; [lia |].
      apply path_nonempty_le with j; [exact Ht |].
      now apply path_passes_nonempty with k.
    + right. repeat split; auto. eapply absent_of_probe; eauto.
Qed.

Section Written.

Variables (s s' : flat_unordered_map) (k : Key) (v : T) (p : nat)
          (ins : bool) (ob nb : Bucket).
Hypothesis W : written s s' k v p ins ob nb.

Lemma written_length : length (buckets_ s') = length (buckets_ s).
Proof. rewrite (wr_new _ _ _ _ _ _ _ _ W). apply length_insert. Qed.

Lemma written_at : buckets_ s' !! p = Some nb.
Proof.
  rewrite (wr_new _ _ _ _ _ _ _ _ W). apply list_lookup_insert_eq.
  apply lookup_lt_Some with ob. apply (wr_old _ _ _ _ _ _ _ _ W).
Qed.

Lemma written_other i : i <> p -> buckets_ s' !! i = buckets_ s !! i.
Proof.
  intros Hne. rewrite (wr_new _ _ _ _ _ _ _ _ W).
  apply list_lookup_insert_ne. congruence.
Qed.

Lemma written_probe_at idx j : probe_at s' idx j = probe_at s idx j.
Proof. apply probe_at_same_length, written_length. Qed.

Lemma written_bucket_index a : bucket_index s' a = bucket_index s a.
Proof. apply bucket_index_same_length, written_length. Qed.

Lemma written_path_nonempty idx j :
  path_nonempty s idx j -> path_nonempty s' idx j.
Proof.
  intros Hp i Hi. destruct (Hp i Hi) as (b & Hb & Hne).
  rewrite written_probe_at. unfold bucket_at in *.
  destruct (Nat.eq_dec (Z.to_nat (probe_at s idx i)) p) as [-> | Hnp].
  - exists nb. split; [apply written_at |].
    rewrite (wr_state _ _ _ _ _ _ _ _ W). discriminate.
  - exists b. split; [rewrite written_other; assumption | exact Hne].
Qed.

Lemma written_linked : linked s -> linked s'.
Proof.
  intros Hl i b Hi Hfi. rewrite written_length.
  destruct (Nat.eq_dec i p) as [-> | Hnp].
  - rewrite written_at in Hi. injection Hi as <-.
    destruct (wr_link _ _ _ _ _ _ _ _ W) as (j & Hj & Hto & Hne).
    exists j. rewrite written_bucket_index, written_probe_at.
    rewrite (wr_home _ _ _ _ _ _ _ _ W).
    repeat split; auto. now apply written_path_nonempty.
  - rewrite written_other in Hi by assumption.
    destruct (Hl i b Hi Hfi) as (j & Hj & Hto & Hne).
    exists j. rewrite written_bucket_index, written_probe_at.
    repeat split; auto. now apply written_path_nonempty.
Qed.

(** The key written does not equal the key of any other Filled bucket. *)
Lemma written_fresh i b :
  unique_keys (buckets_ s) ->
  i <> p -> buckets_ s !! i = Some b -> state b = Filled ->
  keyeq_ (key b) k = false.
Proof.
  intros Hu Hnp Hi Hfi.
  destruct (wr_case _ _ _ _ _ _ _ _ W) as [(_ & Hof & Hkey) | (_ & _ & Habs)].
  - destruct (keyeq_ (key b) k) eqn:Hk; [exfalso | reflexivity].
    apply Hnp. apply (Hu i p b ob); auto.
    + apply (wr_old _ _ _ _ _ _ _ _ W).
    + rewrite <- Hkey. apply keyeq_trans with k; [exact Hk |].
      apply keyeq_sym. apply (wr_key _ _ _ _ _ _ _ _ W).
  - now apply (Habs i b).
Qed.

Lemma written_unique : unique_keys (buckets_ s) -> unique_keys (buckets_ s').
Proof.
  intros Hu i i' b b' Hi Hi' Hfi Hfi' Hk.
  pose proof (wr_key _ _ _ _ _ _ _ _ W) as Hnk.
  destruct (Nat.eq_dec i p) as [-> | Hnp];
    destruct (Nat.eq_dec i' p) as [-> | Hnp']; auto.
  - rewrite written_at in Hi. injection Hi as <-.
    rewrite written_other in Hi' by assumption.
    pose proof (written_fresh i' b' Hu Hnp' Hi' Hfi') as Hfresh.
    rewrite (keyeq_trans (key b') (key nb) k) in Hfresh; auto. discriminate.
  - rewrite written_at in Hi'. injection Hi' as <-.
    rewrite written_other in Hi by assumption.
    pose proof (written_fresh i b Hu Hnp Hi Hfi) as Hfresh.
    rewrite (keyeq_trans (key b) (key nb) k) in Hfresh; auto. discriminate.
  - rewrite written_other in Hi, Hi' by assumption.
    now apply (Hu i i' b b').
Qed.

Lemma written_holds :
  unique_keys (buckets_ s) ->
  forall k' v',
    holds s' k' v' <->
    (keyeq_ k k' = true /\ v' = v) \/ (keyeq_ k k' = false /\ holds s k' v').
Proof.
  intros Hu k' v'.
  pose proof (wr_key _ _ _ _ _ _ _ _ W) as Hnk.
  pose proof (wr_value _ _ _ _ _ _ _ _ W) as Hnv.
  pose proof (wr_state _ _ _ _ _ _ _ _ W) as Hns.
  split.
  - intros (i & b & Hi & Hfi & Hk & Hv).
    destruct (Nat.eq_dec i p) as [-> | Hnp].
    + rewrite written_at in Hi. injection Hi as <-. left. split; [| congruence].
      apply keyeq_trans with (key nb); [now apply keyeq_sym | exact Hk].
    + rewrite written_other in Hi by assumption.
      destruct (keyeq_ k k') eqn:Hkk.
      * pose proof (written_fresh i b Hu Hnp Hi Hfi) as Hfresh.
        rewrite (keyeq_trans (key b) k' k) in Hfresh; auto. discriminate.
      * right. split; [reflexivity |]. exists i, b. auto.
  - intros [[Hkk ->] | [Hkk (i & b & Hi & Hfi & Hk & Hv)]].
    + exists p, nb. repeat split; auto using written_at.
      now apply keyeq_trans with k.
    + exists i, b. repeat split; auto.
      rewrite written_other; [exact Hi |].
      intros ->.
      pose proof (wr_old _ _ _ _ _ _ _ _ W) as Hob.
      assert (b = ob) by congruence. subst b.
      destruct (wr_case _ _ _ _ _ _ _ _ W) as [(_ & _ & Hkey) | (_ & Hnf & _)];
        [| contradiction].
      rewrite (keyeq_trans k (key ob) k') in Hkk; auto; [discriminate |].
      rewrite <- Hkey. now apply keyeq_sym.
Qed.

Lemma written_counted :
  bucket_count s <= max_size -> counted s -> counted s'.
Proof.
  intros Hmax [Hsz Htb].
  pose proof (wr_old _ _ _ _ _ _ _ _ W) as Hob.
  pose proof (wr_state _ _ _ _ _ _ _ _ W) as Hns.
  pose proof (count_state_insert Filled _ p ob nb Hob) as HcF.
  pose proof (count_state_insert Deleted _ p ob nb Hob) as HcD.
  rewrite <- (wr_new _ _ _ _ _ _ _ _ W) in HcF, HcD.
  rewrite Hns in HcF, HcD. simpl State_eqb in HcF, HcD. simpl Z.b2z in HcF, HcD.
  pose proof (count_state_bounds Filled (buckets_ s')) as HbF.
  pose proof (count_state_bounds Deleted (buckets_ s')) as HbD.
  pose proof (count_state_bounds Deleted (buckets_ s)) as HbD0.
  rewrite written_length in HbF, HbD.
  unfold bucket_count in Hmax. pose proof size_mod_val as Hm.
  assert (Hms : max_size < size_mod) by (rewrite Hm; lia).
  split.
  - rewrite (wr_size _ _ _ _ _ _ _ _ W), HcF, Hsz.
    destruct (wr_case _ _ _ _ _ _ _ _ W) as [(-> & Hof & _) | (-> & Hnf & _)].
    + rewrite Hof. simpl. lia.
    + apply State_eqb_neq in Hnf. rewrite Hnf in *. simpl Z.b2z in *.
      rewrite wrap_small; lia.
  - rewrite (wr_tomb _ _ _ _ _ _ _ _ W), HcD, Htb.
    destruct (wr_case _ _ _ _ _ _ _ _ W) as [(-> & Hof & _) | (-> & Hnf & _)].
    + rewrite Hof. simpl. lia.
    + simpl andb. destruct (State_eqb (state ob) Deleted) eqn:Hd; simpl Z.b2z.
      * apply State_eqb_eq in Hd.
        pose proof (count_state_pos Deleted _ p ob Hob Hd).
        rewrite wrap_small; lia.
      * lia.
Qed.

Lemma written_size :
  bucket_count s <= max_size -> counted s -> size_ s' = size_ s + Z.b2z ins.
Proof.
  intros Hmax Hc. destruct (written_counted Hmax Hc) as [Hsz' _].
  destruct Hc as [Hsz _].
  pose proof (wr_old _ _ _ _ _ _ _ _ W) as Hob.
  pose proof (count_state_insert Filled _ p ob nb Hob) as HcF.
  rewrite <- (wr_new _ _ _ _ _ _ _ _ W) in HcF.
  rewrite (wr_state _ _ _ _ _ _ _ _ W) in HcF.
  simpl State_eqb in HcF. simpl Z.b2z in HcF.
  destruct (wr_case _ _ _ _ _ _ _ _ W) as [(-> & Hof & _) | (-> & Hnf & _)].
  - rewrite Hof in HcF. simpl in HcF. simpl. lia.
  - apply State_eqb_neq in Hnf. rewrite Hnf in HcF. simpl in HcF. simpl. lia.
Qed.

Lemma written_tomb_le :
  counted s -> tombstones_ s' <= tombstones_ s.
Proof.
  intros [_ Htb].
  pose proof (wr_old _ _ _ _ _ _ _ _ W) as Hob.
  rewrite (wr_tomb _ _ _ _ _ _ _ _ W).
  destruct (ins && State_eqb (state ob) Deleted) eqn:Hc; [| lia].
  apply andb_true_iff in Hc as [_ Hd]. apply State_eqb_eq in Hd.
  pose proof (count_state_pos Deleted _ p ob Hob Hd).
  pose proof (count_state_bounds Deleted (buckets_ s)).
  pose proof size_mod_val as Hm.
  pose proof (Z.mod_le (tombstones_ s - 1) size_mod ltac:(lia) ltac:(lia)).
  unfold wrap. lia.
Qed.

Lemma written_well_formed : well_formed s -> well_formed s'.
Proof.
  intros [Hp Hmax Hl Hu Hc]. constructor.
  - unfold pow2_storage, bucket_count in *. rewrite written_length.
    destruct Hp as [Hnil | Hp]; [| now right].
    pose proof (wr_old _ _ _ _ _ _ _ _ W) as Hob. rewrite Hnil in Hob. discriminate.
  - unfold bucket_count in *. rewrite written_length. exact Hmax.
  - now apply written_linked.
  - now apply written_unique.
  - now apply written_counted.
Qed.

End Written.

(** ** Rehash and insertion preserve the invariants *)

Lemma rehash_len_ge n : n <= 2 ^ 63 -> n <= rehash_len n.
Proof.
  intros Hn. unfold rehash_len.
  destruct (Z_lt_le_dec n 2) as [Hlt | Hge].
  - destruct (next_pow2 n <? 2); [lia |].
    unfold next_pow2. destruct (Z.ltb_spec n 2); lia.
  - rewrite next_pow2_log2_up by lia.
    pose proof (Z.log2_up_spec n ltac:(lia)) as [_ Hup].
    destruct (Z.ltb_spec (2 ^ Z.log2_up n) 2); lia.
Qed.

Lemma pow2_double_bound n : is_pow2 n -> n < 2 ^ 63 -> n * 2 <= 2 ^ 63.
Proof.
  intros (k & Hk & ->) Hlt.
  apply Z.pow_lt_mono_r_iff in Hlt; [| lia | lia].
  replace (2 ^ k * 2) with (2 ^ (k + 1)) by (rewrite Z.pow_add_r; lia).
  apply Z.pow_le_mono_r; lia.
Qed.

Lemma absent_holds s k : absent s k <-> forall v, ~ holds s k v.
Proof.
  split.
  - intros Ha v (i & b & Hi & Hfi & Hk & _).
    rewrite (Ha i b Hi Hfi) in Hk. discriminate.
  - intros Hn i b Hi Hfi.
    destruct (keyeq_ (key b) k) eqn:Hk; [exfalso | reflexivity].
    apply (Hn (value b)). exists i, b. auto.
Qed.

Lemma extends_refl s : extends s s.
Proof. unfold extends. repeat split; lia. Qed.

Lemma extends_trans s1 s2 s3 : extends s1 s2 -> extends s2 s3 -> extends s1 s3.
Proof.
  unfold extends. intros (H1 & H2 & H3) (H4 & H5 & H6).
  repeat split; [lia | congruence | lia].
Qed.

Lemma counted_tomb_nonneg s : counted s -> 0 <= tombstones_ s.
Proof.
  intros [_ ->]. apply count_state_bounds.
Qed.

Section WithRehashOk.

Variable rh : Z -> flat_unordered_map -> M unit.
Hypothesis rh_ok : rehash_ok rh.

Lemma rehash_if_needed_ok s s' :
  rehash_if_needed rh s = Ret tt s' ->
  well_formed s ->
  well_formed s' /\ (forall k v, holds s' k v <-> holds s k v) /\ extends s s' /\
  size_ s' = size_ s.
Proof.
  unfold rehash_if_needed. intros H Hwf.
  destruct (buckets_empty s || fgt fl (current_load s) (max_load_factor_ s)).
  - destruct (rh_ok _ _ _ H (wf_unique _ Hwf))
      as (Hwf' & Ht & Hh & Hm & Hlen & Hsz).
    split; [exact Hwf' |]. split; [exact Hh |].
    split; [| rewrite Hsz; symmetry; apply (wf_counted _ Hwf)].
    split; [| split; [exact Hm |]].
    + pose proof (wf_max _ Hwf) as Hmax.
      unfold buckets_empty in *. unfold bucket_count in *.
      destruct (buckets_ s) as [| b0 l] eqn:Hbs.
      * simpl. lia.
      * destruct (wf_pow2 _ Hwf) as [Hnil | [Hp2 _]]; [congruence |].
        unfold bucket_count in Hp2. rewrite Hbs in Hp2.
        pose proof (pow2_double_bound _ Hp2 ltac:(lia)) as Hdb.
        rewrite wrap_small in Hlen by (rewrite size_mod_val; split; lia).
        pose proof (rehash_len_ge _ Hdb).
        lia.
    + rewrite Ht. apply counted_tomb_nonneg, (wf_counted _ Hwf).
  - injection H as <-.
    split; [exact Hwf |]. split; [tauto |]. split; [apply extends_refl | reflexivity].
Qed.

Lemma insert_or_assign_impl_ok k v s pos ins s' :
  insert_stable rh k v s = Ret (pos, ins) s' ->
  well_formed s ->
  well_formed s' /\
  (forall k' v',
     holds s' k' v' <->
     (keyeq_ k k' = true /\ v' = v) \/ (keyeq_ k k' = false /\ holds s k' v')) /\
  extends s s' /\
  (ins = true <-> absent s k) /\
  size_ s' = size_ s + Z.b2z ins.
Proof.
  unfold insert_stable. intros H Hwf.
  apply bind_Ret in H as ([] & s1 & Hr & Hi).
  destruct (rehash_if_needed_ok _ _ Hr Hwf) as (Hwf1 & Hh1 & Hext1 & Hsz1).
  apply insert_probe_spec in Hi.
  destruct (insert_result_written _ _ _ _ _ _ (wf_linked _ Hwf1) Hi)
    as (ob & nb & W).
  split; [exact (written_well_formed _ _ _ _ _ _ _ _ W Hwf1) |].
  split; [| split; [| split]]; cycle 3.
  { rewrite <- Hsz1.
    apply (written_size _ _ _ _ _ _ _ _ W (wf_max _ Hwf1) (wf_counted _ Hwf1)). }
  - intros k' v'.
    rewrite (written_holds _ _ _ _ _ _ _ _ W (wf_unique _ Hwf1) k' v').
    rewrite (Hh1 k' v'). reflexivity.
  - apply extends_trans with s1; [exact Hext1 |].
    unfold extends, bucket_count.
    rewrite (written_length _ _ _ _ _ _ _ _ W).
    split; [lia |]. split; [apply (wr_mlf _ _ _ _ _ _ _ _ W) |].
    apply (written_tomb_le _ _ _ _ _ _ _ _ W), (wf_counted _ Hwf1).
  - assert (Ha : absent s k <-> absent s1 k).
    { rewrite !absent_holds. split; intros Hn v0 Hv; apply (Hn v0), Hh1, Hv. }
    rewrite Ha.
    destruct (wr_case _ _ _ _ _ _ _ _ W) as [(-> & Hof & Hkey) | (-> & _ & Habs)].
    + split; [discriminate |]. intros Habs. exfalso.
      pose proof (Habs _ _ (wr_old _ _ _ _ _ _ _ _ W) Hof) as Hk.
      rewrite <- Hkey, (wr_key _ _ _ _ _ _ _ _ W) in Hk. discriminate.
    + tauto.
Qed.

Lemma live_in_cons b l k v :
  live_in (b :: l) k v <->
  (state b = Filled /\ keyeq_ (key b) k = true /\ value b = v) \/ live_in l k v.
Proof.
  split.
  - intros (i & b' & Hi & H). destruct i as [| i]; simpl in Hi.
    + injection Hi as <-. now left.
    + right. exists i, b'. auto.
  - intros [H | (i & b' & Hi & H)].
    + exists O, b. auto.
    + exists (S i), b'. auto.
Qed.

Lemma unique_keys_tail b l : unique_keys (b :: l) -> unique_keys l.
Proof.
  intros Hu i i' bi bi' Hi Hi' Hf Hf' Hk.
  assert (S i = S i') by (apply (Hu (S i) (S i') bi bi'); auto). lia.
Qed.

Lemma unique_keys_head b l k v :
  unique_keys (b :: l) -> state b = Filled -> live_in l k v ->
  keyeq_ (key b) k = false.
Proof.
  intros Hu Hfb (i & b' & Hi & Hf & Hk & _).
  destruct (keyeq_ (key b) k) eqn:Hbk; [exfalso | reflexivity].
  assert (O = S i); [| lia].
  apply (Hu O (S i) b b'); auto.
  apply keyeq_trans with k; [exact Hbk | now apply keyeq_sym].
Qed.

Lemma reinsert_ok old :
  forall acc s',
    reinsert rh old acc = Ret tt s' ->
    well_formed acc ->
    unique_keys old ->
    (forall k v, live_in old k v -> absent acc k) ->
    well_formed s' /\
    (forall k v, holds s' k v <-> holds acc k v \/ live_in old k v) /\
    extends acc s' /\
    size_ s' = size_ acc + count_state Filled old.
Proof.
  induction old as [| b rest IH]; intros acc s' H Hwf Hu Hdis.
  - simpl in H. injection H as <-.
    split; [exact Hwf |].
    split; [| split; [apply extends_refl | rewrite count_state_nil; lia]].
    intros k v. split; [now left |].
    intros [Hh | (i & b & Hi & _)]; [exact Hh | discriminate].
  - assert (Hskip : state b <> Filled ->
                    reinsert rh rest acc = Ret tt s' ->
                    well_formed s' /\
                    (forall k v, holds s' k v <-> holds acc k v \/ live_in (b :: rest) k v) /\
                    extends acc s' /\
                    size_ s' = size_ acc + count_state Filled (b :: rest)).
    { intros Hnf Hr.
      destruct (IH acc s' Hr Hwf (unique_keys_tail _ _ Hu))
        as (Hwf' & Hh & Hext & Hsz).
      { intros k v Hl. apply (Hdis k v). apply live_in_cons. now right. }
      split; [exact Hwf' |]. split; [| split; [exact Hext |]].
      - intros k v. rewrite Hh, live_in_cons. tauto.
      - rewrite count_state_cons. apply State_eqb_neq in Hnf. rewrite Hnf.
        simpl Z.b2z. lia. }
    simpl in H. destruct (state b) eqn:Hst.
    + apply Hskip; [discriminate | exact H].
    + apply bind_Ret in H as ([pos ins] & acc' & Hins & Hr).
      destruct (insert_or_assign_impl_ok _ _ _ _ _ _ Hins Hwf)
        as (Hwf1 & Hh1 & Hext1 & Hins1 & Hsz1).
      destruct (IH acc' s' Hr Hwf1 (unique_keys_tail _ _ Hu))
        as (Hwf' & Hh & Hext & Hsz).
      { intros k v Hl. apply absent_holds. intros v0 Hv0.
        apply Hh1 in Hv0 as [[Hk _] | [_ Hv0]].
        - rewrite (unique_keys_head b rest k v Hu Hst Hl) in Hk. discriminate.
        - assert (Habs : absent acc k).
          { apply (Hdis k v). apply live_in_cons. now right. }
          apply (proj1 (absent_holds _ _) Habs v0 Hv0). }
      split; [exact Hwf' |].
      split; [| split; [now apply extends_trans with acc' |]]; cycle 1.
      { assert (Hnew : ins = true).
        { apply Hins1. apply (Hdis (key b) (value b)).
          apply live_in_cons. left. auto. }
        rewrite Hsz, Hsz1, Hnew, count_state_cons, Hst. simpl. lia. }
      intros k v. rewrite Hh, Hh1, live_in_cons.
      split.
      * intros [[[Hk ->] | [_ Hv]] | Hl]; auto.
      * intros [Hv | [(_ & Hk & <-) | Hl]]; auto.
        destruct (keyeq_ (key b) k) eqn:Hk; [| auto].
        exfalso.
        assert (Habs : absent acc k).
        { apply (Hdis k (value b)). apply live_in_cons. left. auto. }
        apply (proj1 (absent_holds _ _) Habs v Hv).
    + apply Hskip; [discriminate | exact H].
Qed.

End WithRehashOk.

Lemma fresh_lookup n (i : nat) (b : Bucket) :
  replicate n bucket_default !! i = Some b -> state b = Empty.
Proof.
  intros H. apply lookup_replicate in H as [-> _]. reflexivity.
Qed.

Lemma fresh_well_formed n f :
  is_pow2 n -> 2 <= n -> n <= max_size ->
  well_formed (mkMap (replicate (Z.to_nat n) bucket_default) 0 0 f).
Proof.
  intros Hp Hn Hmax.
  assert (Hlen : Z.of_nat (length (replicate (Z.to_nat n) bucket_default)) = n).
  { rewrite length_replicate. lia. }
  constructor; simpl.
  - right. unfold bucket_count. simpl. rewrite Hlen. auto.
  - unfold bucket_count. simpl. lia.
  - intros i b Hi Hfi. simpl in Hi. apply fresh_lookup in Hi. congruence.
  - intros i i' b b' Hi _ Hfi. apply fresh_lookup in Hi. congruence.
  - split; simpl; rewrite count_state_replicate; reflexivity.
Qed.

Lemma rehash_S fuel n s :
  rehash (S fuel) n s =
  if max_size <? rehash_len n then Throw length_error (with_buckets s [])
  else if negb (can_allocate (rehash_len n))
  then Throw bad_alloc (with_buckets s [])
  else reinsert (rehash fuel) (buckets_ s)
         (mkMap (replicate (Z.to_nat (rehash_len n)) bucket_default) 0 0
                (max_load_factor_ s)).
Proof. reflexivity. Qed.

Lemma rehash_rehash_ok fuel : rehash_ok (rehash fuel).
Proof.
  induction fuel as [| fuel IH]; intros n s s' H Hu.
  - discriminate.
  - rewrite rehash_S in H.
    destruct (Z.ltb_spec max_size (rehash_len n)) as [Hbig | Hfit]; [discriminate |].
    destruct (can_allocate (rehash_len n)); [simpl in H | discriminate].
    destruct (rehash_len_pow2 n) as [Hp2 Hge].
    destruct (reinsert_ok _ IH _ _ _ H (fresh_well_formed _ _ Hp2 Hge Hfit) Hu)
      as (Hwf' & Hh & (Hlen & Hmlf & Htomb) & Hsz).
    { intros k v _ i b Hi Hfi. simpl in Hi. apply fresh_lookup in Hi. congruence. }
    simpl in Htomb, Hmlf, Hsz.
    split; [exact Hwf' |].
    split; [pose proof (counted_tomb_nonneg _ (wf_counted _ Hwf')); lia |].
    split; [| split; [exact Hmlf | split; [| lia]]].
    + intros k v. rewrite Hh. split; [| now right].
      intros [(i & b & Hi & Hfi & _) | Hl]; [| exact Hl].
      simpl in Hi. apply fresh_lookup in Hi. congruence.
    + unfold bucket_count in Hlen at 1. simpl in Hlen.
      rewrite length_replicate in Hlen. lia.
Qed.

(** ** Searching a well-formed table *)

Lemma buckets_empty_nil s : buckets_empty s = true <-> buckets_ s = [].
Proof.
  unfold buckets_empty. destruct (buckets_ s); split; intros H; congruence.
Qed.

Lemma find_unfold s k :
  buckets_empty s = false ->
  find k s = find_probe (length (buckets_ s)) k (bucket_index s k) s.
Proof. intros H. unfold find. rewrite H. reflexivity. Qed.

Lemma find_inv s k r s' :
  find k s = Ret r s' ->
  s' = s /\
  ((buckets_ s = [] /\ r = None) \/
   find_result s k (bucket_index s k) (length (buckets_ s)) r).
Proof.
  unfold find. intros H. destruct (buckets_empty s) eqn:He.
  - injection H as <- <-. apply buckets_empty_nil in He. auto.
  - apply (find_probe_sound s k (bucket_index s k) _ O) in H;
      [| apply path_passes_0].
    destruct H as [-> H]. auto.
Qed.

Lemma find_none_absent s k s' :
  linked s -> find k s = Ret None s' -> absent s k.
Proof.
  intros Hl H. apply find_inv in H as [_ [[Hnil _] | Hr]].
  - intros i b Hi. rewrite Hnil in Hi. discriminate.
  - inversion Hr as [j b Hj Hp Hb He |]; subst.
    eapply absent_of_probe; eauto.
Qed.

Lemma find_some_holds s k p s' :
  find k s = Ret (Some p) s' ->
  exists b, bucket_at s p = Some b /\ state b = Filled /\
            keyeq_ (key b) k = true /\ holds s k (value b).
Proof.
  intros H. apply find_inv in H as [_ [[_ Hn] | Hr]]; [discriminate |].
  inversion Hr as [| j b Hj Hp Hb Hfi Hk Heq]; subst.
  exists b. repeat split; auto.
  exists (Z.to_nat (probe_at s (bucket_index s k) j)), b. auto.
Qed.

Lemma find_holds s k v :
  linked s -> unique_keys (buckets_ s) -> holds s k v ->
  exists p, find k s = Ret (Some p) s /\ deref s (Some p) = Some v.
Proof.
  intros Hl Hu (i & b & Hi & Hfi & Hk & Hv).
  destruct (Hl i b Hi Hfi) as (j & Hj & Hto & Hne).
  rewrite (bucket_index_compat s _ _ Hk) in Hto, Hne.
  set (idx := bucket_index s k) in *.
  set (stops := fun t =>
         match bucket_at s (probe_at s idx t) with
         | Some b' => negb (passes k b')
         | None => false
         end).
  assert (Hbj : bucket_at s (probe_at s idx j) = Some b).
  { unfold bucket_at. rewrite Hto. exact Hi. }
  assert (Hsj : stops j = true).
  { unfold stops. rewrite Hbj. unfold passes. rewrite Hfi, Hk. reflexivity. }
  destruct (first_hit (fun t => stops t = true)
              (fun t => bool_dec (stops t) true) j Hsj)
    as (i0 & Hi0 & Hs0 & Hmin).
  assert (Hpath : path_passes s k idx i0).
  { intros t Ht. destruct (Hne t ltac:(lia)) as (b' & Hb' & _).
    exists b'. split; [exact Hb' |].
    specialize (Hmin t Ht). unfold stops in Hmin. rewrite Hb' in Hmin.
    destruct (passes k b'); [reflexivity | exfalso; now apply Hmin]. }
  unfold stops in Hs0.
  destruct (bucket_at s (probe_at s idx i0)) as [b0 |] eqn:Hb0; [| discriminate].
  assert (Hne0 : state b0 <> Empty).
  { destruct (Nat.eq_dec i0 j) as [-> | Hnj].
    - assert (b0 = b) by congruence. subst b0. congruence.
    - destruct (Hne i0 ltac:(lia)) as (b' & Hb' & Hn). congruence. }
  assert (Hm : state b0 = Filled /\ keyeq_ (key b0) k = true).
  { apply negb_true_iff in Hs0. unfold passes in Hs0.
    destruct (state b0); simpl in Hs0; try discriminate; try contradiction.
    destruct (keyeq_ (key b0) k); [auto | discriminate]. }
  destruct Hm as [Hf0 Hk0].
  exists (probe_at s idx i0). split.
  - rewrite find_unfold.
    + apply find_probe_complete. apply FR_some with b0; auto. lia.
    + apply not_true_is_false. rewrite buckets_empty_nil.
      intros Hnil. rewrite Hnil in Hi. discriminate.
  - simpl. rewrite Hb0. simpl. f_equal.
    assert (Heq : Z.to_nat (probe_at s idx i0) = i);
      [| unfold bucket_at in Hb0; rewrite Heq in Hb0; congruence].
    apply (Hu _ _ b0 b); auto.
    apply keyeq_trans with k; [exact Hk0 | now apply keyeq_sym].
Qed.

(** ** Erasing *)

Lemma erase_probe_S rfuel fuel k idx s :
  erase_probe rfuel (S fuel) k idx s =
  match bucket_at s idx with
  | None => Undefined
  | Some b =>
      if State_eqb (state b) Empty then Ret false s
      else if State_eqb (state b) Filled && keyeq_ (key b) k then
        if compacts (erased s idx b)
        then bind (rehash rfuel (bucket_count (erased s idx b)) (erased s idx b))
                  (fun _ s => Ret true s)
        else Ret true (erased s idx b)
      else erase_probe rfuel fuel k (next_idx s idx) s
  end.
Proof. reflexivity. Qed.

Lemma erase_probe_sound rfuel s k idx0 fuel :
  forall j r s',
    path_passes s k idx0 j ->
    erase_probe rfuel fuel k (probe_at s idx0 j) s = Ret r s' ->
    erase_result rfuel s k idx0 (j + fuel) r s'.
Proof.
  induction fuel as [| fuel IH]; intros j r s' Hp He.
  - discriminate.
  - rewrite erase_probe_S in He.
    destruct (bucket_at s (probe_at s idx0 j)) as [b |] eqn:Hb; [| discriminate].
    destruct (State_eqb (state b) Empty) eqn:Hem.
    + injection He as <- <-.
      apply ER_none with j b; auto; [lia | now apply State_eqb_eq].
    + destruct (State_eqb (state b) Filled && keyeq_ (key b) k) eqn:Hm.
      * apply andb_true_iff in Hm as [Hfi Hk]. apply State_eqb_eq in Hfi.
        destruct (compacts (erased s (probe_at s idx0 j) b)) eqn:Hc.
        -- apply bind_Ret in He as ([] & s1 & Hr & Hret).
           injection Hret as <- <-.
           apply ER_compact with j b; auto. lia.
        -- injection He as <- <-. apply ER_plain; auto. lia.
      * rewrite <- probe_at_S_r in He.
        replace (j + S fuel)%nat with (S j + fuel)%nat by lia.
        apply IH; [| exact He].
        eapply path_passes_snoc; eauto using passes_intro.
Qed.

Lemma erase_inv fuel s k r s' :
  erase fuel k s = Ret r s' ->
  (buckets_ s = [] /\ r = false /\ s' = s) \/
  erase_result fuel s k (bucket_index s k) (length (buckets_ s)) r s'.
Proof.
  unfold erase. intros H. destruct (buckets_empty s) eqn:He.
  - injection H as <- <-. apply buckets_empty_nil in He. auto.
  - right. apply (erase_probe_sound fuel s k (bucket_index s k) _ O);
      [apply path_passes_0 | exact H].
Qed.

Section Erased.

Variables (s : flat_unordered_map) (pos : Z) (b : Bucket).
Hypothesis Hwf : well_formed s.
Hypothesis Hb : bucket_at s pos = Some b.
Hypothesis Hfi : state b = Filled.

Lemma erased_length :
  length (buckets_ (erased s pos b)) = length (buckets_ s).
Proof. simpl. apply length_insert. Qed.

Lemma erased_at :
  buckets_ (erased s pos b) !! Z.to_nat pos =
  Some (mkBucket (key b) (value b) Deleted).
Proof. simpl. eapply bucket_at_insert_eq; eauto. Qed.

Lemma erased_other i :
  i <> Z.to_nat pos -> buckets_ (erased s pos b) !! i = buckets_ s !! i.
Proof. intros Hne. simpl. apply list_lookup_insert_ne. congruence. Qed.

Lemma erased_path_nonempty idx j :
  path_nonempty s idx j -> path_nonempty (erased s pos b) idx j.
Proof.
  intros Hp i Hi. destruct (Hp i Hi) as (b' & Hb' & Hne).
  rewrite (probe_at_same_length s _ idx i erased_length).
  unfold bucket_at in *.
  destruct (Nat.eq_dec (Z.to_nat (probe_at s idx i)) (Z.to_nat pos)) as [-> | Hnp].
  - rewrite erased_at. eexists. split; [reflexivity | discriminate].
  - rewrite erased_other by assumption. eauto.
Qed.

Lemma erased_linked : linked (erased s pos b).
Proof.
  intros i bi Hi Hf. rewrite erased_length.
  destruct (Nat.eq_dec i (Z.to_nat pos)) as [-> | Hnp].
  - rewrite erased_at in Hi. injection Hi as <-. discriminate.
  - rewrite erased_other in Hi by assumption.
    destruct (wf_linked _ Hwf i bi Hi Hf) as (j & Hj & Hto & Hne).
    exists j.
    rewrite (bucket_index_same_length s _ (key bi) erased_length).
    rewrite (probe_at_same_length s _ _ j erased_length).
    repeat split; auto. now apply erased_path_nonempty.
Qed.

Lemma erased_unique : unique_keys (buckets_ (erased s pos b)).
Proof.
  intros i i' bi bi' Hi Hi' Hf Hf' Hk.
  destruct (Nat.eq_dec i (Z.to_nat pos)) as [-> | Hnp].
  { rewrite erased_at in Hi. injection Hi as <-. discriminate. }
  destruct (Nat.eq_dec i' (Z.to_nat pos)) as [-> | Hnp'].
  { rewrite erased_at in Hi'. injection Hi' as <-. discriminate. }
  rewrite erased_other in Hi, Hi' by assumption.
  now apply (wf_unique _ Hwf i i' bi bi').
Qed.

Lemma erased_counts :
  size_ (erased s pos b) = size_ s - 1 /\
  tombstones_ (erased s pos b) = tombstones_ s + 1 /\
  counted (erased s pos b).
Proof.
  destruct (wf_counted _ Hwf) as [Hsz Htb].
  pose proof (wf_max _ Hwf) as Hmax. unfold bucket_count in Hmax.
  pose proof (count_state_insert Filled _ _ b
                (mkBucket (key b) (value b) Deleted) Hb) as HcF.
  pose proof (count_state_insert Deleted _ _ b
                (mkBucket (key b) (value b) Deleted) Hb) as HcD.
  rewrite Hfi in HcF, HcD. simpl in HcF, HcD.
  pose proof (count_state_pos Filled _ _ b Hb Hfi) as Hpos.
  pose proof (count_state_bounds Filled (buckets_ s)) as HbF.
  pose proof (count_state_bounds Deleted (buckets_ s)) as HbD.
  pose proof (count_state_bounds Deleted
                (<[Z.to_nat pos := mkBucket (key b) (value b) Deleted]> (buckets_ s)))
    as HbD'.
  rewrite length_insert in HbD'.
  pose proof size_mod_val as Hm.
  assert (Hs : wrap (size_ s - 1) = size_ s - 1) by (apply wrap_small; lia).
  assert (Ht : wrap (tombstones_ s + 1) = tombstones_ s + 1)
    by (apply wrap_small; lia).
  unfold counted. simpl. rewrite Hs, Ht, HcF, HcD. lia.
Qed.

Lemma erased_holds k :
  keyeq_ (key b) k = true ->
  forall k' v',
    holds (erased s pos b) k' v' <-> keyeq_ k k' = false /\ holds s k' v'.
Proof.
  intros Hk k' v'. split.
  - intros (i & bi & Hi & Hf & Hki & Hv).
    destruct (Nat.eq_dec i (Z.to_nat pos)) as [-> | Hnp].
    { rewrite erased_at in Hi. injection Hi as <-. discriminate. }
    rewrite erased_other in Hi by assumption.
    split; [| exists i, bi; auto].
    destruct (keyeq_ k k') eqn:Hkk; [exfalso | reflexivity].
    apply Hnp. apply (wf_unique _ Hwf i (Z.to_nat pos) bi b); auto.
    apply keyeq_trans with k'; [exact Hki |].
    apply keyeq_sym. now apply keyeq_trans with k.
  - intros [Hkk (i & bi & Hi & Hf & Hki & Hv)].
    exists i, bi. repeat split; auto.
    rewrite erased_other; [exact Hi |].
    intros ->. unfold bucket_at in Hb.
    assert (bi = b) by congruence. subst bi.
    rewrite (keyeq_trans k (key b) k') in Hkk;
      [discriminate | now apply keyeq_sym | exact Hki].
Qed.

Lemma erased_well_formed : well_formed (erased s pos b).
Proof.
  constructor.
  - unfold pow2_storage, bucket_count. rewrite erased_length.
    destruct (wf_pow2 _ Hwf) as [Hnil | Hp]; [| now right].
    unfold bucket_at in Hb. rewrite Hnil in Hb. discriminate.
  - unfold bucket_count. rewrite erased_length. apply (wf_max _ Hwf).
  - apply erased_linked.
  - apply erased_unique.
  - apply erased_counts.
Qed.

End Erased.

Lemma div2_nonneg z : 0 <= z -> 0 <= z / 2.
Proof. intros H. apply Z.div_pos; lia. Qed.

Lemma erase_ok fuel s k r s' :
  well_formed s ->
  erase fuel k s = Ret r s' ->
  well_formed s' /\
  bucket_count s <= bucket_count s' /\
  max_load_factor_ s' = max_load_factor_ s /\
  (r = false -> s' = s /\ absent s k) /\
  (r = true ->
     (exists v, holds s k v) /\
     (forall k' v', holds s' k' v' <-> keyeq_ k k' = false /\ holds s k' v') /\
     tombstones_ s' <= bucket_count s' / 2).
Proof.
  intros Hwf H. apply erase_inv in H as [(Hnil & -> & ->) | Hr].
  { split; [exact Hwf |]. split; [lia |]. split; [reflexivity |].
    split; [| discriminate]. intros _. split; [reflexivity |].
    intros i b Hi. rewrite Hnil in Hi. discriminate. }
  destruct Hr as [j b Hj Hp Hb He | j b Hj Hp Hb Hfi Hk Hc
                  | j b s2 Hj Hp Hb Hfi Hk Hc Hrh].
  - split; [exact Hwf |]. split; [lia |]. split; [reflexivity |].
    split; [| discriminate]. intros _. split; [reflexivity |].
    eapply absent_of_probe; eauto. apply (wf_linked _ Hwf).
  - set (s1 := erased s (probe_at s (bucket_index s k) j) b) in *.
    split; [now apply erased_well_formed |].
    split; [unfold bucket_count, s1; rewrite erased_length; lia |].
    split; [reflexivity |]. split; [discriminate |]. intros _.
    split; [exists (value b), (Z.to_nat (probe_at s (bucket_index s k) j)), b; auto |].
    split; [now apply erased_holds |].
    unfold compacts in Hc. apply Z.ltb_ge in Hc. exact Hc.
  - set (s1 := erased s (probe_at s (bucket_index s k) j) b) in *.
    pose proof (erased_well_formed s _ b Hwf Hb Hfi) as Hwf1. fold s1 in Hwf1.
    destruct (rehash_rehash_ok fuel _ _ _ Hrh (wf_unique _ Hwf1))
      as (Hwf2 & Ht2 & Hh2 & Hm2 & Hlen2 & _).
    assert (Hlen1 : bucket_count s1 = bucket_count s).
    { unfold bucket_count, s1. rewrite erased_length. reflexivity. }
    assert (Hge : bucket_count s <= bucket_count s2).
    { pose proof (wf_max _ Hwf). rewrite Hlen1 in Hlen2.
      pose proof (rehash_len_ge (bucket_count s) ltac:(lia)). lia. }
    split; [exact Hwf2 |]. split; [exact Hge |].
    split; [rewrite Hm2; reflexivity |]. split; [discriminate |]. intros _.
    split; [exists (value b), (Z.to_nat (probe_at s (bucket_index s k) j)), b; auto |].
    split.
    + intros k' v'. rewrite Hh2. now apply erased_holds.
    + rewrite Ht2. apply div2_nonneg. unfold bucket_count. lia.
Qed.

(** ** The public operations preserve the invariants *)

Lemma insert_or_assign_inv fuel k v s ins pos s' :
  insert_or_assign_stable fuel k v s = Ret (ins, pos) s' ->
  insert_stable (rehash fuel) k v s = Ret (pos, ins) s'.
Proof.
  unfold insert_or_assign_stable, insert_stable_core. intros H.
  apply bind_Ret in H as ([pos' ins'] & s1 & Hi & Hret).
  injection Hret as <- <- <-. exact Hi.
Qed.

Lemma insert_or_assign_ok fuel k v s ins pos s' :
  insert_or_assign_stable fuel k v s = Ret (ins, pos) s' ->
  well_formed s ->
  well_formed s' /\
  (forall k' v',
     holds s' k' v' <->
     (keyeq_ k k' = true /\ v' = v) \/ (keyeq_ k k' = false /\ holds s k' v')) /\
  extends s s' /\
  (ins = true <-> absent s k) /\
  size_ s' = size_ s + Z.b2z ins.
Proof.
  intros H. apply insert_or_assign_inv in H.
  apply (insert_or_assign_impl_ok _ (rehash_rehash_ok fuel) _ _ _ _ _ _ H).
Qed.

Lemma well_formed_ext s s' :
  buckets_ s' = buckets_ s ->
  size_ s' = size_ s ->
  tombstones_ s' = tombstones_ s ->
  well_formed s -> well_formed s'.
Proof.
  intros Hb Hs Ht [Hp Hmax Hl Hu [Hc1 Hc2]].
  assert (Hlen : length (buckets_ s') = length (buckets_ s)) by (now rewrite Hb).
  constructor.
  - unfold pow2_storage, bucket_count in *. rewrite Hb. exact Hp.
  - unfold bucket_count in *. rewrite Hb. exact Hmax.
  - intros i b Hi Hfi. rewrite Hb in Hi.
    destruct (Hl i b Hi Hfi) as (j & Hj & Hto & Hne).
    exists j. rewrite Hlen, (bucket_index_same_length s s' _ Hlen),
                (probe_at_same_length s s' _ _ Hlen).
    repeat split; auto.
    intros t Ht'. destruct (Hne t Ht') as (b' & Hb' & Hn).
    exists b'. rewrite (probe_at_same_length s s' _ _ Hlen).
    unfold bucket_at in *. rewrite Hb. auto.
  - rewrite Hb. exact Hu.
  - unfold counted. rewrite Hb, Hs, Ht. auto.
Qed.

Lemma extends_tomb_bound s s' :
  extends s s' ->
  tombstones_ s <= bucket_count s / 2 ->
  tombstones_ s' <= bucket_count s' / 2.
Proof.
  intros (Hlen & _ & Ht) Hb.
  pose proof (Z.div_le_mono (bucket_count s) (bucket_count s') 2 ltac:(lia) Hlen).
  lia.
Qed.

Lemma store_written p v s s' :
  linked s ->
  store p v s = Ret tt s' ->
  exists b, bucket_at s p = Some b /\ state b = Filled /\
            written s s' (key b) v (Z.to_nat p) false b (mkBucket (key b) v Filled).
Proof.
  unfold store. intros Hl H.
  destruct (bucket_at s p) as [b |] eqn:Hb; [| discriminate].
  destruct (state b) eqn:Hst; try discriminate.
  injection H as <-. exists b. split; [reflexivity |]. split; [exact Hst |].
  destruct (Hl _ b Hb Hst) as (j & Hj & Hto & Hne).
  constructor; simpl; auto.
Qed.

Lemma count_state_cleared st (l : list Bucket) :
  st <> Empty ->
  count_state st (map (fun b => mkBucket (key b) (value b) Empty) l) = 0.
Proof.
  intros Hst. induction l as [| b l IH]; [reflexivity |].
  simpl map. rewrite count_state_cons, IH.
  destruct st; [contradiction | reflexivity | reflexivity].
Qed.

Lemma clear_ok s s' :
  well_formed s -> clear s = Ret tt s' ->
  well_formed s' /\ tombstones_ s' = 0 /\ size_ s' = 0 /\
  bucket_count s' = bucket_count s /\ (forall k, absent s' k).
Proof.
  unfold clear. intros Hwf H. injection H as <-.
  assert (Hlen : forall l : list Bucket,
             length (map (fun b => mkBucket (key b) (value b) Empty) l) = length l)
    by (intros l; apply length_map).
  assert (Hemp : forall (i : nat) (b : Bucket),
             map (fun b => mkBucket (key b) (value b) Empty) (buckets_ s) !! i
             = Some b -> state b = Empty).
  { intros i b Hi. rewrite list_lookup_fmap in Hi.
    destruct (buckets_ s !! i); simpl in Hi; [| discriminate].
    injection Hi as <-. reflexivity. }
  split; [| repeat split; simpl; auto].
  - constructor; simpl.
    + destruct (wf_pow2 _ Hwf) as [Hnil | Hp].
      * left. simpl. rewrite Hnil. reflexivity.
      * right. unfold bucket_count in *. simpl. rewrite Hlen. exact Hp.
    + unfold bucket_count. simpl. rewrite Hlen. apply (wf_max _ Hwf).
    + intros i b Hi Hfi. simpl in Hi. apply Hemp in Hi. congruence.
    + intros i i' b b' Hi _ Hfi. apply Hemp in Hi. congruence.
    + split; simpl; rewrite count_state_cleared; congruence.
  - unfold bucket_count. simpl. rewrite Hlen. reflexivity.
  - intros k i b Hi Hfi. simpl in Hi. apply Hemp in Hi. congruence.
Qed.

Lemma next_pow2_in_range n :
  0 <= n < size_mod ->
  next_pow2 n = 0 \/ (is_pow2 (next_pow2 n) /\ 2 <= next_pow2 n).
Proof.
  intros Hn. pose proof size_mod_val as Hm.
  destruct (Z_lt_le_dec n 2) as [Hlt | Hge].
  - right. unfold next_pow2. destruct (Z.ltb_spec n 2); [| lia].
    split; [exists 1; split; [lia | reflexivity] | lia].
  - rewrite next_pow2_value by lia.
    set (k := Z.log2 (n - 1)).
    assert (Hk0 : 0 <= k) by apply Z.log2_nonneg.
    assert (Hk64 : k < 64) by (apply Z.log2_lt_pow2; lia).
    destruct (Z.eq_dec (k + 1) 64) as [-> | Hne].
    + left. reflexivity.
    + right. rewrite wrap_small.
      * split; [exists (k + 1); split; [lia | reflexivity] |].
        change 2 with (2 ^ 1) at 1. apply Z.pow_le_mono_r; lia.
      * split; [apply Z.pow_nonneg; lia |].
        unfold size_mod, size_bits. apply Z.pow_lt_mono_r; lia.
Qed.

Lemma empty_storage_well_formed f : well_formed (mkMap [] 0 0 f).
Proof.
  constructor; simpl.
  - now left.
  - unfold bucket_count. simpl. lia.
  - intros i b Hi. discriminate.
  - intros i i' b b' Hi. discriminate.
  - split; reflexivity.
Qed.

Lemma make_ok n s :
  0 <= n < size_mod -> make n = Ret tt s ->
  well_formed s /\ tombstones_ s = 0.
Proof.
  unfold make. intros Hn H.
  destruct (Z.ltb_spec max_size (next_pow2 n)) as [Hbig | Hfit]; [discriminate |].
  destruct ((0 <? next_pow2 n) && negb (can_allocate (next_pow2 n)));
    [discriminate |].
  injection H as <-. split; [| reflexivity].
  destruct (next_pow2_in_range n Hn) as [-> | [Hp Hge]].
  - apply empty_storage_well_formed.
  - now apply fresh_well_formed.
Qed.

Lemma reserve_inv fuel n s s' :
  reserve fuel n s = Ret tt s' ->
  (bucket_count s < reserve_needed n s /\
   rehash fuel (reserve_needed n s) s = Ret tt s') \/
  (reserve_needed n s <= bucket_count s /\ s' = s).
Proof.
  unfold reserve. fold (reserve_needed n s). intros H.
  destruct (Z.ltb_spec (bucket_count s) (reserve_needed n s)) as [Hlt | Hge].
  - left. auto.
  - right. injection H as <-. auto.
Qed.

Lemma rehash_ok_tomb fuel n s s' :
  well_formed s -> rehash fuel n s = Ret tt s' ->
  well_formed s' /\ tombstones_ s' <= bucket_count s' / 2.
Proof.
  intros Hwf H.
  destruct (rehash_rehash_ok fuel _ _ _ H (wf_unique _ Hwf)) as (Hwf' & Ht & _).
  split; [exact Hwf' |]. rewrite Ht. apply div2_nonneg. unfold bucket_count. lia.
Qed.

Lemma exec_ok fuel o s s' :
  well_formed s ->
  tombstones_ s <= bucket_count s / 2 ->
  exec fuel o s = Ret tt s' ->
  well_formed s' /\ tombstones_ s' <= bucket_count s' / 2.
Proof.
  intros Hwf Hb H. destruct o as [k v | k | k | p v | k | | n | n | f]; simpl in H.
  - apply bind_Ret in H as ([ins pos] & s1 & Hi & Hret). injection Hret as <-.
    destruct (insert_or_assign_ok _ _ _ _ _ _ _ Hi Hwf) as (Hwf' & _ & Hext & _).
    split; [exact Hwf' | now apply extends_tomb_bound with s].
  - apply bind_Ret in H as (r & s1 & Hf & Hret). injection Hret as <-.
    apply find_inv in Hf as [-> _]. auto.
  - apply bind_Ret in H as (r & s1 & Hx & Hret). injection Hret as <-.
    unfold index_stable in Hx. apply bind_Ret in Hx as (q & s2 & Hf & Hx).
    apply find_inv in Hf as [-> _].
    destruct q as [i |].
    + injection Hx as <- <-. auto.
    + apply bind_Ret in Hx as ([ins pos] & s3 & Hi & Hret). injection Hret as <- <-.
      destruct (insert_or_assign_ok _ _ _ _ _ _ _ Hi Hwf) as (Hwf' & _ & Hext & _).
      split; [exact Hwf' | now apply extends_tomb_bound with s].
  - destruct (store_written _ _ _ _ (wf_linked _ Hwf) H) as (b & Hb0 & Hfi & W).
    split; [exact (written_well_formed _ _ _ _ _ _ _ _ W Hwf) |].
    rewrite (wr_tomb _ _ _ _ _ _ _ _ W). simpl.
    unfold bucket_count. rewrite (written_length _ _ _ _ _ _ _ _ W). exact Hb.
  - apply bind_Ret in H as (r & s1 & He & Hret). injection Hret as <-.
    destruct (erase_ok _ _ _ _ _ Hwf He) as (Hwf' & _ & _ & Hfalse & Htrue).
    split; [exact Hwf' |].
    destruct r.
    + apply Htrue. reflexivity.
    + destruct (Hfalse eq_refl) as [-> _]. exact Hb.
  - destruct (clear_ok _ _ Hwf H) as (Hwf' & Ht & _).
    split; [exact Hwf' |]. rewrite Ht. apply div2_nonneg. unfold bucket_count. lia.
  - apply reserve_inv in H as [[_ Hr] | [_ ->]]; [| auto].
    exact (rehash_ok_tomb _ _ _ _ Hwf Hr).
  - exact (rehash_ok_tomb _ _ _ _ Hwf H).
  - unfold set_max_load_factor in H.
    destruct (fle fl f (lit_0_1 fl) || fge fl f (lit_0_95 fl)); [discriminate |].
    assert (Hwf0 : well_formed (mkMap (buckets_ s) (size_ s) (tombstones_ s) f))
      by (apply (well_formed_ext s); auto).
    destruct (rehash_if_needed_ok _ (rehash_rehash_ok fuel) _ _ H Hwf0)
      as (Hwf' & _ & Hext & _).
    split; [exact Hwf' |].
    apply (extends_tomb_bound _ _ Hext). exact Hb.
Qed.

Lemma insert_probe_no_throw fuel k v idx fd s e s' :
  insert_probe fuel k v idx fd s <> Throw e s'.
Proof.
  revert idx fd. induction fuel as [| fuel IH]; intros idx fd; simpl; [discriminate |].
  destruct (bucket_at s idx) as [b |]; [| discriminate].
  destruct (state b).
  - destruct (bucket_at s (if fd =? npos then idx else fd)); discriminate.
  - destruct (keyeq_ (key b) k); [discriminate | apply IH].
  - apply IH.
Qed.

(** After a successful [erase k] on a well-formed table, a [find k] that
    returns reports [nullptr]; [size_] is one less; [tombstones_] is one
    more, or 0 when the erase compacted the table. *)
Lemma erase_then_find fuel k s s' :
  well_formed s ->
  erase fuel k s = Ret true s' ->
  (forall r s'', find k s' = Ret r s'' -> r = None) /\
  size_ s' = size_ s - 1 /\
  (tombstones_ s' = tombstones_ s + 1 \/
   (bucket_count s / 2 < tombstones_ s + 1 /\ tombstones_ s' = 0)).
Proof.
  intros Hwf H.
  destruct (erase_ok _ _ _ _ _ Hwf H) as (Hwf' & _ & _ & _ & Htrue).
  destruct (Htrue eq_refl) as (_ & Hh & _).
  split.
  - intros r s'' Hf. destruct r as [p |]; [exfalso | reflexivity].
    pose proof Hf as Hf'. apply find_inv in Hf' as [-> _].
    destruct (find_some_holds _ _ _ _ Hf) as (b & _ & _ & _ & Hb).
    apply Hh in Hb as [Hk _]. rewrite keyeq_refl in Hk. discriminate.
  - apply erase_inv in H as [(_ & Hf & _) | Hr]; [discriminate |].
    inversion Hr as [| j b Hj Hp Hb Hfi Hk Hcomp Heq
                     | j b s2 Hj Hp Hb Hfi Hk Hcomp Hrh Heq]; subst.
    + destruct (erased_counts s _ b Hwf Hb Hfi) as (Hs1 & Ht1 & _). auto.
    + destruct (erased_counts s _ b Hwf Hb Hfi) as (Hs1 & Ht1 & Hc1).
      pose proof (erased_well_formed s _ b Hwf Hb Hfi) as Hwf1.
      destruct (rehash_rehash_ok fuel _ _ _ Hrh (wf_unique _ Hwf1))
        as (_ & Ht2 & _ & _ & _ & Hs2).
      destruct Hc1 as [Hc1 _].
      split; [rewrite Hs2, <- Hc1; exact Hs1 |].
      right. split; [| exact Ht2].
      unfold compacts in Hcomp. apply Z.ltb_lt in Hcomp.
      rewrite Ht1 in Hcomp. unfold bucket_count in Hcomp at 1.
      rewrite erased_length in Hcomp. exact Hcomp.
Qed.

(** ** The probe budget

    The three loops are given as many iterations as there are buckets.  On
    power-of-two storage the probe sequence has that period, so a search
    that has not returned by then passes over the same buckets for ever:
    the outcome [Loops] stands for a call that does not return. *)

Lemma find_probe_loops_path fuel k s :
  forall idx, find_probe fuel k idx s = Loops -> path_passes s k idx fuel.
Proof.
  induction fuel as [| fuel IH]; intros idx H; [apply path_passes_0 |].
  simpl in H.
  destruct (bucket_at s idx) as [b |] eqn:Hb; [| discriminate].
  destruct (State_eqb (state b) Empty) eqn:He; [discriminate |].
  destruct (State_eqb (state b) Filled && keyeq_ (key b) k) eqn:Hm; [discriminate |].
  specialize (IH _ H).
  intros i Hi. destruct i as [| i].
  - exists b. split; [exact Hb | now apply passes_intro].
  - apply (IH i). lia.
Qed.

Lemma probes_loop_forever k s n :
  forall idx,
    (forall j, path_passes s k idx j) ->
    find_probe n k idx s = Loops /\
    (forall v fd, insert_probe n k v idx fd s = Loops) /\
    (forall rfuel, erase_probe rfuel n k idx s = Loops).
Proof.
  induction n as [| n IH]; intros idx Hall; [repeat split |].
  destruct (Hall 1%nat O ltac:(lia)) as (b & Hb & Hpass). simpl in Hb.
  pose proof Hpass as Hpass'. apply passes_elim in Hpass' as [He Hm].
  destruct (IH (next_idx s idx)) as (IHf & IHi & IHe).
  { intros j. apply path_passes_tail, Hall. }
  split; [| split].
  - simpl. rewrite Hb, He, Hm. exact IHf.
  - intros v fd. simpl. rewrite Hb.
    destruct (state b) eqn:Hst.
    + simpl in He. discriminate.
    + simpl in Hm. rewrite Hm. apply IHi.
    + apply IHi.
  - intros rfuel. rewrite erase_probe_S, Hb, He, Hm. apply IHe.
Qed.

Lemma next_idx_mod s idx :
  is_pow2 (bucket_count s) -> bucket_count s < size_mod ->
  next_idx s idx = (idx + 1) mod bucket_count s.
Proof.
  intros (m & Hm & Hlen) Hlt. unfold next_idx, mask.
  assert (Hpos : 0 < 2 ^ m) by (apply Z.pow_pos_nonneg; lia).
  rewrite wrap_small by lia.
  rewrite Hlen. rewrite <- Z.land_ones by exact Hm.
  rewrite Z.ones_equiv. reflexivity.
Qed.

Lemma probe_at_mod s :
  is_pow2 (bucket_count s) -> bucket_count s < size_mod ->
  forall j idx,
    0 <= idx < bucket_count s ->
    probe_at s idx j = (idx + Z.of_nat j) mod bucket_count s.
Proof.
  intros Hp Hlt. induction j as [| j IH]; intros idx Hidx.
  - simpl. rewrite Z.add_0_r, Z.mod_small; [reflexivity | exact Hidx].
  - change (probe_at s idx (S j)) with (probe_at s (next_idx s idx) j).
    rewrite (next_idx_mod s idx Hp Hlt).
    rewrite IH by (apply Z.mod_pos_bound; lia).
    rewrite Zplus_mod_idemp_l. f_equal. lia.
Qed.

Lemma path_passes_period s k idx :
  is_pow2 (bucket_count s) -> bucket_count s < size_mod ->
  0 <= idx < bucket_count s ->
  path_passes s k idx (length (buckets_ s)) ->
  forall j, path_passes s k idx j.
Proof.
  intros Hp Hlt Hidx Hturn j i _.
  assert (Hlen : 0 < bucket_count s) by lia.
  pose proof (Z.mod_pos_bound (Z.of_nat i) (bucket_count s) Hlen) as Hr.
  destruct (Hturn (Z.to_nat (Z.of_nat i mod bucket_count s))) as (b & Hb & Hpass).
  { unfold bucket_count in *. lia. }
  exists b. split; [| exact Hpass].
  rewrite (probe_at_mod s Hp Hlt _ idx Hidx) in Hb.
  rewrite (probe_at_mod s Hp Hlt _ idx Hidx).
  rewrite Z2Nat.id in Hb by lia.
  rewrite Zplus_mod_idemp_r in Hb. exact Hb.
Qed.

Lemma bucket_index_range s k :
  is_pow2 (bucket_count s) -> bucket_count s < size_mod ->
  0 <= bucket_index s k < bucket_count s.
Proof.
  intros (m & Hm & Hlen) Hlt. unfold bucket_index, mask.
  assert (Hpos : 0 < 2 ^ m) by (apply Z.pow_pos_nonneg; lia).
  rewrite wrap_small by lia.
  rewrite Hlen.
  replace (2 ^ m - 1) with (Z.ones m) by (rewrite Z.ones_equiv; unfold Z.pred; lia).
  rewrite Z.land_ones by exact Hm.
  apply Z.mod_pos_bound. exact Hpos.
Qed.

(** A [find] that used up its budget on a well-formed table does not return
    with any larger budget either, nor do an insertion probe or an erasing
    probe for the same key. *)
Lemma find_loops_forever s k :
  well_formed s ->
  find k s = Loops ->
  forall n,
    find_probe n k (bucket_index s k) s = Loops /\
    (forall v fd, insert_probe n k v (bucket_index s k) fd s = Loops) /\
    (forall rfuel, erase_probe rfuel n k (bucket_index s k) s = Loops).
Proof.
  intros Hwf H n. unfold find in H.
  destruct (buckets_empty s) eqn:He; [discriminate |].
  destruct (wf_pow2 _ Hwf) as [Hnil | [Hp2 _]].
  { apply buckets_empty_nil in Hnil. congruence. }
  assert (Hlt : bucket_count s < size_mod).
  { pose proof (wf_max _ Hwf). rewrite size_mod_val. lia. }
  apply probes_loop_forever.
  apply path_passes_period; auto.
  - now apply bucket_index_range.
  - now apply find_probe_loops_path.
Qed.

(** ** Setting the load factor bound *)

Lemma set_max_load_factor_spec fuel f s :
  (fle fl f (lit_0_1 fl) || fge fl f (lit_0_95 fl) = true ->
     set_max_load_factor fuel f s = Throw invalid_argument s) /\
  (fle fl f (lit_0_1 fl) || fge fl f (lit_0_95 fl) = false ->
     set_max_load_factor fuel f s =
     rehash_if_needed (rehash fuel)
       (mkMap (buckets_ s) (size_ s) (tombstones_ s) f)).
Proof.
  unfold set_max_load_factor.
  split; intros H; rewrite H; reflexivity.
Qed.

Lemma reinsert_throw rh old :
  (forall n s e s', rh n s = Throw e s' -> e <> invalid_argument) ->
  forall acc e s', reinsert rh old acc = Throw e s' -> e <> invalid_argument.
Proof.
  intros Hrh. induction old as [| b rest IH]; intros acc e s' H;
    [simpl in H | rewrite reinsert_cons in H].
  - discriminate.
  - destruct (state b); try (now apply (IH acc e s')).
    unfold insert_stable, rehash_if_needed in H.
    destruct (buckets_empty acc || fgt fl (current_load acc) (max_load_factor_ acc)).
    + destruct (rh _ acc) as [[] s1 | e1 s1 | | |] eqn:Hr; simpl in H;
        try discriminate.
      * destruct (insert_probe _ _ _ _ _ s1) as [[pos ins] s2 | e2 s2 | | |] eqn:Hi;
          simpl in H; try discriminate.
        -- now apply (IH s2 e s').
        -- apply insert_probe_no_throw in Hi. contradiction.
      * injection H as <- <-. exact (Hrh _ _ _ _ Hr).
    + simpl in H.
      destruct (insert_probe _ _ _ _ _ acc) as [[pos ins] s2 | e2 s2 | | |] eqn:Hi;
        simpl in H; try discriminate.
      * now apply (IH s2 e s').
      * apply insert_probe_no_throw in Hi. contradiction.
Qed.

(** [rehash] raises only the exceptions of the vector. *)
Lemma rehash_throw fuel :
  forall n s e s', rehash fuel n s = Throw e s' -> e <> invalid_argument.
Proof.
  induction fuel as [| fuel IH]; intros n s e s' H; [discriminate |].
  rewrite rehash_S in H.
  destruct (max_size <? rehash_len n).
  - injection H as <- _. discriminate.
  - destruct (can_allocate (rehash_len n)); simpl in H.
    + exact (reinsert_throw _ _ IH _ _ _ H).
    + injection H as <- _. discriminate.
Qed.

(** [max_load_factor(f)] throws [invalid_argument] exactly when its guard is
    true, and then leaves the table as it was. *)
Lemma set_max_load_factor_invalid fuel f s s' :
  set_max_load_factor fuel f s = Throw invalid_argument s' <->
  fle fl f (lit_0_1 fl) || fge fl f (lit_0_95 fl) = true /\ s' = s.
Proof.
  destruct (set_max_load_factor_spec fuel f s) as [Hrej Hacc].
  destruct (fle fl f (lit_0_1 fl) || fge fl f (lit_0_95 fl)) eqn:Hg.
  - rewrite (Hrej eq_refl). split.
    + intros H. injection H as <-. auto.
    + intros [_ ->]. reflexivity.
  - rewrite (Hacc eq_refl). split; [| intros [? _]; discriminate].
    unfold rehash_if_needed.
    destruct (buckets_empty _ || fgt fl _ _); [| discriminate].
    intros H. apply rehash_throw in H. now destruct H.
Qed.

(** ** Properties of the public operations *)

(** C9.  On a table whose storage has length 0, [find] answers [nullptr]
    and [erase] answers [false]; neither fails, and neither result depends on
    the hash function, which is not applied to the empty storage. *)
Theorem find_erase_empty_storage (fuel : nat) (k : Key) (s : flat_unordered_map) :
  buckets_ s = [] ->
  find k s = Ret None s /\ erase fuel k s = Ret false s.
Proof.
  intros Hnil. apply buckets_empty_nil in Hnil.
  unfold find, erase. rewrite Hnil. split; reflexivity.
Qed.

Lemma passes_deleted k b : state b = Deleted -> passes k b = true.
Proof. intros H. unfold passes. rewrite H. reflexivity. Qed.

Lemma find_probe_no_throw fuel k idx s e s' :
  find_probe fuel k idx s <> Throw e s'.
Proof.
  revert idx. induction fuel as [| fuel IH]; intros idx; simpl; [discriminate |].
  destruct (bucket_at s idx) as [b |]; [| discriminate].
  destruct (State_eqb (state b) Empty); [discriminate |].
  destruct (State_eqb (state b) Filled && keyeq_ (key b) k); [discriminate |].
  apply IH.
Qed.

(** C8.  [find] never changes the table and never throws.  On non-empty
    storage it answers exactly what the walk from [bucket_index k] decides:
    [nullptr] at the first Empty slot, the slot of the first Filled bucket
    with an equal key (whose value the pointer reads), every bucket before
    it being passed over; a Deleted bucket is always passed over. *)
Theorem find_walks_probe_sequence (k : Key) (s : flat_unordered_map) :
  (forall r s', find k s = Ret r s' -> s' = s) /\
  (forall e s', find k s <> Throw e s') /\
  (buckets_ s <> [] ->
   forall r, find k s = Ret r s <->
             find_result s k (bucket_index s k) (length (buckets_ s)) r) /\
  (forall b, state b = Deleted -> passes k b = true) /\
  (forall p, find k s = Ret (Some p) s ->
     exists b, bucket_at s p = Some b /\ state b = Filled /\
               keyeq_ (key b) k = true /\ deref s (Some p) = Some (value b)).
Proof.
  split; [| split; [| split; [| split]]].
  - intros r s' H. now apply find_inv in H as [-> _].
  - intros e s'. unfold find.
    destruct (buckets_empty s); [discriminate | apply find_probe_no_throw].
  - intros Hne r. split.
    + intros H. apply find_inv in H as [_ [[Hnil _] | Hr]]; [contradiction | exact Hr].
    + intros Hr. rewrite find_unfold; [now apply find_probe_complete |].
      apply not_true_is_false. now rewrite buckets_empty_nil.
  - intros b. apply passes_deleted.
  - intros p H. destruct (find_some_holds _ _ _ _ H) as (b & Hb & Hfi & Hk & _).
    exists b. repeat split; auto. simpl. rewrite Hb. reflexivity.
Qed.

Lemma next_pow2_smallest n p :
  0 <= n <= 2 ^ 63 ->
  is_pow2 (next_pow2 n) /\ 2 <= next_pow2 n /\ n <= next_pow2 n /\
  (is_pow2 p -> 2 <= p -> n <= p -> next_pow2 n <= p).
Proof.
  intros Hn. destruct (Z_lt_le_dec n 2) as [Hlt | Hge].
  - assert (H2 : next_pow2 n = 2).
    { unfold next_pow2. destruct (Z.ltb_spec n 2); [reflexivity | lia]. }
    rewrite H2. split; [exists 1; split; [lia | reflexivity] |].
    repeat split; lia.
  - rewrite next_pow2_log2_up by lia.
    pose proof (Z.log2_up_spec n ltac:(lia)) as [Hlo Hup].
    pose proof (Z.log2_up_pos n ltac:(lia)) as Hpos.
    split; [exists (Z.log2_up n); split; [lia | reflexivity] |].
    split; [change 2 with (2 ^ 1) at 1; apply Z.pow_le_mono_r; lia |].
    split; [exact Hup |].
    intros (j & Hj & ->) _ Hle.
    apply Z.pow_le_mono_r; [lia |].
    apply Z.log2_up_le_pow2; lia.
Qed.

(** C3, amended.  [reserve n] leaves the table alone when the bucket count
    already reaches [static_cast<size_type>(n / max_load_factor_) + 1], the
    quotient being truncated, not rounded up; otherwise it rehashes, and
    the new bucket count is a power of two no smaller than that number
    rounded up by [next_pow2], hence no smaller than the number itself when
    it does not exceed [2^63]. *)
Theorem reserve_capacity (fuel : nat) (n : Z) (s s' : flat_unordered_map) :
  well_formed s ->
  reserve fuel n s = Ret tt s' ->
  (reserve_needed n s <= bucket_count s -> s' = s) /\
  (bucket_count s < reserve_needed n s ->
     rehash fuel (reserve_needed n s) s = Ret tt s' /\
     rehash_len (reserve_needed n s) <= bucket_count s' /\
     is_pow2 (bucket_count s') /\
     (reserve_needed n s <= 2 ^ 63 -> reserve_needed n s <= bucket_count s')).
Proof.
  intros Hwf H. apply reserve_inv in H as [[Hlt Hr] | [Hge ->]].
  - split; [lia |]. intros _.
    destruct (rehash_rehash_ok fuel _ _ _ Hr (wf_unique _ Hwf))
      as (Hwf' & _ & _ & _ & Hlen & _).
    destruct (rehash_len_pow2 (reserve_needed n s)) as [_ H2].
    split; [exact Hr |]. split; [exact Hlen |]. split.
    + destruct (wf_pow2 _ Hwf') as [Hnil | [Hp _]]; [| exact Hp].
      unfold bucket_count in Hlen. rewrite Hnil in Hlen. simpl in Hlen. lia.
    + intros Hsmall. pose proof (rehash_len_ge _ Hsmall). lia.
  - split; [reflexivity | lia].
Qed.

Lemma insert_impl_load_bound rh k v s s' ins pos :
  rehash_ok rh ->
  well_formed s ->
  insert_stable rh k v s = Ret (pos, ins) s' ->
  max_load_factor_ s' = max_load_factor_ s /\
  if buckets_empty s || fgt fl (current_load s) (max_load_factor_ s)
  then tombstones_ s' = 0 /\ 2 * (size_ s' - 1) <= bucket_count s'
  else fgt fl (current_load s) (max_load_factor_ s) = false /\
       bucket_count s' = bucket_count s /\
       size_ s' + tombstones_ s' <= size_ s + tombstones_ s + 1 /\
       size_ s + tombstones_ s <= size_ s' + tombstones_ s'.
Proof.
  intros rh_ok Hwf H.
  unfold insert_stable in H.
  apply bind_Ret in H as ([] & s1 & Hr & Hi).
  destruct (rehash_if_needed_ok _ rh_ok _ _ Hr Hwf)
    as (Hwf1 & _ & (_ & Hm1 & _) & _).
  apply insert_probe_spec in Hi.
  destruct (insert_result_written _ _ _ _ _ _ (wf_linked _ Hwf1) Hi)
    as (ob & nb & W).
  pose proof (written_size _ _ _ _ _ _ _ _ W (wf_max _ Hwf1) (wf_counted _ Hwf1))
    as Hsz.
  pose proof (written_tomb_le _ _ _ _ _ _ _ _ W (wf_counted _ Hwf1)) as Htb.
  pose proof (written_length _ _ _ _ _ _ _ _ W) as Hlen.
  pose proof (counted_tomb_nonneg _
                (wf_counted _ (written_well_formed _ _ _ _ _ _ _ _ W Hwf1)))
    as Hnn.
  split; [rewrite (wr_mlf _ _ _ _ _ _ _ _ W); exact Hm1 |].
  unfold rehash_if_needed in Hr.
  destruct (buckets_empty s || fgt fl (current_load s) (max_load_factor_ s)) eqn:Hc.
  - destruct (rh_ok _ _ _ Hr (wf_unique _ Hwf))
      as (_ & Ht1 & _ & _ & Hl1 & Hs1).
    split; [lia |].
    assert (Hb : Z.b2z ins <= 1) by (destruct ins; simpl; lia).
    pose proof (count_state_bounds Filled (buckets_ s)) as Hcnt.
    unfold bucket_count in *. rewrite Hlen.
    destruct (buckets_empty s) eqn:He.
    + apply buckets_empty_nil in He. rewrite He in Hs1, Hcnt. simpl in Hcnt.
      rewrite count_state_nil in Hs1. lia.
    + destruct (wf_pow2 _ Hwf) as [Hnil | [Hp2 _]].
      { apply buckets_empty_nil in Hnil. congruence. }
      pose proof (wf_max _ Hwf) as Hmax. unfold bucket_count in Hmax, Hp2.
      pose proof (pow2_double_bound _ Hp2 ltac:(lia)) as Hdb.
      rewrite wrap_small in Hl1 by (rewrite size_mod_val; split; lia).
      pose proof (rehash_len_ge _ Hdb). lia.
  - injection Hr as <-. apply orb_false_iff in Hc as [_ Hc].
    split; [exact Hc |]. unfold bucket_count. rewrite Hlen.
    split; [reflexivity |].
    assert (Hb : Z.b2z ins <= 1) by (destruct ins; simpl; lia).
    assert (Hb0 : 0 <= Z.b2z ins) by (destruct ins; simpl; lia).
    rewrite Hsz, (wr_tomb _ _ _ _ _ _ _ _ W).
    destruct (wr_case _ _ _ _ _ _ _ _ W) as [(-> & _) | (-> & _)]; simpl.
    + lia.
    + pose proof (wr_old _ _ _ _ _ _ _ _ W) as Hob.
      destruct (State_eqb (state ob) Deleted) eqn:Hd; [| lia].
      apply State_eqb_eq in Hd.
      pose proof (count_state_pos Deleted _ _ ob Hob Hd) as Hpos.
      destruct (wf_counted _ Hwf) as [_ Hct].
      rewrite wrap_small; [lia |].
      pose proof (count_state_bounds Deleted (buckets_ s)) as HbD.
      pose proof (wf_max _ Hwf) as Hmax. unfold bucket_count in Hmax.
      rewrite size_mod_val. lia.
Qed.

(** ** Arguments that refer into the vector *)

Lemma rehash_if_needed_quiet rh s :
  buckets_empty s || fgt fl (current_load s) (max_load_factor_ s) = false ->
  rehash_if_needed rh s = Ret tt s.
Proof. intros H. unfold rehash_if_needed. rewrite H. reflexivity. Qed.

(** Without a rehash the call is the one on the values referred to. *)
Lemma insert_impl_no_growth rh rk rv s :
  buckets_empty s || fgt fl (current_load s) (max_load_factor_ s) = false ->
  insert_or_assign_impl rh rk rv s =
  match read_arg s rk, read_arg s rv with
  | Some k, Some v => insert_stable rh k v s
  | _, _ => Undefined
  end.
Proof.
  intros H. unfold insert_or_assign_impl, insert_stable. cbv zeta.
  rewrite (rehash_if_needed_quiet rh s H), H, andb_false_r. simpl.
  destruct (read_arg s rk), (read_arg s rv); reflexivity.
Qed.

(** With a rehash the call is defined only for arguments outside the
    vector. *)
Lemma insert_impl_dangling rh rk rv s :
  buckets_empty s || fgt fl (current_load s) (max_load_factor_ s) = true ->
  is_outside rk && is_outside rv = false ->
  insert_or_assign_impl rh rk rv s =
  bind (rehash_if_needed rh s) (fun _ _ => Undefined).
Proof.
  intros Hg Ho. unfold insert_or_assign_impl. cbv zeta. rewrite Hg, Ho. reflexivity.
Qed.

Lemma insert_impl_by_reference rh rk rv s r s' :
  insert_or_assign_impl rh rk rv s = Ret r s' ->
  exists k v, read_arg s rk = Some k /\ read_arg s rv = Some v /\
              insert_stable rh k v s = Ret r s'.
Proof.
  intros H.
  destruct (buckets_empty s || fgt fl (current_load s) (max_load_factor_ s)) eqn:Hg.
  - destruct (is_outside rk && is_outside rv) eqn:Ho.
    + destruct rk as [k | i f]; [| discriminate].
      destruct rv as [v | j g]; [| discriminate].
      exists k, v. auto.
    + rewrite (insert_impl_dangling _ _ _ _ Hg Ho) in H.
      destruct (rehash_if_needed rh s); discriminate.
  - rewrite (insert_impl_no_growth _ _ _ _ Hg) in H.
    destruct (read_arg s rk) as [k |]; [| discriminate].
    destruct (read_arg s rv) as [v |]; [| discriminate].
    eauto.
Qed.


(** A call of [insert_or_assign] that returns is the call on the values its
    arguments referred to. *)
Lemma insert_or_assign_by_reference fuel rk rv s r s' :
  insert_or_assign fuel rk rv s = Ret r s' ->
  exists k v, read_arg s rk = Some k /\ read_arg s rv = Some v /\
              insert_or_assign_stable fuel k v s = Ret r s'.
Proof.
  unfold insert_or_assign. intros H.
  apply bind_Ret in H as ([pos ins] & s1 & Hi & H).
  destruct (insert_impl_by_reference _ _ _ _ _ _ Hi) as (k & v & Hk & Hv & Hs).
  exists k, v. split; [exact Hk |]. split; [exact Hv |].
  unfold insert_or_assign_stable, insert_stable_core. rewrite Hs. exact H.
Qed.

(** A call of [operator[]] that returns is the call on the key its argument
    referred to. *)
Lemma index_by_reference fuel rk s p s' :
  index fuel rk s = Ret p s' ->
  exists k, read_arg s rk = Some k /\ index_stable fuel k s = Ret p s'.
Proof.
  unfold index, index_stable. intros H.
  destruct (read_arg s rk) as [k |] eqn:Hk; [| discriminate].
  exists k. split; [reflexivity |].
  apply bind_Ret in H as (q & s1 & Hf & H). rewrite Hf. simpl.
  destruct q as [i |]; [exact H |].
  apply find_inv in Hf as [-> _].
  apply bind_Ret in H as ([ins ptr] & s2 & Hi & H).
  destruct (insert_or_assign_by_reference _ _ _ _ _ _ Hi) as (k0 & v0 & Hk0 & Hv0 & Hs).
  simpl in Hv0. injection Hv0 as <-. rewrite Hk in Hk0. injection Hk0 as <-.
  rewrite Hs. exact H.
Qed.

(** C1, amended.  After [insert_or_assign] returns on a well-formed table:
    when its growth check did not rehash, the load the check saw was not
    greater than [max_load_factor_], the bucket count is unchanged and
    [size_ + tombstones_] has grown by at most one; when the check did
    rehash, no tombstone is left and all entries but the new one fill at
    most half of the buckets. *)
Theorem insert_load_bound (fuel : nat) (k : arg Key) (v : arg T)
    (s s' : flat_unordered_map) (ins : bool) (pos : Z) :
  well_formed s ->
  insert_or_assign fuel k v s = Ret (ins, pos) s' ->
  max_load_factor_ s' = max_load_factor_ s /\
  if buckets_empty s || fgt fl (current_load s) (max_load_factor_ s)
  then tombstones_ s' = 0 /\ 2 * (size_ s' - 1) <= bucket_count s'
  else fgt fl (current_load s) (max_load_factor_ s) = false /\
       bucket_count s' = bucket_count s /\
       size_ s' + tombstones_ s' <= size_ s + tombstones_ s + 1.
Proof.
  intros Hwf H.
  apply insert_or_assign_by_reference in H as (k0 & v0 & _ & _ & H).
  apply insert_or_assign_inv in H.
  destruct (insert_impl_load_bound _ _ _ _ _ _ _ (rehash_rehash_ok fuel) Hwf H)
    as [Hm Hb].
  split; [exact Hm |].
  destruct (buckets_empty s || fgt fl (current_load s) (max_load_factor_ s));
    [exact Hb | tauto].
Qed.

Lemma holds_absent s k v : holds s k v -> absent s k -> False.
Proof. intros Hh Ha. apply (proj1 (absent_holds s k) Ha v Hh). Qed.




Lemma bind_Throw {A B : Type} (m : M A) (f : A -> flat_unordered_map -> M B) e s' :
  bind m f = Throw e s' ->
  m = Throw e s' \/ exists a s1, m = Ret a s1 /\ f a s1 = Throw e s'.
Proof.
  destruct m as [a s1 | e1 s1 | | |]; simpl; intros H; try discriminate.
  - right. exists a, s1. split; [reflexivity | exact H].
  - left. injection H as -> ->. reflexivity.
Qed.

Lemma find_no_throw k s e s' : find k s <> Throw e s'.
Proof.
  unfold find. destruct (buckets_empty s); [discriminate |].
  apply find_probe_no_throw.
Qed.

(** What a throwing [rehash] leaves: the exception is the vector's and the
    storage was moved from, so it is empty. *)
Definition moved_from (e : exn) (s : flat_unordered_map) : Prop :=
  (e = length_error \/ e = bad_alloc) /\ buckets_ s = [].

Lemma rehash_if_needed_moved rh s e s' :
  (forall n s e s', rh n s = Throw e s' -> moved_from e s') ->
  rehash_if_needed rh s = Throw e s' -> moved_from e s'.
Proof.
  intros Hrh. unfold rehash_if_needed.
  destruct (buckets_empty s || fgt fl (current_load s) (max_load_factor_ s));
    [apply Hrh | discriminate].
Qed.

Lemma insert_impl_moved rh k v s e s' :
  (forall n s e s', rh n s = Throw e s' -> moved_from e s') ->
  insert_stable rh k v s = Throw e s' -> moved_from e s'.
Proof.
  intros Hrh H. unfold insert_stable in H.
  apply bind_Throw in H as [H | ([] & s1 & _ & H)].
  - exact (rehash_if_needed_moved _ _ _ _ Hrh H).
  - apply insert_probe_no_throw in H. contradiction.
Qed.

Lemma reinsert_moved rh old :
  (forall n s e s', rh n s = Throw e s' -> moved_from e s') ->
  forall acc e s', reinsert rh old acc = Throw e s' -> moved_from e s'.
Proof.
  intros Hrh. induction old as [| b rest IH]; intros acc e s' H; simpl in H.
  - discriminate.
  - destruct (state b); try (now apply (IH acc e s')).
    apply bind_Throw in H as [H | (a & s1 & _ & H)].
    + exact (insert_impl_moved _ _ _ _ _ _ Hrh H).
    + now apply (IH s1 e s').
Qed.

Lemma rehash_moved fuel :
  forall n s e s', rehash fuel n s = Throw e s' -> moved_from e s'.
Proof.
  induction fuel as [| fuel IH]; intros n s e s' H; [discriminate |].
  rewrite rehash_S in H.
  destruct (max_size <? rehash_len n).
  - injection H as <- <-. split; [now left | reflexivity].
  - destruct (can_allocate (rehash_len n)); simpl in H.
    + exact (reinsert_moved _ _ IH _ _ _ H).
    + injection H as <- <-. split; [now right | reflexivity].
Qed.

Lemma erase_probe_moved rfuel k s e s' :
  forall fuel idx, erase_probe rfuel fuel k idx s = Throw e s' -> moved_from e s'.
Proof.
  induction fuel as [| fuel IH]; intros idx H; [discriminate |].
  rewrite erase_probe_S in H.
  destruct (bucket_at s idx) as [b |]; [| discriminate].
  destruct (State_eqb (state b) Empty); [discriminate |].
  destruct (State_eqb (state b) Filled && keyeq_ (key b) k).
  - destruct (compacts (erased s idx b)); [| discriminate].
    apply bind_Throw in H as [H | (a & s1 & _ & H)]; [| discriminate].
    exact (rehash_moved _ _ _ _ _ H).
  - exact (IH _ H).
Qed.

Lemma insert_or_assign_moved fuel k v s e s' :
  insert_or_assign_stable fuel k v s = Throw e s' -> moved_from e s'.
Proof.
  intros H. unfold insert_or_assign_stable, insert_stable_core in H.
  apply bind_Throw in H as [H | ([pos ins] & s1 & _ & H)]; [| discriminate].
  exact (insert_impl_moved _ _ _ _ _ _ (rehash_moved fuel) H).
Qed.

(** A call that throws either was refused and changed nothing, or leaves
    the table without buckets. *)
Lemma exec_throw_storage fuel o s e s' :
  exec fuel o s = Throw e s' ->
  (e = invalid_argument /\ s' = s) \/ (e <> invalid_argument /\ buckets_ s' = []).
Proof.
  intros H.
  assert (Hm : moved_from e s' ->
               (e = invalid_argument /\ s' = s) \/
               (e <> invalid_argument /\ buckets_ s' = [])).
  { intros [[-> | ->] Hb]; right; (split; [discriminate | exact Hb]). }
  destruct o as [k v | k | k | p v | k | | n | n | f]; simpl in H.
  - apply Hm.
    apply bind_Throw in H as [H | (a & s1 & _ & H)]; [| discriminate].
    exact (insert_or_assign_moved _ _ _ _ _ _ H).
  - apply bind_Throw in H as [H | (a & s1 & _ & H)]; [| discriminate].
    apply find_no_throw in H. contradiction.
  - apply Hm.
    apply bind_Throw in H as [H | (a & s1 & _ & H)]; [| discriminate].
    rewrite index_outside in H. unfold index_stable in H.
    apply bind_Throw in H as [H | (q & s1 & _ & H)].
    + apply find_no_throw in H. contradiction.
    + destruct q as [i |]; [discriminate |].
      apply bind_Throw in H as [H | ([ins ptr] & s2 & _ & H)]; [| discriminate].
      exact (insert_or_assign_moved _ _ _ _ _ _ H).
  - unfold store in H. destruct (bucket_at s p) as [b |]; [| discriminate].
    destruct (state b); discriminate.
  - apply Hm.
    apply bind_Throw in H as [H | (a & s1 & _ & H)]; [| discriminate].
    unfold erase in H. destruct (buckets_empty s); [discriminate |].
    exact (erase_probe_moved _ _ _ _ _ _ _ H).
  - discriminate.
  - apply Hm. unfold reserve in H. destruct (bucket_count s <? _); [| discriminate].
    exact (rehash_moved _ _ _ _ _ H).
  - apply Hm. exact (rehash_moved _ _ _ _ _ H).
  - destruct (set_max_load_factor_spec fuel f s) as [Hrej Hacc].
    destruct (fle fl f (lit_0_1 fl) || fge fl f (lit_0_95 fl)) eqn:Hg.
    + left. rewrite (Hrej eq_refl) in H. injection H as <- <-. auto.
    + apply Hm. rewrite (Hacc eq_refl) in H.
      exact (rehash_if_needed_moved _ _ _ _ (rehash_moved fuel) H).
Qed.



(** ** Tables left by a throwing call *)

(** [rehash] reads the buckets and the load factor bound of the table, not
    its counters. *)
Lemma rehash_same fuel n s t s' :
  buckets_ s = buckets_ t -> max_load_factor_ s = max_load_factor_ t ->
  rehash fuel n s = Ret tt s' -> rehash fuel n t = Ret tt s'.
Proof.
  intros Hb Hm. destruct fuel as [| fuel]; [discriminate |].
  rewrite !rehash_S, Hb, Hm.
  destruct (max_size <? rehash_len n); [discriminate |].
  destruct (negb (can_allocate (rehash_len n))); [discriminate | auto].
Qed.

Lemma insert_stable_emptied fuel k v s r s' :
  buckets_ s = [] ->
  insert_or_assign_stable fuel k v s = Ret r s' ->
  insert_or_assign_stable fuel k v (mkMap [] 0 0 (max_load_factor_ s)) = Ret r s'.
Proof.
  intros Hb H.
  unfold insert_or_assign_stable, insert_stable_core, insert_stable,
    rehash_if_needed, buckets_empty in *.
  rewrite Hb in H. simpl in *.
  apply bind_Ret in H as ([pos ins] & s1 & H1 & H2).
  apply bind_Ret in H1 as ([] & s2 & Hr & Hp).
  rewrite (rehash_same fuel 16 s (mkMap [] 0 0 (max_load_factor_ s)) s2 Hb eq_refl Hr).
  simpl. rewrite Hp. exact H2.
Qed.

Lemma find_emptied k s : buckets_ s = [] -> find k s = Ret None s.
Proof. intros Hb. unfold find, buckets_empty. rewrite Hb. reflexivity. Qed.


Lemma rehash_len_pow2_id n :
  is_pow2 n -> 2 <= n -> n <= 2 ^ 63 -> rehash_len n = n.
Proof.
  intros (j & Hj & ->) H2 H63. unfold rehash_len.
  rewrite next_pow2_log2_up by lia.
  rewrite Z.log2_up_pow2 by lia.
  destruct (Z.ltb_spec (2 ^ j) 2); [lia | reflexivity].
Qed.

Lemma reinsert_disjoint_step (acc acc' : flat_unordered_map) b rest :
  (forall k' v',
     holds acc' k' v' <->
     (keyeq_ (key b) k' = true /\ v' = value b) \/
     (keyeq_ (key b) k' = false /\ holds acc k' v')) ->
  unique_keys (b :: rest) ->
  state b = Filled ->
  (forall k v, live_in (b :: rest) k v -> absent acc k) ->
  forall k v, live_in rest k v -> absent acc' k.
Proof.
  intros Hh1 Hu Hst Hdis k v Hl. apply absent_holds. intros v0 Hv0.
  apply Hh1 in Hv0 as [[Hk _] | [_ Hv0]].
  - rewrite (unique_keys_head b rest k v Hu Hst Hl) in Hk. discriminate.
  - assert (Habs : absent acc k).
    { apply (Hdis k v). apply live_in_cons. now right. }
    apply (holds_absent acc k v0 Hv0 Habs).
Qed.

Lemma current_load_of s :
  well_formed s ->
  current_load s = load_of s (size_ s + tombstones_ s).
Proof.
  intros Hwf. unfold current_load, load_of.
  destruct (wf_counted _ Hwf) as [Hs Ht].
  pose proof (count_states_sum (buckets_ s)) as Hsum.
  pose proof (count_state_bounds Filled (buckets_ s)).
  pose proof (count_state_bounds Deleted (buckets_ s)).
  pose proof (wf_max _ Hwf) as Hmax. unfold bucket_count in Hmax.
  rewrite wrap_small; [reflexivity |].
  rewrite size_mod_val. lia.
Qed.

Section NoGrowth.

Variable rh : Z -> flat_unordered_map -> M unit.
Hypothesis rh_ok : rehash_ok rh.

Lemma insert_no_growth k v acc pos ins acc' :
  insert_stable rh k v acc = Ret (pos, ins) acc' ->
  well_formed acc ->
  buckets_ acc <> [] ->
  tombstones_ acc = 0 ->
  load_fits acc (size_ acc) ->
  bucket_count acc' = bucket_count acc /\ tombstones_ acc' = 0.
Proof.
  intros H Hwf Hne Ht Hfit.
  unfold insert_stable in H.
  apply bind_Ret in H as ([] & s1 & Hr & Hi).
  unfold rehash_if_needed in Hr.
  assert (He : buckets_empty acc = false).
  { apply not_true_is_false. now rewrite buckets_empty_nil. }
  rewrite He, (current_load_of acc Hwf), Ht, Z.add_0_r in Hr.
  unfold load_fits in Hfit. rewrite Hfit in Hr. simpl in Hr.
  injection Hr as <-.
  apply insert_probe_spec in Hi.
  destruct (insert_result_written _ _ _ _ _ _ (wf_linked _ Hwf) Hi)
    as (ob & nb & W).
  pose proof (written_tomb_le _ _ _ _ _ _ _ _ W (wf_counted _ Hwf)) as Htb.
  pose proof (counted_tomb_nonneg _
                (wf_counted _ (written_well_formed _ _ _ _ _ _ _ _ W Hwf)))
    as Hnn.
  unfold bucket_count. rewrite (written_length _ _ _ _ _ _ _ _ W).
  split; [reflexivity | lia].
Qed.

Lemma reinsert_no_growth old :
  forall acc s',
    reinsert rh old acc = Ret tt s' ->
    well_formed acc ->
    buckets_ acc <> [] ->
    tombstones_ acc = 0 ->
    unique_keys old ->
    (forall k v, live_in old k v -> absent acc k) ->
    (forall c, size_ acc <= c < size_ acc + count_state Filled old ->
               load_fits acc c) ->
    bucket_count s' = bucket_count acc.
Proof.
  induction old as [| b rest IH]; intros acc s' H Hwf Hne Ht Hu Hdis Hq.
  - simpl in H. injection H as <-. reflexivity.
  - assert (Hskip : state b <> Filled ->
                    reinsert rh rest acc = Ret tt s' ->
                    bucket_count s' = bucket_count acc).
    { intros Hnf Hr. apply (IH acc s' Hr Hwf Hne Ht (unique_keys_tail _ _ Hu)).
      - intros k v Hl. apply (Hdis k v). apply live_in_cons. now right.
      - intros c Hc. apply Hq. rewrite count_state_cons.
        destruct (State_eqb (state b) Filled); simpl Z.b2z; lia. }
    simpl in H. destruct (state b) eqn:Hst.
    + apply Hskip; [discriminate | exact H].
    + apply bind_Ret in H as ([pos ins] & acc' & Hins & Hr).
      pose proof (count_state_bounds Filled rest) as Hcr.
      assert (Hfit : load_fits acc (size_ acc)).
      { apply Hq. rewrite count_state_cons, Hst. simpl. lia. }
      destruct (insert_no_growth _ _ _ _ _ _ Hins Hwf Hne Ht Hfit) as [Hlen' Ht'].
      destruct (insert_or_assign_impl_ok _ rh_ok _ _ _ _ _ _ Hins Hwf)
        as (Hwf1 & Hh1 & (_ & Hm1 & _) & Hins1 & Hsz1).
      assert (Hnew : ins = true).
      { apply Hins1. apply (Hdis (key b) (value b)).
        apply live_in_cons. left. auto. }
      rewrite Hnew in Hsz1. simpl in Hsz1.
      rewrite <- Hlen'.
      apply (IH acc' s' Hr Hwf1); auto.
      * intros Hnil. unfold bucket_count in Hlen'. rewrite Hnil in Hlen'.
        destruct (buckets_ acc); [contradiction | discriminate].
      * now apply unique_keys_tail with b.
      * now apply reinsert_disjoint_step with acc b.
      * intros c Hc. unfold load_fits, load_of. rewrite Hlen', Hm1.
        apply Hq. rewrite count_state_cons, Hst. simpl. lia.
    + apply Hskip; [discriminate | exact H].
Qed.

End NoGrowth.

(** ** The load is settled in every reachable table *)

Lemma load_settled_ext s s' :
  bucket_count s' = bucket_count s ->
  max_load_factor_ s' = max_load_factor_ s ->
  size_ s' + tombstones_ s' = size_ s + tombstones_ s ->
  load_settled s -> load_settled s'.
Proof.
  intros Hlen Hm Htot [(c & Hc & Hnear & Hfit) | Hhalf].
  - left. exists c. split; [exact Hc |]. split; [lia |].
    unfold load_fits, load_of in *. rewrite Hlen, Hm. exact Hfit.
  - right. rewrite Hlen, Htot. exact Hhalf.
Qed.

Lemma load_settled_fresh s :
  size_ s = 0 -> tombstones_ s = 0 -> load_settled s.
Proof.
  intros Hs Ht. right. rewrite Hs, Ht.
  pose proof (div2_nonneg (bucket_count s)) as H.
  unfold bucket_count in *. lia.
Qed.

Lemma insert_impl_settled rh k v s s' ins pos :
  rehash_ok rh ->
  well_formed s ->
  insert_stable rh k v s = Ret (pos, ins) s' ->
  load_settled s'.
Proof.
  intros rh_ok Hwf H.
  destruct (insert_impl_load_bound _ _ _ _ _ _ _ rh_ok Hwf H) as [Hm Hb].
  destruct (buckets_empty s || fgt fl (current_load s) (max_load_factor_ s)).
  - destruct Hb as [Ht Hsz]. right. rewrite Ht.
    pose proof (Z.div_le_lower_bound (bucket_count s') 2 (size_ s' - 1)
                  ltac:(lia) Hsz).
    lia.
  - destruct Hb as (Hfit & Hlen & Hup & Hlo). left.
    exists (size_ s + tombstones_ s).
    destruct (wf_counted _ Hwf) as [Hs Ht].
    pose proof (count_state_bounds Filled (buckets_ s)).
    pose proof (count_state_bounds Deleted (buckets_ s)).
    split; [lia |]. split; [lia |].
    unfold load_fits, load_of. rewrite Hlen, Hm.
    rewrite (current_load_of s Hwf) in Hfit. exact Hfit.
Qed.

Lemma reinsert_settled rh old :
  rehash_ok rh ->
  forall acc s',
    reinsert rh old acc = Ret tt s' ->
    well_formed acc -> load_settled acc -> load_settled s'.
Proof.
  intros rh_ok. induction old as [| b rest IH]; intros acc s' H Hwf Hset.
  - simpl in H. injection H as <-. exact Hset.
  - simpl in H. destruct (state b).
    + now apply (IH acc s').
    + apply bind_Ret in H as ([pos ins] & acc' & Hins & Hr).
      apply (IH acc' s' Hr).
      * apply (insert_or_assign_impl_ok _ rh_ok _ _ _ _ _ _ Hins Hwf).
      * exact (insert_impl_settled rh _ _ acc acc' ins pos rh_ok Hwf Hins).
    + now apply (IH acc s').
Qed.

Lemma rehash_settled fuel n s s' :
  rehash fuel n s = Ret tt s' -> load_settled s'.
Proof.
  destruct fuel as [| fuel]; [discriminate |].
  rewrite rehash_S.
  destruct (Z.ltb_spec max_size (rehash_len n)) as [Hbig | Hfit]; [discriminate |].
  destruct (can_allocate (rehash_len n)); [simpl | discriminate].
  intros H. destruct (rehash_len_pow2 n) as [Hp2 Hge].
  apply (reinsert_settled _ _ (rehash_rehash_ok fuel) _ _ H).
  - now apply fresh_well_formed.
  - now apply load_settled_fresh.
Qed.

Lemma exec_settled fuel o s s' :
  well_formed s -> load_settled s ->
  exec fuel o s = Ret tt s' -> load_settled s'.
Proof.
  intros Hwf Hset H.
  destruct o as [k v | k | k | p v | k | | n | n | f]; simpl in H.
  - apply bind_Ret in H as ([ins pos] & s1 & Hi & Hret). injection Hret as <-.
    apply insert_or_assign_inv in Hi.
    exact (insert_impl_settled _ _ _ _ _ _ _ (rehash_rehash_ok fuel) Hwf Hi).
  - apply bind_Ret in H as (r & s1 & Hf & Hret). injection Hret as <-.
    apply find_inv in Hf as [-> _]. exact Hset.
  - apply bind_Ret in H as (r & s1 & Hx & Hret). injection Hret as <-.
    unfold index_stable in Hx. apply bind_Ret in Hx as (q & s2 & Hf & Hx).
    apply find_inv in Hf as [-> _].
    destruct q as [i |].
    + injection Hx as <- <-. exact Hset.
    + apply bind_Ret in Hx as ([ins pos] & s3 & Hi & Hret). injection Hret as <- <-.
      apply insert_or_assign_inv in Hi.
      exact (insert_impl_settled _ _ _ _ _ _ _ (rehash_rehash_ok fuel) Hwf Hi).
  - destruct (store_written _ _ _ _ (wf_linked _ Hwf) H) as (b & Hb0 & Hfi & W).
    apply (load_settled_ext s s'); auto.
    + unfold bucket_count. now rewrite (written_length _ _ _ _ _ _ _ _ W).
    + apply (wr_mlf _ _ _ _ _ _ _ _ W).
    + rewrite (wr_size _ _ _ _ _ _ _ _ W), (wr_tomb _ _ _ _ _ _ _ _ W). reflexivity.
  - apply bind_Ret in H as (r & s1 & He & Hret). injection Hret as <-.
    apply erase_inv in He as [(_ & _ & ->) | Hr]; [exact Hset |].
    destruct Hr as [j b Hj Hp Hb He | j b Hj Hp Hb Hfi Hk Hc
                    | j b s2 Hj Hp Hb Hfi Hk Hc Hrh].
    + exact Hset.
    + destruct (erased_counts s _ b Hwf Hb Hfi) as (Hs1 & Ht1 & _).
      apply (load_settled_ext s); auto.
      * unfold bucket_count. now rewrite erased_length.
      * lia.
    + exact (rehash_settled _ _ _ _ Hrh).
  - destruct (clear_ok _ _ Hwf H) as (_ & Ht & Hs & _).
    now apply load_settled_fresh.
  - apply reserve_inv in H as [[_ Hr] | [_ ->]]; [| exact Hset].
    exact (rehash_settled _ _ _ _ Hr).
  - exact (rehash_settled _ _ _ _ H).
  - unfold set_max_load_factor in H.
    destruct (fle fl f (lit_0_1 fl) || fge fl f (lit_0_95 fl)); [discriminate |].
    set (sf := mkMap (buckets_ s) (size_ s) (tombstones_ s) f) in *.
    assert (Hwf0 : well_formed sf) by (apply (well_formed_ext s); auto).
    unfold rehash_if_needed in H.
    destruct (buckets_empty sf || fgt fl (current_load sf) (max_load_factor_ sf))
      eqn:Hc.
    + exact (rehash_settled _ _ _ _ H).
    + injection H as <-. apply orb_false_iff in Hc as [_ Hc].
      rewrite (current_load_of sf Hwf0) in Hc.
      left. exists (size_ sf + tombstones_ sf).
      destruct (wf_counted _ Hwf0) as [Hs Ht].
      pose proof (count_state_bounds Filled (buckets_ sf)).
      pose proof (count_state_bounds Deleted (buckets_ sf)).
      split; [lia |]. split; [lia | exact Hc].
Qed.

(** On a table without buckets a call that returns leaves it without
    buckets, or does what it does on the table with the counters at 0. *)
Lemma exec_emptied fuel o s s' :
  buckets_ s = [] -> exec fuel o s = Ret tt s' ->
  buckets_ s' = [] \/
  exec fuel o (mkMap [] 0 0 (max_load_factor_ s)) = Ret tt s'.
Proof.
  intros Hb H.
  destruct o as [k v | k | k | p v | k | | n | n | f]; simpl in H |- *.
  - right. rewrite insert_or_assign_outside in *.
    apply bind_Ret in H as (r & s1 & Hi & Hret).
    rewrite (insert_stable_emptied _ _ _ _ _ _ Hb Hi). exact Hret.
  - left. rewrite (find_emptied k s Hb) in H. injection H as <-. exact Hb.
  - right. rewrite index_outside in *. unfold index_stable in *.
    rewrite (find_emptied k s Hb) in H. simpl in H.
    rewrite find_emptied by reflexivity. simpl.
    apply bind_Ret in H as (p & s1 & Hi & Hret).
    apply bind_Ret in Hi as ([ins ptr] & s2 & Hi & Hp).
    rewrite (insert_stable_emptied _ _ _ _ _ _ Hb Hi). simpl.
    injection Hp as _ <-. exact Hret.
  - unfold store, bucket_at in H. rewrite Hb in H. discriminate.
  - left. unfold erase, buckets_empty in H. rewrite Hb in H.
    injection H as <-. exact Hb.
  - left. unfold clear in H. injection H as <-. simpl. rewrite Hb. reflexivity.
  - unfold reserve, bucket_count in *. rewrite Hb in H. simpl in *.
    destruct (_ <? _); [right | left].
    + exact (rehash_same _ _ s (mkMap [] 0 0 (max_load_factor_ s)) _ Hb eq_refl H).
    + injection H as <-. exact Hb.
  - right.
    exact (rehash_same _ _ s (mkMap [] 0 0 (max_load_factor_ s)) _ Hb eq_refl H).
  - right. unfold set_max_load_factor in *.
    destruct (fle fl f (lit_0_1 fl) || fge fl f (lit_0_95 fl)); [discriminate |].
    unfold rehash_if_needed, buckets_empty in *. simpl in *. rewrite Hb in H.
    exact (rehash_same _ _ (mkMap [] (size_ s) (tombstones_ s) f)
             (mkMap [] 0 0 f) _ eq_refl eq_refl H).
Qed.

Lemma sound_emptied f : sound (mkMap [] 0 0 f).
Proof.
  split; [apply empty_storage_well_formed |].
  split; [simpl; reflexivity | now apply load_settled_fresh].
Qed.

Lemma exec_sound fuel o s s' :
  sound s -> exec fuel o s = Ret tt s' -> sound s'.
Proof.
  intros (Hwf & Hb & Hs) H.
  destruct (exec_ok _ _ _ _ Hwf Hb H) as [Hwf' Hb'].
  split; [exact Hwf' |]. split; [exact Hb' |].
  exact (exec_settled _ _ _ _ Hwf Hs H).
Qed.

(** A reachable table is sound, or it was left without buckets by a call
    that threw, before [rehash] reset the counters. *)
Lemma reachable_cases s : reachable s -> sound s \/ buckets_ s = [].
Proof.
  induction 1 as [| n s Hn Hm | fuel o s s' Hr IH He | fuel o s e s' Hr IH He].
  - left. apply sound_emptied.
  - left. destruct (make_ok n s Hn Hm) as [Hwf Ht].
    split; [exact Hwf |]. split.
    + rewrite Ht. apply div2_nonneg. unfold bucket_count. lia.
    + unfold make in Hm.
      destruct (max_size <? next_pow2 n); [discriminate |].
      destruct ((0 <? next_pow2 n) && negb (can_allocate (next_pow2 n)));
        [discriminate |].
      injection Hm as <-. now apply load_settled_fresh.
  - destruct IH as [Hs | Hb].
    + left. exact (exec_sound _ _ _ _ Hs He).
    + destruct (exec_emptied _ _ _ _ Hb He) as [Hb' | He'].
      * right. exact Hb'.
      * left. exact (exec_sound _ _ _ _ (sound_emptied _) He').
  - destruct (exec_throw_storage _ _ _ _ _ He) as [[_ ->] | [_ Hb]];
      [exact IH | right; exact Hb].
Qed.

Lemma reachable_ok s :
  reachable s -> buckets_ s <> [] ->
  well_formed s /\ tombstones_ s <= bucket_count s / 2.
Proof.
  intros Hr Hne. destruct (reachable_cases s Hr) as [(Hwf & Hb & _) | Hb];
    [auto | contradiction].
Qed.

(** ** Calls that pass references into the table

    A call of [insert_or_assign] or [operator[]] whose arguments refer into
    the bucket vector, when it returns or throws, leaves a table that the
    call on some key and value from outside the vector leaves as well: such
    calls reach no further tables. *)

Lemma insert_or_assign_throws_by_reference fuel rk rv s e s' :
  insert_or_assign fuel rk rv s = Throw e s' ->
  exists k v, insert_or_assign_stable fuel k v s = Throw e s'.
Proof.
  unfold insert_or_assign. intros H.
  apply bind_Throw in H as [H | ([pos ins] & s1 & _ & H)]; [| discriminate].
  assert (Hst : forall k v, insert_stable (rehash fuel) k v s = Throw e s' ->
                  insert_or_assign_stable fuel k v s = Throw e s').
  { intros k v Hs. unfold insert_or_assign_stable, insert_stable_core.
    rewrite Hs. reflexivity. }
  destruct (buckets_empty s || fgt fl (current_load s) (max_load_factor_ s)) eqn:Hg.
  - destruct (is_outside rk && is_outside rv) eqn:Ho.
    + destruct rk as [k | i f]; [| discriminate].
      destruct rv as [v | j g]; [| discriminate].
      exists k, v. now apply Hst.
    + rewrite (insert_impl_dangling _ _ _ _ Hg Ho) in H.
      apply bind_Throw in H as [H | (a & s1 & _ & H)]; [| discriminate].
      exists key_default, value_default. apply Hst.
      unfold insert_stable. rewrite H. reflexivity.
  - rewrite (insert_impl_no_growth _ _ _ _ Hg) in H.
    destruct (read_arg s rk) as [k |]; [| discriminate].
    destruct (read_arg s rv) as [v |]; [| discriminate].
    exists k, v. now apply Hst.
Qed.

Lemma reachable_by_reference fuel rk rv s s' :
  reachable s ->
  (exists r, insert_or_assign fuel rk rv s = Ret r s') \/
  (exists e, insert_or_assign fuel rk rv s = Throw e s') \/
  (exists p, index fuel rk s = Ret p s') \/
  (exists e, index fuel rk s = Throw e s') ->
  reachable s'.
Proof.
  intros Hr [[r H] | [[e H] | [[p H] | [e H]]]].
  - destruct (insert_or_assign_by_reference _ _ _ _ _ _ H) as (k & v & _ & _ & Hs).
    apply (reach_step fuel (Op_insert_or_assign k v) s s' Hr).
    simpl. rewrite insert_or_assign_outside, Hs. reflexivity.
  - destruct (insert_or_assign_throws_by_reference _ _ _ _ _ _ H) as (k & v & Hs).
    apply (reach_throw fuel (Op_insert_or_assign k v) s e s' Hr).
    simpl. rewrite insert_or_assign_outside, Hs. reflexivity.
  - destruct (index_by_reference _ _ _ _ _ H) as (k & _ & Hs).
    apply (reach_step fuel (Op_index k) s s' Hr).
    simpl. rewrite index_outside, Hs. reflexivity.
  - unfold index in H. destruct (read_arg s rk) as [k |]; [| discriminate].
    apply bind_Throw in H as [H | (q & s1 & Hf & H)];
      [apply find_no_throw in H; contradiction |].
    apply find_inv in Hf as [-> _]. destruct q as [i |]; [discriminate |].
    apply bind_Throw in H as [H | ([ins ptr] & s2 & _ & H)]; [| discriminate].
    destruct (insert_or_assign_throws_by_reference _ _ _ _ _ _ H) as (k0 & v0 & Hs).
    apply (reach_throw fuel (Op_insert_or_assign k0 v0) s e s' Hr).
    simpl. rewrite insert_or_assign_outside, Hs. reflexivity.
Qed.


(** C7, amended.  The storage of every reachable table is absent or has a
    power-of-two length of at least 2, and for every [n] up to [2^63]
    [next_pow2 n] is the smallest power of two that is at least [n] and at
    least 2. *)
Theorem bucket_count_power_of_two :
  (forall s, reachable s -> pow2_storage s) /\
  (forall n p, 0 <= n <= 2 ^ 63 ->
     is_pow2 (next_pow2 n) /\ 2 <= next_pow2 n /\ n <= next_pow2 n /\
     (is_pow2 p -> 2 <= p -> n <= p -> next_pow2 n <= p)).
Proof.
  split.
  - intros s Hr. destruct (reachable_cases s Hr) as [(Hwf & _) | Hb].
    + apply (wf_pow2 s Hwf).
    + now left.
  - intros n p. apply next_pow2_smallest.
Qed.

Lemma compaction_quiet s :
  well_formed s -> load_settled s -> load_monotone s ->
  bucket_count s / 2 < tombstones_ s + 1 ->
  forall c, 0 <= c < size_ s - 1 -> load_fits s c.
Proof.
  intros Hwf Hset Hmono Hc c Hrange.
  destruct (wf_counted _ Hwf) as [Hs Ht].
  pose proof (count_states_sum (buckets_ s)) as Hsum.
  pose proof (count_state_bounds Deleted (buckets_ s)) as HbD.
  destruct Hset as [(c0 & Hc0 & Hnear & Hfit) | Hhalf].
  - apply (Hmono c c0); [lia | unfold bucket_count; lia | exact Hfit].
  - lia.
Qed.

(** C4.  When a successful [erase k] on a reachable table leaves more
    tombstones than half the bucket count, the call rehashes at the same
    length: no tombstone is left, the bucket count is unchanged, and every
    other pair the table held is found with its value.  The float quotient
    and comparison of the growth check are taken to be monotone on this
    table, as they are in IEEE arithmetic. *)
Theorem erase_compaction (fuel : nat) (k : Key) (s s' : flat_unordered_map) :
  reachable s ->
  load_monotone s ->
  erase fuel k s = Ret true s' ->
  bucket_count s / 2 < tombstones_ s + 1 ->
  (exists pos b,
     bucket_at s pos = Some b /\ state b = Filled /\ keyeq_ (key b) k = true /\
     rehash fuel (bucket_count s) (erased s pos b) = Ret tt s') /\
  tombstones_ s' = 0 /\
  bucket_count s' = bucket_count s /\
  (forall k' v',
     holds s k' v' -> keyeq_ k k' = false ->
     exists p, find k' s' = Ret (Some p) s' /\ deref s' (Some p) = Some v').
Proof.
  intros Hreach Hmono H Hc.
  destruct (reachable_cases s Hreach) as [(Hwf & _ & Hset) | Hnil].
  2: { unfold erase, buckets_empty in H. rewrite Hnil in H. discriminate. }
  pose proof (compaction_quiet s Hwf Hset Hmono Hc) as Hquiet.
  apply erase_inv in H as [(_ & Hf & _) | Hr]; [discriminate |].
  inversion Hr as [| j b Hj Hp Hb Hfi Hk Hcomp Heq
                   | j b s2 Hj Hp Hb Hfi Hk Hcomp Hrh Heq]; [exfalso | subst s2].
  { destruct (erased_counts s _ b Hwf Hb Hfi) as (_ & Ht1 & _).
    unfold compacts in Hcomp. apply Z.ltb_ge in Hcomp.
    unfold bucket_count in Hcomp at 1. rewrite erased_length in Hcomp.
    fold (bucket_count s) in Hcomp. lia. }
  set (pos := probe_at s (bucket_index s k) j) in *.
  set (s1 := erased s pos b) in *.
  pose proof (erased_well_formed s pos b Hwf Hb Hfi) as Hwf1. fold s1 in Hwf1.
  destruct (erased_counts s pos b Hwf Hb Hfi) as (Hs1 & Ht1 & _). fold s1 in Hs1, Ht1.
  assert (Hlen1 : bucket_count s1 = bucket_count s).
  { unfold bucket_count, s1. rewrite erased_length. reflexivity. }
  rewrite Hlen1 in Hrh.
  destruct (rehash_rehash_ok fuel _ _ _ Hrh (wf_unique _ Hwf1))
    as (Hwf2 & Ht2 & Hh2 & _).
  split; [exists pos, b; auto |].
  split; [exact Ht2 |].
  split.
  - destruct fuel as [| fuel]; [discriminate |].
    rewrite rehash_S in Hrh.
    destruct (wf_pow2 _ Hwf) as [Hnil | [Hp2 Hge2]].
    { unfold bucket_at in Hb. rewrite Hnil in Hb. discriminate. }
    pose proof (wf_max _ Hwf) as Hmax.
    rewrite (rehash_len_pow2_id _ Hp2 Hge2 ltac:(lia)) in Hrh.
    destruct (Z.ltb_spec max_size (bucket_count s)); [discriminate |].
    destruct (can_allocate (bucket_count s)); [| discriminate].
    match type of Hrh with
    | (if negb true then _ else ?y) = ?r => change (y = r) in Hrh
    end.
    set (fresh := mkMap (replicate (Z.to_nat (bucket_count s)) bucket_default)
                        0 0 (max_load_factor_ s1)) in *.
    assert (Hlenf : bucket_count fresh = bucket_count s).
    { unfold bucket_count at 1. unfold fresh. simpl.
      rewrite length_replicate. unfold bucket_count. lia. }
    rewrite <- Hlenf.
    apply (reinsert_no_growth _ (rehash_rehash_ok fuel) _ _ _ Hrh).
    + now apply fresh_well_formed.
    + intros Hnil. unfold bucket_count in Hlenf at 1. rewrite Hnil in Hlenf.
      simpl in Hlenf. lia.
    + reflexivity.
    + apply (wf_unique _ Hwf1).
    + intros k0 v0 _ i b0 Hi Hf0. simpl in Hi. apply fresh_lookup in Hi. congruence.
    + intros c Hcr. unfold load_fits, load_of. rewrite Hlenf.
      change (max_load_factor_ fresh) with (max_load_factor_ s).
      apply Hquiet.
      destruct (wf_counted _ Hwf1) as [Hcs _].
      change (size_ fresh) with 0 in Hcr. lia.
  - intros k' v' Hh Hkk.
    apply find_holds; [apply (wf_linked _ Hwf2) | apply (wf_unique _ Hwf2) |].
    apply Hh2. apply (erased_holds s pos b Hwf Hb Hfi k Hk). auto.
Qed.

(** ** No access outside the storage *)

Lemma bind_defined {A B : Type} (m : M A) (f : A -> flat_unordered_map -> M B) :
  m <> Undefined ->
  (forall a s1, m = Ret a s1 -> f a s1 <> Undefined) ->
  bind m f <> Undefined.
Proof.
  intros Hm Hf. destruct m; simpl; try discriminate; [| contradiction].
  now apply Hf.
Qed.

Lemma shaped_lt_mod s : shaped s -> bucket_count s < size_mod.
Proof. intros [_ H]. rewrite size_mod_val. lia. Qed.

Lemma in_range_bucket s idx :
  in_range s idx -> exists b, bucket_at s idx = Some b.
Proof.
  intros [H0 H1]. unfold bucket_at, bucket_count in *.
  apply lookup_lt_is_Some. lia.
Qed.

Lemma next_idx_in_range s idx : shaped s -> in_range s (next_idx s idx).
Proof.
  intros Hs. unfold in_range.
  rewrite (next_idx_mod s idx (proj1 Hs) (shaped_lt_mod s Hs)).
  apply Z.mod_pos_bound. destruct Hs as [_ H]. lia.
Qed.

Lemma bucket_index_in_range s k : shaped s -> in_range s (bucket_index s k).
Proof.
  intros Hs. apply bucket_index_range; [apply Hs | now apply shaped_lt_mod].
Qed.

Lemma shaped_same_length s s' :
  length (buckets_ s') = length (buckets_ s) -> shaped s -> shaped s'.
Proof. unfold shaped, bucket_count. intros ->. auto. Qed.

Lemma find_probe_defined fuel k s :
  shaped s ->
  forall idx, in_range s idx -> find_probe fuel k idx s <> Undefined.
Proof.
  intros Hs. induction fuel as [| fuel IH]; intros idx Hidx; simpl; [discriminate |].
  destruct (in_range_bucket s idx Hidx) as [b ->].
  destruct (State_eqb (state b) Empty); [discriminate |].
  destruct (State_eqb (state b) Filled && keyeq_ (key b) k); [discriminate |].
  apply IH. now apply next_idx_in_range.
Qed.

Lemma insert_probe_defined fuel k v s :
  shaped s ->
  forall idx fd,
    in_range s idx -> fd = npos \/ in_range s fd ->
    insert_probe fuel k v idx fd s <> Undefined.
Proof.
  intros Hs. induction fuel as [| fuel IH]; intros idx fd Hidx Hfd; simpl;
    [discriminate |].
  destruct (in_range_bucket s idx Hidx) as [b Hb]. rewrite Hb.
  destruct (state b).
  - destruct (Z.eqb_spec fd npos) as [Heq | Hne].
    + rewrite Hb. discriminate.
    + destruct Hfd as [? | Hfd]; [contradiction |].
      destruct (in_range_bucket s fd Hfd) as [t ->]. discriminate.
  - destruct (keyeq_ (key b) k); [discriminate |].
    apply IH; [now apply next_idx_in_range | exact Hfd].
  - apply IH; [now apply next_idx_in_range |].
    destruct (fd =? npos); [now right | exact Hfd].
Qed.

Lemma insert_probe_length fuel k v idx s r s' :
  insert_probe fuel k v idx npos s = Ret r s' ->
  length (buckets_ s') = length (buckets_ s).
Proof.
  destruct r as [pos ins]. intros H. apply insert_probe_spec in H.
  destruct H; simpl; apply length_insert.
Qed.

Lemma insert_impl_safe rh k v s :
  rehash_safe rh ->
  pow2_storage s -> bucket_count s <= max_size ->
  insert_stable rh k v s <> Undefined /\
  (forall r s', insert_stable rh k v s = Ret r s' -> shaped s').
Proof.
  intros Hrh Hp Hmax.
  assert (Hcheck : rehash_if_needed rh s <> Undefined /\
                   forall s1, rehash_if_needed rh s = Ret tt s1 -> shaped s1).
  { unfold rehash_if_needed.
    destruct (buckets_empty s) eqn:He; simpl.
    - apply Hrh.
    - destruct (fgt fl (current_load s) (max_load_factor_ s)); [apply Hrh |].
      split; [discriminate |]. intros s1 H. injection H as <-.
      destruct Hp as [Hnil | [Hp2 H2]].
      + apply buckets_empty_nil in Hnil. congruence.
      + repeat split; auto; lia. }
  destruct Hcheck as [Hdef Hshape]. unfold insert_stable. split.
  - apply bind_defined; [exact Hdef |].
    intros [] s1 Hr. specialize (Hshape s1 Hr).
    apply insert_probe_defined; auto. now apply bucket_index_in_range.
  - intros r s' H. apply bind_Ret in H as ([] & s1 & Hr & Hi).
    apply (shaped_same_length s1); [| now apply Hshape].
    now apply insert_probe_length in Hi.
Qed.

Lemma shaped_storage s : shaped s -> pow2_storage s /\ bucket_count s <= max_size.
Proof. intros [Hp [H2 Hm]]. split; [right; auto | exact Hm]. Qed.

Lemma reinsert_safe rh old :
  rehash_safe rh ->
  forall acc,
    shaped acc ->
    reinsert rh old acc <> Undefined /\
    (forall s', reinsert rh old acc = Ret tt s' -> shaped s').
Proof.
  intros Hrh. induction old as [| b rest IH]; intros acc Hacc; simpl.
  - split; [discriminate |]. intros s' H. injection H as <-. exact Hacc.
  - destruct (state b); try (now apply IH).
    destruct (shaped_storage acc Hacc) as [Hp Hm].
    destruct (insert_impl_safe rh (key b) (value b) acc Hrh Hp Hm) as [Hdef Hshape].
    split.
    + apply bind_defined; [exact Hdef |].
      intros r s1 Hr. apply IH. now apply (Hshape r).
    + intros s' H. apply bind_Ret in H as (r & s1 & Hr & Hrest).
      apply (proj2 (IH s1 (Hshape r s1 Hr))). exact Hrest.
Qed.

Lemma rehash_is_safe fuel : rehash_safe (rehash fuel).
Proof.
  induction fuel as [| fuel IH]; intros n s.
  - split; [discriminate |]. intros s' H. discriminate.
  - rewrite rehash_S.
    destruct (Z.ltb_spec max_size (rehash_len n)) as [Hbig | Hfit].
    + split; [discriminate |]. intros s' H. discriminate.
    + destruct (can_allocate (rehash_len n)); simpl;
        [| split; [discriminate |]; intros s' H; discriminate].
      apply (reinsert_safe _ _ IH).
      destruct (rehash_len_pow2 n) as [Hp2 Hge].
      unfold shaped, bucket_count. simpl. rewrite length_replicate.
      rewrite Z2Nat.id by lia. auto.
Qed.

Lemma erase_probe_defined rfuel fuel k s :
  shaped s ->
  forall idx, in_range s idx -> erase_probe rfuel fuel k idx s <> Undefined.
Proof.
  intros Hs. induction fuel as [| fuel IH]; intros idx Hidx; [discriminate |].
  rewrite erase_probe_S.
  destruct (in_range_bucket s idx Hidx) as [b ->].
  destruct (State_eqb (state b) Empty); [discriminate |].
  destruct (State_eqb (state b) Filled && keyeq_ (key b) k).
  - destruct (compacts (erased s idx b)); [| discriminate].
    apply bind_defined; [apply rehash_is_safe | discriminate].
  - apply IH. now apply next_idx_in_range.
Qed.

Lemma storage_cases s :
  pow2_storage s -> bucket_count s <= max_size ->
  buckets_empty s = true \/ (buckets_empty s = false /\ shaped s).
Proof.
  intros [Hnil | [Hp H2]] Hm.
  - left. now apply buckets_empty_nil.
  - right. split; [| repeat split; auto; lia].
    apply not_true_is_false. rewrite buckets_empty_nil. intros Hnil.
    unfold bucket_count in H2. rewrite Hnil in H2. simpl in H2. lia.
Qed.

Lemma find_defined k s :
  pow2_storage s -> bucket_count s <= max_size -> find k s <> Undefined.
Proof.
  intros Hp Hm. unfold find.
  destruct (storage_cases s Hp Hm) as [-> | [-> Hs]]; [discriminate |].
  apply find_probe_defined; [exact Hs | now apply bucket_index_in_range].
Qed.

Lemma insert_or_assign_defined fuel k v s :
  pow2_storage s -> bucket_count s <= max_size ->
  insert_or_assign_stable fuel k v s <> Undefined.
Proof.
  intros Hp Hm. unfold insert_or_assign_stable, insert_stable_core.
  apply bind_defined.
  - apply (insert_impl_safe _ k v s (rehash_is_safe fuel) Hp Hm).
  - intros [pos ins] s1 _. discriminate.
Qed.

Lemma erase_defined fuel k s :
  pow2_storage s -> bucket_count s <= max_size -> erase fuel k s <> Undefined.
Proof.
  intros Hp Hm. unfold erase.
  destruct (storage_cases s Hp Hm) as [-> | [-> Hs]]; [discriminate |].
  apply erase_probe_defined; [exact Hs | now apply bucket_index_in_range].
Qed.

(** X1.  On storage that is absent or of a power-of-two length up to
    [max_size], no member function indexes [buckets_] out of range: every
    call returns, throws or loops, but never reads or writes outside the
    vector.  (Assignment through a stale pointer is the caller's business
    and is left out.) *)
Theorem no_access_outside_storage (fuel : nat) (o : operation)
    (s : flat_unordered_map) :
  pow2_storage s ->
  bucket_count s <= max_size ->
  (forall p v, o <> Op_store p v) ->
  exec fuel o s <> Undefined.
Proof.
  intros Hp Hm Hns.
  destruct o as [k v | k | k | p v | k | | n | n | f]; simpl.
  - apply bind_defined; [now apply insert_or_assign_defined | discriminate].
  - apply bind_defined; [now apply find_defined | discriminate].
  - apply bind_defined; [| discriminate].
    unfold index_stable. apply bind_defined; [now apply find_defined |].
    intros q s1 Hf. apply find_inv in Hf as [-> _].
    destruct q as [i |]; [discriminate |].
    apply bind_defined; [now apply insert_or_assign_defined |].
    intros [ins ptr] s2 _. discriminate.
  - exfalso. now apply (Hns p v).
  - apply bind_defined; [now apply erase_defined | discriminate].
  - discriminate.
  - unfold reserve. destruct (bucket_count s <? _); [| discriminate].
    apply rehash_is_safe.
  - apply rehash_is_safe.
  - unfold set_max_load_factor.
    destruct (fle fl f (lit_0_1 fl) || fge fl f (lit_0_95 fl)); [discriminate |].
    unfold rehash_if_needed.
    destruct (buckets_empty _ || fgt fl _ _); [apply rehash_is_safe | discriminate].
Qed.

(** ** When a search returns *)

Lemma probe_at_in_range s idx j : shaped s -> in_range s idx -> in_range s (probe_at s idx j).
Proof.
  intros Hs Hidx. destruct j as [| j]; [exact Hidx |].
  rewrite probe_at_S_r. now apply next_idx_in_range.
Qed.

(** From any slot the probe sequence reaches every slot within one turn. *)
Lemma probe_reaches s idx (i : nat) :
  shaped s -> in_range s idx -> (i < length (buckets_ s))%nat ->
  exists j, (j < length (buckets_ s))%nat /\ Z.to_nat (probe_at s idx j) = i.
Proof.
  intros Hs Hidx Hi.
  pose proof (shaped_lt_mod s Hs) as Hlt. destruct Hs as [Hp [H2 Hm]].
  assert (Hlen : 0 < bucket_count s) by lia.
  pose proof (Z.mod_pos_bound (Z.of_nat i - idx) (bucket_count s) Hlen) as Hr.
  exists (Z.to_nat ((Z.of_nat i - idx) mod bucket_count s)). split.
  - unfold bucket_count in *. lia.
  - rewrite (probe_at_mod s Hp Hlt _ idx Hidx).
    rewrite Z2Nat.id by lia. rewrite Zplus_mod_idemp_r.
    replace (idx + (Z.of_nat i - idx)) with (Z.of_nat i) by lia.
    rewrite Z.mod_small by (unfold bucket_count; lia). lia.
Qed.

Lemma passes_false k b :
  passes k b = false ->
  state b = Empty \/ (state b = Filled /\ keyeq_ (key b) k = true).
Proof.
  unfold passes. destruct (state b); simpl; auto; [| discriminate].
  destruct (keyeq_ (key b) k); [auto | discriminate].
Qed.

(** A search that meets, within its budget, a bucket it does not pass over
    returns. *)
Lemma find_probe_stops s k idx fuel j0 b0 :
  shaped s -> in_range s idx ->
  (j0 < fuel)%nat ->
  bucket_at s (probe_at s idx j0) = Some b0 ->
  passes k b0 = false ->
  exists r, find_probe fuel k idx s = Ret r s.
Proof.
  intros Hs Hidx Hj0 Hb0 Hp0.
  set (stops := fun t =>
         match bucket_at s (probe_at s idx t) with
         | Some b' => negb (passes k b')
         | None => true
         end).
  assert (Hs0 : stops j0 = true) by (unfold stops; rewrite Hb0, Hp0; reflexivity).
  destruct (first_hit (fun t => stops t = true)
              (fun t => bool_dec (stops t) true) j0 Hs0)
    as (i0 & Hi0 & Hst & Hmin).
  assert (Hpath : path_passes s k idx i0).
  { intros t Ht. specialize (Hmin t Ht). unfold stops in Hmin.
    destruct (in_range_bucket s _ (probe_at_in_range s idx t Hs Hidx)) as [b' Hb'].
    rewrite Hb' in Hmin. exists b'. split; [exact Hb' |].
    destruct (passes k b'); [reflexivity | exfalso; now apply Hmin]. }
  unfold stops in Hst.
  destruct (in_range_bucket s _ (probe_at_in_range s idx i0 Hs Hidx)) as [b1 Hb1].
  rewrite Hb1 in Hst. apply negb_true_iff in Hst.
  destruct (passes_false k b1 Hst) as [He | [Hfi Hk]].
  - exists None. apply find_probe_complete.
    apply (FR_none s k idx fuel i0 b1); [lia | exact Hpath | exact Hb1 | exact He].
  - eexists. apply find_probe_complete.
    apply (FR_some s k idx fuel i0 b1); [lia | exact Hpath | exact Hb1 | exact Hfi | exact Hk].
Qed.

Lemma find_probe_outcomes fuel k s :
  shaped s ->
  forall idx, in_range s idx ->
    find_probe fuel k idx s = Loops \/ exists r, find_probe fuel k idx s = Ret r s.
Proof.
  intros Hs. induction fuel as [| fuel IH]; intros idx Hidx; simpl; [now left |].
  destruct (in_range_bucket s idx Hidx) as [b ->].
  destruct (State_eqb (state b) Empty); [right; eauto |].
  destruct (State_eqb (state b) Filled && keyeq_ (key b) k); [right; eauto |].
  apply IH. now apply next_idx_in_range.
Qed.

Lemma well_formed_shaped s : well_formed s -> buckets_ s <> [] -> shaped s.
Proof.
  intros Hwf Hne. destruct (wf_pow2 _ Hwf) as [Hnil | [Hp H2]]; [contradiction |].
  pose proof (wf_max _ Hwf). repeat split; auto.
Qed.

(** X2.  On a well-formed table with storage, [find k] returns exactly when
    the table has an Empty bucket or holds [k]; otherwise, that is when
    every bucket is Filled or Deleted and none holds [k], it never leaves
    its loop. *)
Theorem find_returns_iff (k : Key) (s : flat_unordered_map) :
  well_formed s ->
  buckets_ s <> [] ->
  ((exists r, find k s = Ret r s) <->
   (exists (i : nat) b, buckets_ s !! i = Some b /\ state b = Empty) \/
   (exists v, holds s k v)) /\
  (find k s = Loops <->
   (forall (i : nat) b, buckets_ s !! i = Some b -> state b <> Empty) /\
   absent s k).
Proof.
  intros Hwf Hne.
  pose proof (well_formed_shaped s Hwf Hne) as Hs.
  pose proof (bucket_index_in_range s k Hs) as Hidx.
  assert (Hnempty : buckets_empty s = false).
  { apply not_true_is_false. now rewrite buckets_empty_nil. }
  assert (Hret : (exists r, find k s = Ret r s) <->
                 (exists (i : nat) b, buckets_ s !! i = Some b /\ state b = Empty) \/
                 (exists v, holds s k v)).
  { split.
    - intros [r Hf]. apply find_inv in Hf as [_ [[Hnil _] | Hr]]; [contradiction |].
      inversion Hr as [j b Hj Hp Hb He | j b Hj Hp Hb Hfi Hk]; subst.
      + left. eexists _, b. split; [exact Hb | exact He].
      + right. exists (value b). eexists _, b. repeat split; eauto.
    - intros [(i & b & Hi & He) | [v Hv]].
      + assert (Hlt : (i < length (buckets_ s))%nat) by (now apply lookup_lt_Some in Hi).
        destruct (probe_reaches s _ i Hs Hidx Hlt) as (j & Hj & Hto).
        rewrite find_unfold by exact Hnempty.
        apply (find_probe_stops s k _ _ j b); auto.
        * unfold bucket_at. rewrite Hto. exact Hi.
        * unfold passes. rewrite He. reflexivity.
      + destruct (find_holds s k v (wf_linked _ Hwf) (wf_unique _ Hwf) Hv)
          as (p & Hf & _).
        eauto. }
  split; [exact Hret |].
  rewrite find_unfold in * by exact Hnempty.
  split.
  - intros Hl. split.
    + intros i b Hi He. destruct (proj2 Hret) as [r Hr]; [left; eauto |].
      congruence.
    + apply absent_holds. intros v Hv.
      destruct (proj2 Hret) as [r Hr]; [right; eauto |]. congruence.
  - intros [Hfull Habs].
    destruct (find_probe_outcomes (length (buckets_ s)) k s Hs _ Hidx)
      as [Hl | Hr]; [exact Hl | exfalso].
    apply Hret in Hr as [(i & b & Hi & He) | [v Hv]].
    + now apply (Hfull i b).
    + now apply (holds_absent s k v).
Qed.

(** ** The table as a finite map *)

Lemma holds_functional s k v v' :
  unique_keys (buckets_ s) -> holds s k v -> holds s k v' -> v = v'.
Proof.
  intros Hu (i & b & Hi & Hfi & Hk & Hv) (i' & b' & Hi' & Hfi' & Hk' & Hv').
  assert (i = i').
  { apply (Hu i i' b b'); auto.
    apply keyeq_trans with k; [exact Hk | now apply keyeq_sym]. }
  subst i'. congruence.
Qed.

(** X3.  On a well-formed table [find] is the lookup of a finite map: a key
    is held with at most one value, [find k] returns a pointer to [v]
    exactly when the table holds [k] with [v], and a [find k] that returns
    [nullptr] shows that no Filled bucket holds [k]. *)
Theorem find_agrees_with_contents (k : Key) (s : flat_unordered_map) :
  well_formed s ->
  (forall v v', holds s k v -> holds s k v' -> v = v') /\
  (forall v,
     holds s k v <->
     exists p, find k s = Ret (Some p) s /\ deref s (Some p) = Some v) /\
  (forall s', find k s = Ret None s' -> absent s k).
Proof.
  intros Hwf. split; [| split].
  - intros v v'. apply holds_functional, (wf_unique _ Hwf).
  - intros v. split.
    + apply find_holds; [apply (wf_linked _ Hwf) | apply (wf_unique _ Hwf)].
    + intros (p & Hf & Hd).
      destruct (find_some_holds _ _ _ _ Hf) as (b & Hb & _ & _ & Hh).
      simpl in Hd. rewrite Hb in Hd. simpl in Hd. injection Hd as <-. exact Hh.
  - intros s' Hf. apply (find_none_absent s k s' (wf_linked _ Hwf) Hf).
Qed.

(** X4.  [erase k] on a well-formed table returns [true] exactly when the
    table held [k]; a [false] leaves the table as it was.  Afterwards no
    Filled bucket holds [k], every other key has the value it had, [size_]
    has dropped by one exactly on success, the load factor bound is the same
    and the storage has not shrunk. *)
Theorem erase_removes_only_the_key (fuel : nat) (k : Key)
    (s s' : flat_unordered_map) (r : bool) :
  well_formed s ->
  erase fuel k s = Ret r s' ->
  (r = true <-> exists v, holds s k v) /\
  (r = false -> s' = s) /\
  absent s' k /\
  (forall k' v', keyeq_ k k' = false -> (holds s' k' v' <-> holds s k' v')) /\
  size_ s' = size_ s - Z.b2z r /\
  max_load_factor_ s' = max_load_factor_ s /\
  bucket_count s <= bucket_count s'.
Proof.
  intros Hwf H.
  destruct (erase_ok _ _ _ _ _ Hwf H) as (Hwf' & Hlen & Hm & Hfalse & Htrue).
  destruct r.
  - destruct (Htrue eq_refl) as (Hheld & Hh & _).
    destruct (erase_then_find _ _ _ _ Hwf H) as (_ & Hsz & _).
    split; [tauto |]. split; [discriminate |].
    split; [| split; [| split; [simpl; lia | auto]]].
    + apply absent_holds. intros v Hv. apply Hh in Hv as [Hk _].
      rewrite keyeq_refl in Hk. discriminate.
    + intros k' v' Hk. rewrite Hh. tauto.
  - destruct (Hfalse eq_refl) as [-> Habs].
    split; [| split; [auto | split; [exact Habs | split; [tauto |]]]].
    + split; [discriminate |]. intros [v Hv].
      exfalso. now apply (holds_absent s k v).
    + split; [simpl; lia | auto].
Qed.


Lemma find_all_empty k s :
  pow2_storage s -> bucket_count s <= max_size ->
  (forall (i : nat) b, buckets_ s !! i = Some b -> state b = Empty) ->
  find k s = Ret None s.
Proof.
  intros Hp Hm Hall. unfold find.
  destruct (storage_cases s Hp Hm) as [-> | [-> Hs]]; [reflexivity |].
  destruct (in_range_bucket s _ (bucket_index_in_range s k Hs)) as [b Hb].
  destruct (length (buckets_ s)) as [| n] eqn:Hlen.
  - destruct Hs as [_ [H2 _]]. unfold bucket_count in H2. rewrite Hlen in H2.
    simpl in H2. lia.
  - simpl. rewrite Hb. rewrite (Hall _ b Hb). reflexivity.
Qed.

(** X6.  [clear] on a well-formed table returns a well-formed table with the
    same storage length and load factor bound, [size_] and [tombstones_]
    both 0, and on which [find] returns [nullptr] for every key. *)
Theorem clear_empties (s : flat_unordered_map) :
  well_formed s ->
  exists s',
    clear s = Ret tt s' /\
    well_formed s' /\
    size_ s' = 0 /\ tombstones_ s' = 0 /\
    bucket_count s' = bucket_count s /\
    max_load_factor_ s' = max_load_factor_ s /\
    (forall k, find k s' = Ret None s').
Proof.
  intros Hwf. eexists. split; [reflexivity |].
  destruct (clear_ok s _ Hwf eq_refl) as (Hwf' & Ht & Hs & Hlen & Habs).
  split; [exact Hwf' |]. split; [exact Hs |]. split; [exact Ht |].
  split; [exact Hlen |]. split; [reflexivity |].
  intros k. apply find_all_empty; [apply (wf_pow2 _ Hwf') | apply (wf_max _ Hwf') |].
  intros i b Hi. simpl in Hi. rewrite list_lookup_fmap in Hi.
  destruct (buckets_ s !! i); simpl in Hi; [| discriminate].
  injection Hi as <-. reflexivity.
Qed.

(** X7.  [rehash n] and [reserve n], when they return on a well-formed
    table, keep exactly the pairs the table held and its [size_] and load
    factor bound; after [rehash] no bucket is Deleted and the storage has
    at least [next_pow2 n] (at least 2) buckets. *)
Theorem rehash_preserves_contents (fuel : nat) (n : Z)
    (s : flat_unordered_map) :
  well_formed s ->
  (forall s',
     rehash fuel n s = Ret tt s' ->
     well_formed s' /\
     (forall k v, holds s' k v <-> holds s k v) /\
     size_ s' = size_ s /\
     max_load_factor_ s' = max_load_factor_ s /\
     tombstones_ s' = 0 /\
     (forall (i : nat) b, buckets_ s' !! i = Some b -> state b <> Deleted) /\
     rehash_len n <= bucket_count s') /\
  (forall s',
     reserve fuel n s = Ret tt s' ->
     well_formed s' /\
     (forall k v, holds s' k v <-> holds s k v) /\
     size_ s' = size_ s /\
     max_load_factor_ s' = max_load_factor_ s).
Proof.
  intros Hwf.
  assert (Hre : forall m s',
             rehash fuel m s = Ret tt s' ->
             well_formed s' /\
             (forall k v, holds s' k v <-> holds s k v) /\
             size_ s' = size_ s /\
             max_load_factor_ s' = max_load_factor_ s /\
             tombstones_ s' = 0 /\
             (forall (i : nat) b, buckets_ s' !! i = Some b -> state b <> Deleted) /\
             rehash_len m <= bucket_count s').
  { intros m s' H.
    destruct (rehash_rehash_ok fuel _ _ _ H (wf_unique _ Hwf))
      as (Hwf' & Ht & Hh & Hm & Hlen & Hsz).
    split; [exact Hwf' |]. split; [exact Hh |].
    split; [rewrite Hsz; symmetry; apply (wf_counted _ Hwf) |].
    split; [exact Hm |]. split; [exact Ht |]. split; [| exact Hlen].
    apply count_state_zero. destruct (wf_counted _ Hwf') as [_ Hc]. congruence. }
  split; [apply Hre |].
  intros s' H. apply reserve_inv in H as [[_ Hr] | [_ ->]].
  - destruct (Hre _ _ Hr) as (H1 & H2 & H3 & H4 & _). auto.
  - split; [exact Hwf |]. split; [tauto |]. split; reflexivity.
Qed.



(** X10.  The exceptions raised by the table's own code and by its bucket
    vector (the hash, the key equality and the copying of keys and values
    are taken not to throw).  [invalid_argument] comes only from
    [max_load_factor(f)] with [f <= 0.1f || f >= 0.95f], and leaves the
    table as it was.  Every other exception is the vector's [length_error]
    or [bad_alloc], raised under [rehash] after the old storage was moved
    out: the table is left with no buckets.  [find], [clear] and a store
    through a pointer never throw. *)
Theorem exceptions_of_operations (fuel : nat) (o : operation)
    (s s' : flat_unordered_map) (e : exn) :
  exec fuel o s = Throw e s' ->
  (e = invalid_argument /\ s' = s /\
   exists f, o = Op_max_load_factor f /\
             fle fl f (lit_0_1 fl) || fge fl f (lit_0_95 fl) = true) \/
  ((e = length_error \/ e = bad_alloc) /\ buckets_ s' = [] /\
   (forall k, o <> Op_find k) /\ (forall p v, o <> Op_store p v) /\ o <> Op_clear).
Proof.
  intros H.
  assert (Hm : forall o', o' = o -> moved_from e s' ->
               (forall k, o <> Op_find k) -> (forall p v, o <> Op_store p v) ->
               o <> Op_clear ->
               (e = length_error \/ e = bad_alloc) /\ buckets_ s' = [] /\
               (forall k, o <> Op_find k) /\ (forall p v, o <> Op_store p v) /\
               o <> Op_clear).
  { intros _ _ [He Hb] H1 H2 H3. auto. }
  destruct o as [k v | k | k | p v | k | | n | n | f]; simpl in H.
  - right. apply (Hm _ eq_refl); try discriminate.
    apply bind_Throw in H as [H | (a & s1 & _ & H)]; [| discriminate].
    exact (insert_or_assign_moved _ _ _ _ _ _ H).
  - apply bind_Throw in H as [H | (a & s1 & _ & H)]; [| discriminate].
    apply find_no_throw in H. contradiction.
  - right. apply (Hm _ eq_refl); try discriminate.
    apply bind_Throw in H as [H | (a & s1 & _ & H)]; [| discriminate].
    unfold index_stable in H. apply bind_Throw in H as [H | (q & s1 & _ & H)].
    + apply find_no_throw in H. contradiction.
    + destruct q as [i |]; [discriminate |].
      apply bind_Throw in H as [H | ([ins ptr] & s2 & _ & H)]; [| discriminate].
      exact (insert_or_assign_moved _ _ _ _ _ _ H).
  - unfold store in H. destruct (bucket_at s p) as [b |]; [| discriminate].
    destruct (state b); discriminate.
  - right. apply (Hm _ eq_refl); try discriminate.
    apply bind_Throw in H as [H | (a & s1 & _ & H)]; [| discriminate].
    unfold erase in H. destruct (buckets_empty s); [discriminate |].
    exact (erase_probe_moved _ _ _ _ _ _ _ H).
  - discriminate.
  - right. apply (Hm _ eq_refl); try discriminate.
    unfold reserve in H. destruct (bucket_count s <? _); [| discriminate].
    exact (rehash_moved _ _ _ _ _ H).
  - right. apply (Hm _ eq_refl); try discriminate.
    exact (rehash_moved _ _ _ _ _ H).
  - destruct (set_max_load_factor_spec fuel f s) as [Hrej Hacc].
    destruct (fle fl f (lit_0_1 fl) || fge fl f (lit_0_95 fl)) eqn:Hg.
    + left. rewrite (Hrej eq_refl) in H. injection H as <- <-. eauto.
    + right. apply (Hm _ eq_refl); try discriminate.
      rewrite (Hacc eq_refl) in H.
      exact (rehash_if_needed_moved _ _ _ _ (rehash_moved fuel) H).
Qed.

(** X11.  [max_load_factor(f)] on a well-formed table: when the guard
    [f <= 0.1f || f >= 0.95f] is true it throws and changes nothing; when
    it returns, the guard was false, the getter returns [f], the pairs held
    and [size_] are as before, and the storage did not shrink. *)
Theorem max_load_factor_setter (fuel : nat) (f : float fl)
    (s : flat_unordered_map) :
  well_formed s ->
  (fle fl f (lit_0_1 fl) || fge fl f (lit_0_95 fl) = true ->
     set_max_load_factor fuel f s = Throw invalid_argument s) /\
  (forall s',
     set_max_load_factor fuel f s = Ret tt s' ->
     fle fl f (lit_0_1 fl) || fge fl f (lit_0_95 fl) = false /\
     max_load_factor s' = f /\
     well_formed s' /\
     (forall k v, holds s' k v <-> holds s k v) /\
     size_ s' = size_ s /\
     bucket_count s <= bucket_count s' /\
     tombstones_ s' <= tombstones_ s).
Proof.
  intros Hwf. destruct (set_max_load_factor_spec fuel f s) as [Hrej Hacc].
  split; [exact Hrej |]. intros s' H.
  destruct (fle fl f (lit_0_1 fl) || fge fl f (lit_0_95 fl)) eqn:Hg.
  - rewrite (Hrej eq_refl) in H. discriminate.
  - split; [reflexivity |]. rewrite (Hacc eq_refl) in H.
    assert (Hwf0 : well_formed (mkMap (buckets_ s) (size_ s) (tombstones_ s) f)).
    { now apply (well_formed_ext s). }
    destruct (rehash_if_needed_ok _ (rehash_rehash_ok fuel) _ _ H Hwf0)
      as (Hwf' & Hh & (Hlen & Hm & Ht) & Hsz).
    split; [exact Hm |]. split; [exact Hwf' |].
    split; [exact Hh |]. split; [exact Hsz |]. split; [exact Hlen | exact Ht].
Qed.

(** X12.  The constructor [flat_unordered_map(n)]: it throws
    [length_error] exactly when [next_pow2 n] exceeds the vector's
    [max_size], and [bad_alloc] exactly when [next_pow2 n] is within
    [max_size] but the allocator does not provide that many buckets; when
    it returns, the table has [next_pow2 n] buckets, all Empty, no element,
    the bound 0.7f, is well formed, and [find] returns [nullptr] for every
    key. *)
Theorem constructor_builds_empty_table (n : Z) :
  0 <= n < size_mod ->
  (max_size < next_pow2 n <-> make n = Throw length_error empty_map) /\
  (0 < next_pow2 n <= max_size /\ can_allocate (next_pow2 n) = false <->
   make n = Throw bad_alloc empty_map) /\
  (forall s,
     make n = Ret tt s ->
     bucket_count s = next_pow2 n /\
     (forall (i : nat) b, buckets_ s !! i = Some b -> state b = Empty) /\
     size s = 0 /\ empty s = true /\ tombstones_ s = 0 /\
     max_load_factor s = lit_0_7 fl /\
     well_formed s /\
     (forall k, find k s = Ret None s)).
Proof.
  intros Hn. split; [| split].
  - unfold make. destruct (Z.ltb_spec max_size (next_pow2 n)) as [Hbig | Hfit].
    + tauto.
    + split; [lia |].
      destruct ((0 <? next_pow2 n) && negb (can_allocate (next_pow2 n)));
        discriminate.
  - unfold make. destruct (Z.ltb_spec max_size (next_pow2 n)) as [Hbig | Hfit].
    + split; [lia | discriminate].
    + destruct (Z.ltb_spec 0 (next_pow2 n)) as [Hpos | Hzero];
        destruct (can_allocate (next_pow2 n)); simpl;
        split; try discriminate; try tauto; try (intros [? ?]; lia);
        try (intros [_ ?]; discriminate).
  - intros s H. destruct (make_ok n s Hn H) as [Hwf Ht].
    unfold make in H.
    destruct (Z.ltb_spec max_size (next_pow2 n)) as [Hbig | Hfit]; [discriminate |].
    destruct ((0 <? next_pow2 n) && negb (can_allocate (next_pow2 n)));
      [discriminate |].
    injection H as <-.
    assert (Hall : forall (i : nat) b,
               replicate (Z.to_nat (next_pow2 n)) bucket_default !! i = Some b ->
               state b = Empty).
    { intros i b Hi. now apply fresh_lookup in Hi. }
    split.
    { unfold bucket_count. simpl. rewrite length_replicate.
      destruct (next_pow2_in_range n Hn) as [-> | [_ Hge]]; [reflexivity | lia]. }
    split; [exact Hall |]. split; [reflexivity |]. split; [reflexivity |].
    split; [reflexivity |]. split; [reflexivity |]. split; [exact Hwf |].
    intros k. apply find_all_empty;
      [apply (wf_pow2 _ Hwf) | apply (wf_max _ Hwf) | exact Hall].
Qed.

(** X13.  Apart from [rehash] and [reserve], no operation that returns on a
    well-formed table makes the storage smaller, and apart from
    [max_load_factor(f)] no operation changes the load factor bound. *)
Theorem capacity_and_bound_stable (fuel : nat) (o : operation)
    (s s' : flat_unordered_map) :
  well_formed s ->
  exec fuel o s = Ret tt s' ->
  ((forall n, o <> Op_rehash n) -> (forall n, o <> Op_reserve n) ->
   bucket_count s <= bucket_count s') /\
  ((forall f, o <> Op_max_load_factor f) ->
   max_load_factor_ s' = max_load_factor_ s).
Proof.
  intros Hwf H.
  destruct o as [k v | k | k | p v | k | | n | n | f]; simpl in H.
  - apply bind_Ret in H as ([ins pos] & s1 & H & Hret). injection Hret as <-.
    destruct (insert_or_assign_ok _ _ _ _ _ _ _ H Hwf) as (_ & _ & (Hl & Hm & _) & _).
    auto.
  - apply bind_Ret in H as (r & s1 & H & Hret). injection Hret as <-.
    apply find_inv in H as [-> _]. split; intros; [lia | reflexivity].
  - apply bind_Ret in H as (r & s1 & H & Hret). injection Hret as <-.
    unfold index_stable in H. apply bind_Ret in H as (q & s2 & Hf & H).
    apply find_inv in Hf as [-> _]. destruct q as [i |].
    + injection H as _ <-. split; intros; [lia | reflexivity].
    + apply bind_Ret in H as ([ins ptr] & s3 & Hi & Hret). injection Hret as _ <-.
      destruct (insert_or_assign_ok _ _ _ _ _ _ _ Hi Hwf)
        as (_ & _ & (Hl & Hm & _) & _).
      auto.
  - unfold store in H. destruct (bucket_at s p) as [b |]; [| discriminate].
    destruct (state b); try discriminate. injection H as <-.
    unfold bucket_count, set_bucket. simpl. rewrite length_insert.
    split; intros; [lia | reflexivity].
  - apply bind_Ret in H as (r & s1 & H & Hret). injection Hret as <-.
    destruct (erase_ok _ _ _ _ _ Hwf H) as (_ & Hl & Hm & _). auto.
  - injection H as <-. unfold bucket_count. simpl. rewrite length_map.
    split; intros; [lia | reflexivity].
  - split; [intros _ Hc; now destruct (Hc n) |]. intros _.
    apply reserve_inv in H as [[_ Hr] | [_ ->]]; [| reflexivity].
    now destruct (rehash_rehash_ok fuel _ _ _ Hr (wf_unique _ Hwf))
      as (_ & _ & _ & Hm & _).
  - split; [intros Hc; now destruct (Hc n) |]. intros _.
    now destruct (rehash_rehash_ok fuel _ _ _ H (wf_unique _ Hwf))
      as (_ & _ & _ & Hm & _).
  - split; [| intros Hc; now destruct (Hc f)]. intros _ _.
    destruct (set_max_load_factor_spec fuel f s) as [Hrej Hacc].
    destruct (fle fl f (lit_0_1 fl) || fge fl f (lit_0_95 fl)) eqn:Hg.
    + rewrite (Hrej eq_refl) in H. discriminate.
    + rewrite (Hacc eq_refl) in H.
      assert (Hwf0 : well_formed (mkMap (buckets_ s) (size_ s) (tombstones_ s) f)).
      { now apply (well_formed_ext s). }
      now destruct (rehash_if_needed_ok _ (rehash_rehash_ok fuel) _ _ H Hwf0)
        as (_ & _ & (Hlen & _) & _).
Qed.




End Table.

Arguments buckets_ {Key T fl} _.
Arguments size_ {Key T fl} _.
Arguments tombstones_ {Key T fl} _.
Arguments max_load_factor_ {Key T fl} _.
Arguments bucket_count {Key T fl} s.
Arguments bucket_at {Key T fl} s i.
Arguments current_load {Key T fl} s.
Arguments deref {Key T fl} s p.
Arguments mask {Key T fl} s.
Arguments Outside {T A} a.
Arguments Inside {T A} slot part.
Arguments read_arg {Key T fl A} s r.

(** * The table of [main]: [flat_unordered_map<int, std::string>] *)

(** [std::hash<int>] converts the key to [size_t]. *)
Definition hash_int (k : Z) : Z := wrap k.

(** [max_size()] of a vector of 48-byte buckets. *)
Definition vector_max_size : Z := (2 ^ 63 - 1) / 48.

(** An allocator that provides up to [2^32] buckets. *)
Definition allocates (n : Z) : bool := n <=? 2 ^ 32.

Definition int_map : Type := @flat_unordered_map Z string Binary32.ops.

Definition int_empty : int_map := empty_map Binary32.ops.

Definition int_insert (k : Z) (v : string) (s : int_map) :=
  insert_or_assign 0 ""%string hash_int Z.eqb Binary32.ops vector_max_size
    allocates 8 (Outside k) (Outside v) s.

Definition int_find (k : Z) (s : int_map) :=
  find hash_int Z.eqb Binary32.ops k s.

Definition int_erase (k : Z) (s : int_map) :=
  erase 0 ""%string hash_int Z.eqb Binary32.ops vector_max_size allocates 8 k s.

Definition int_reserve (n : Z) (s : int_map) :=
  reserve 0 ""%string hash_int Z.eqb Binary32.ops vector_max_size allocates 8 n s.

Definition int_set_max_load_factor (f : spec_float) (s : int_map) :=
  set_max_load_factor 0 ""%string hash_int Z.eqb Binary32.ops vector_max_size allocates 8 f s.

Definition int_exec (o : operation Binary32.ops) (s : int_map) :=
  exec 0 ""%string hash_int Z.eqb Binary32.ops vector_max_size allocates 8 o s.

(** The table a sequence of calls leaves; the sequence stops at the first
    call that does not return. *)
Fixpoint int_run (os : list (operation Binary32.ops)) (s : int_map)
  : outcome int_map unit :=
  match os with
  | [] => Ret tt s
  | o :: os' => bind (int_exec o s) (fun _ s' => int_run os' s')
  end.

Definition table_of (r : outcome int_map unit) : int_map :=
  match r with
  | Ret _ s => s
  | _ => int_empty
  end.

Definition int_reachable : int_map -> Prop :=
  reachable 0 ""%string hash_int Z.eqb Binary32.ops vector_max_size allocates.

Definition int_well_formed : int_map -> Prop :=
  well_formed hash_int Z.eqb Binary32.ops vector_max_size.

Lemma eqb_refl_int (a : Z) : (a =? a) = true.
Proof. apply Z.eqb_refl. Qed.

Lemma eqb_sym_int (a b : Z) : (a =? b) = true -> (b =? a) = true.
Proof. rewrite !Z.eqb_eq. congruence. Qed.

Lemma eqb_trans_int (a b c : Z) :
  (a =? b) = true -> (b =? c) = true -> (a =? c) = true.
Proof. rewrite !Z.eqb_eq. congruence. Qed.

Lemma hash_int_compat (a b : Z) : (a =? b) = true -> hash_int a = hash_int b.
Proof. rewrite Z.eqb_eq. congruence. Qed.

Lemma vector_max_size_bound : 0 <= vector_max_size < 2 ^ 63.
Proof. vm_compute. split; [discriminate | reflexivity]. Qed.

Lemma int_run_reachable os :
  forall s s', int_reachable s -> int_run os s = Ret tt s' -> int_reachable s'.
Proof.
  induction os as [| o os IH]; intros s s' Hr H; simpl in H.
  - injection H as <-. exact Hr.
  - destruct (int_exec o s) as [[] s1 | | | |] eqn:He; try discriminate.
    simpl in H. apply (IH s1 s'); [| exact H].
    exact (reach_step _ _ _ _ _ _ _ _ _ _ _ Hr He).
Qed.

Lemma int_reachable_well_formed s :
  int_reachable s -> buckets_ s <> [] -> int_well_formed s.
Proof.
  intros Hr Hne.
  apply (reachable_ok 0 ""%string hash_int Z.eqb Binary32.ops vector_max_size
           allocates eqb_refl_int eqb_sym_int eqb_trans_int hash_int_compat
           vector_max_size_bound s Hr Hne).
Qed.

(** ** Counterexamples and evaluations *)

(** The default table after keys 1..11 were inserted. *)
Definition eleven_keys : int_map :=
  Eval vm_compute in
    table_of (int_run (map (fun k => Op_insert_or_assign Binary32.ops k "v"%string)
                           [1; 2; 3; 4; 5; 6; 7; 8; 9; 10; 11]) int_empty).

(** The same table after key 12 was inserted as well. *)
Definition twelve_keys : int_map :=
  Eval vm_compute in
    table_of (int_run [Op_insert_or_assign Binary32.ops 12 "v"%string] eleven_keys).

(** C1, counterexample.  The twelfth insertion into a default table returns
    with 12 of 16 buckets in use and no growth: the load [12/16] is greater
    than [0.7f], both as the code computes it and exactly
    ([0.7f = 11744051 / 2^24]). *)
Lemma load_exceeds_after_insert :
  int_insert 12 "v"%string eleven_keys = Ret (true, 12) twelve_keys /\
  size_ twelve_keys + tombstones_ twelve_keys = 12 /\
  bucket_count twelve_keys = 16 /\
  max_load_factor_ twelve_keys = Binary32.f0_7 /\
  Binary32.le (current_load twelve_keys) (max_load_factor_ twelve_keys) = false /\
  11744051 * bucket_count twelve_keys
    < (size_ twelve_keys + tombstones_ twelve_keys) * 2 ^ 24.
Proof. repeat split; reflexivity. Qed.

(** The default table after [reserve(11)]. *)
Definition reserved_eleven : int_map :=
  Eval vm_compute in table_of (int_reserve 11 int_empty).

(** C3, counterexample.  [reserve(11)] on a default table leaves 16 buckets,
    fewer than [ceil(11 / 0.7) + 1 = 17]. *)
Lemma reserve_below_ceiling :
  int_reserve 11 int_empty = Ret tt reserved_eleven /\
  bucket_count reserved_eleven = 16 /\
  Binary32.reserve_required_spec 11 (max_load_factor_ int_empty) = 17 /\
  ~ (Binary32.reserve_required_spec 11 (max_load_factor_ int_empty)
       <= bucket_count reserved_eleven).
Proof.
  split; [reflexivity |].
  split; [reflexivity |]. split; [reflexivity |].
  vm_compute. intros H. apply H. reflexivity.
Qed.

(** C7, counterexample.  Above [2^63] the result wraps to 0, which is
    neither a power of two nor at least the argument. *)
Lemma next_pow2_wraps :
  next_pow2 (2 ^ 63 + 1) = 0 /\
  ~ (is_pow2 (next_pow2 (2 ^ 63 + 1)) /\ 2 ^ 63 + 1 <= next_pow2 (2 ^ 63 + 1)).
Proof.
  assert (H : next_pow2 (2 ^ 63 + 1) = 0) by (reflexivity).
  split; [exact H |]. rewrite H. intros [_ Hle]. vm_compute in Hle.
  apply Hle. reflexivity.
Qed.

(** A table of two buckets, both Filled, after [reserve(0)] and two
    insertions; then key 1 erased. *)
Definition two_full : int_map :=
  Eval vm_compute in
    table_of (int_run [Op_reserve Binary32.ops 0;
                       Op_insert_or_assign Binary32.ops 1 "apple"%string;
                       Op_insert_or_assign Binary32.ops 2 "banana"%string]
                      int_empty).

Definition two_full_erased : int_map :=
  Eval vm_compute in table_of (int_run [Op_erase Binary32.ops 1] two_full).

(** C5, at its failing input.  [reserve(0)], two insertions, then
    [erase(1)] returns [true] with [size_] lowered and [tombstones_] raised
    by one; the table has no Empty bucket left and the following [find(1)]
    never leaves its loop, whatever the number of iterations. *)
Theorem find_after_erase_loops :
  int_run [Op_reserve Binary32.ops 0;
           Op_insert_or_assign Binary32.ops 1 "apple"%string;
           Op_insert_or_assign Binary32.ops 2 "banana"%string] int_empty
    = Ret tt two_full /\
  int_erase 1 two_full = Ret true two_full_erased /\
  size_ two_full_erased = size_ two_full - 1 /\
  tombstones_ two_full_erased = tombstones_ two_full + 1 /\
  int_find 1 two_full_erased = Loops /\
  (forall fuel,
     find_probe Z.eqb Binary32.ops fuel 1
       (bucket_index hash_int Binary32.ops two_full_erased 1) two_full_erased
     = Loops).
Proof.
  split; [reflexivity |].
  split; [reflexivity |].
  split; [reflexivity |]. split; [reflexivity |].
  split; [reflexivity |].
  assert (Hboth : forall fuel,
             find_probe Z.eqb Binary32.ops fuel 1 1 two_full_erased = Loops /\
             find_probe Z.eqb Binary32.ops fuel 1 0 two_full_erased = Loops).
  { induction fuel as [| fuel [IH1 IH0]]; [split; reflexivity |].
    split.
    - change (find_probe Z.eqb Binary32.ops (S fuel) 1 1 two_full_erased)
        with (find_probe Z.eqb Binary32.ops fuel 1 0 two_full_erased).
      exact IH0.
    - change (find_probe Z.eqb Binary32.ops (S fuel) 1 0 two_full_erased)
        with (find_probe Z.eqb Binary32.ops fuel 1 1 two_full_erased).
      exact IH1. }
  intros fuel. apply Hboth.
Qed.

(** ** The guard of [max_load_factor(f)] on binary32 *)

Lemma SFcompare_antisym x y :
  SFcompare y x = option_map CompOpp (SFcompare x y).
Proof.
  destruct x as [sx | sx | | sx mx ex], y as [sy | sy | | sy my ey]; simpl;
    try reflexivity;
    try (destruct sx; reflexivity);
    try (destruct sy; reflexivity);
    try (destruct sx, sy; reflexivity).
  change (Pos.compare_cont Eq my mx) with (Pos.compare my mx).
  change (Pos.compare_cont Eq mx my) with (Pos.compare mx my).
  rewrite (Pos.compare_antisym mx my), (Z.compare_antisym ex ey).
  destruct sx, sy; simpl; try reflexivity;
    destruct (ex ?= ey)%Z; simpl; try reflexivity;
    destruct (mx ?= my)%positive; reflexivity.
Qed.

Lemma SFcompare_some x y :
  x <> S754_nan -> y <> S754_nan -> exists c, SFcompare x y = Some c.
Proof.
  intros Hx Hy.
  destruct x as [sx | sx | | sx mx ex], y as [sy | sy | | sy my ey]; simpl;
    try contradiction; eauto.
Qed.

Lemma le_not_gt x y :
  x <> S754_nan -> y <> S754_nan -> Binary32.le x y = negb (Binary32.gt x y).
Proof.
  intros Hx Hy. unfold Binary32.le, Binary32.gt, SFleb, SFltb.
  rewrite (SFcompare_antisym x y).
  destruct (SFcompare_some x y Hx Hy) as [c ->]. destruct c; reflexivity.
Qed.

(** For every [f] that is not a NaN the guard rejects exactly the values
    that are not strictly between [0.1f] and [0.95f]. *)
Lemma guard_rejects_outside f :
  f <> S754_nan ->
  Binary32.le f Binary32.f0_1 || Binary32.ge f Binary32.f0_95 =
  negb (Binary32.gt f Binary32.f0_1 && Binary32.gt Binary32.f0_95 f).
Proof.
  intros Hf.
  rewrite (le_not_gt f Binary32.f0_1 Hf ltac:(discriminate)).
  change (Binary32.ge f Binary32.f0_95) with (Binary32.le Binary32.f0_95 f).
  rewrite (le_not_gt Binary32.f0_95 f ltac:(discriminate) Hf).
  destruct (Binary32.gt f Binary32.f0_1), (Binary32.gt Binary32.f0_95 f);
    reflexivity.
Qed.

(** C6, at its failing input.  A NaN is outside the interval
    [(0.1, 0.95)], yet both comparisons of the guard are false on it: the
    call returns and NaN becomes the load factor bound, after which no
    growth check can fire. *)
Theorem max_load_factor_accepts_nan :
  Binary32.le S754_nan Binary32.f0_1 = false /\
  Binary32.ge S754_nan Binary32.f0_95 = false /\
  int_set_max_load_factor S754_nan eleven_keys
    = Ret tt (mkMap Binary32.ops (buckets_ eleven_keys) (size_ eleven_keys)
                    (tombstones_ eleven_keys) S754_nan) /\
  (forall s : int_map,
     max_load_factor_ s = S754_nan ->
     Binary32.gt (current_load s) (max_load_factor_ s) = false).
Proof.
  split; [reflexivity |]. split; [reflexivity |].
  split; [reflexivity |].
  intros s ->. unfold Binary32.gt, SFltb, SFcompare.
  destruct (current_load s); reflexivity.
Qed.

(** ** The theorems at concrete tables *)

(** One insertion and its erasure: 16 buckets, one of them Deleted. *)
Definition one_tombstone : int_map :=
  Eval vm_compute in
    table_of (int_run [Op_insert_or_assign Binary32.ops 1 "apple"%string;
                       Op_erase Binary32.ops 1] int_empty).

Lemma one_tombstone_reachable : int_reachable one_tombstone.
Proof.
  apply (int_run_reachable
           [Op_insert_or_assign Binary32.ops 1 "apple"%string;
            Op_erase Binary32.ops 1] int_empty);
    [apply reach_default | reflexivity].
Qed.

Lemma int_empty_well_formed : int_well_formed int_empty.
Proof. apply empty_storage_well_formed, vector_max_size_bound. Qed.

Lemma find_erase_empty_storage_witness :
  buckets_ int_empty = [] /\
  int_find 7 int_empty = Ret None int_empty /\
  int_erase 7 int_empty = Ret false int_empty.
Proof.
  split; [reflexivity |].
  apply (find_erase_empty_storage 0 ""%string hash_int Z.eqb Binary32.ops
           vector_max_size allocates 8%nat 7 int_empty).
  reflexivity.
Defined.




Lemma bucket_count_power_of_two_witness :
  pow2_storage Binary32.ops one_tombstone /\
  is_pow2 (next_pow2 12) /\ 12 <= next_pow2 12.
Proof.
  destruct (bucket_count_power_of_two 0 ""%string hash_int Z.eqb Binary32.ops
              vector_max_size allocates eqb_refl_int eqb_sym_int eqb_trans_int
              hash_int_compat vector_max_size_bound) as [Hreach Hnext].
  split; [exact (Hreach one_tombstone one_tombstone_reachable) |].
  assert (Hrange : 0 <= 12 <= 2 ^ 63) by (split; discriminate).
  destruct (Hnext 12 16 Hrange) as (Hp & _ & Hle & _).
  split; assumption.
Defined.

(** The default table after [reserve(8)], as in [main]. *)
Definition reserved_eight : int_map :=
  Eval vm_compute in table_of (int_reserve 8 int_empty).

Lemma reserve_capacity_witness :
  int_reserve 8 int_empty = Ret tt reserved_eight /\
  reserve_needed Binary32.ops 8 int_empty = 12 /\
  rehash_len 12 <= bucket_count reserved_eight /\
  is_pow2 (bucket_count reserved_eight) /\
  12 <= bucket_count reserved_eight.
Proof.
  assert (Hrun : int_reserve 8 int_empty = Ret tt reserved_eight)
    by (reflexivity).
  assert (Hneed : reserve_needed Binary32.ops 8 int_empty = 12) by reflexivity.
  destruct (reserve_capacity 0 ""%string hash_int Z.eqb Binary32.ops
              vector_max_size allocates eqb_refl_int eqb_sym_int eqb_trans_int
              hash_int_compat vector_max_size_bound
              8%nat 8 int_empty reserved_eight int_empty_well_formed Hrun)
    as [_ Hgrow].
  rewrite Hneed in Hgrow.
  destruct (Hgrow ltac:(reflexivity)) as (_ & Hlen & Hp & Hge).
  split; [exact Hrun |]. split; [exact Hneed |]. split; [exact Hlen |].
  split; [exact Hp |]. apply Hge. discriminate.
Defined.

Lemma insert_load_bound_witness :
  int_insert 12 "v"%string eleven_keys = Ret (true, 12) twelve_keys /\
  Binary32.gt (current_load eleven_keys) (max_load_factor_ eleven_keys) = false /\
  bucket_count twelve_keys = bucket_count eleven_keys /\
  size_ twelve_keys + tombstones_ twelve_keys
    <= size_ eleven_keys + tombstones_ eleven_keys + 1.
Proof.
  assert (Hrun : int_insert 12 "v"%string eleven_keys = Ret (true, 12) twelve_keys)
    by (reflexivity).
  assert (Hreach : int_reachable eleven_keys).
  { apply (int_run_reachable
             (map (fun k => Op_insert_or_assign Binary32.ops k "v"%string)
                  [1; 2; 3; 4; 5; 6; 7; 8; 9; 10; 11]) int_empty);
      [apply reach_default | reflexivity]. }
  pose proof (insert_load_bound 0 ""%string hash_int Z.eqb Binary32.ops
                vector_max_size allocates eqb_refl_int eqb_sym_int eqb_trans_int
                hash_int_compat vector_max_size_bound
                8%nat (Outside 12) (Outside "v"%string)
                eleven_keys twelve_keys true 12
                (int_reachable_well_formed _ Hreach ltac:(discriminate)) Hrun)
    as [_ Hbound].
  change (buckets_empty Binary32.ops eleven_keys
          || fgt Binary32.ops (current_load eleven_keys)
               (max_load_factor_ eleven_keys)) with false in Hbound.
  split; [exact Hrun | exact Hbound].
Defined.

(** [twelve_keys] after key 13 was inserted, which doubles the storage. *)
Definition thirteen_keys : int_map :=
  Eval vm_compute in
    table_of (int_run [Op_insert_or_assign Binary32.ops 13 "w"%string] twelve_keys).

(** [thirteen_keys] after key 3 was erased. *)
Definition thirteen_less_one : int_map :=
  Eval vm_compute in table_of (int_run [Op_erase Binary32.ops 3] thirteen_keys).

Lemma eleven_keys_reachable : int_reachable eleven_keys.
Proof.
  apply (int_run_reachable
           (map (fun k => Op_insert_or_assign Binary32.ops k "v"%string)
                [1; 2; 3; 4; 5; 6; 7; 8; 9; 10; 11]) int_empty);
    [apply reach_default | reflexivity].
Qed.




(** Eight buckets after [reserve(5)], keys 1..6 inserted, keys 1..4 erased:
    two live entries and four tombstones. *)
Definition four_tombstones : int_map :=
  Eval vm_compute in
    table_of (int_run
      (Op_reserve Binary32.ops 5
       :: map (fun k => Op_insert_or_assign Binary32.ops k "v"%string)
              [1; 2; 3; 4; 5; 6]
       ++ map (Op_erase Binary32.ops) [1; 2; 3; 4]) int_empty).

(** The same table after [erase(5)] compacted it. *)
Definition compacted : int_map :=
  Eval vm_compute in table_of (int_run [Op_erase Binary32.ops 5] four_tombstones).

Lemma four_tombstones_reachable : int_reachable four_tombstones.
Proof.
  apply (int_run_reachable
           (Op_reserve Binary32.ops 5
            :: map (fun k => Op_insert_or_assign Binary32.ops k "v"%string)
                   [1; 2; 3; 4; 5; 6]
            ++ map (Op_erase Binary32.ops) [1; 2; 3; 4]) int_empty);
    [apply reach_default | reflexivity].
Qed.

Lemma four_tombstones_fits c :
  0 <= c <= 8 -> (load_fits Binary32.ops four_tombstones c <-> c <= 5).
Proof.
  intros Hc.
  assert (Hcases : c = 0 \/ c = 1 \/ c = 2 \/ c = 3 \/ c = 4 \/ c = 5 \/
                   c = 6 \/ c = 7 \/ c = 8) by lia.
  unfold load_fits.
  destruct Hcases as [-> | [-> | [-> | [-> | [-> | [-> | [-> | [-> | ->]]]]]]]];
    vm_compute; split; intros H; try reflexivity; try discriminate;
    try (exfalso; apply H; reflexivity).
Qed.

Lemma four_tombstones_monotone : load_monotone Binary32.ops four_tombstones.
Proof.
  intros a b Hab Hb Hfit.
  change (bucket_count four_tombstones) with 8 in Hb.
  apply four_tombstones_fits; [lia |].
  apply four_tombstones_fits in Hfit; lia.
Qed.

Lemma erase_compaction_witness :
  int_erase 5 four_tombstones = Ret true compacted /\
  bucket_count four_tombstones / 2 < tombstones_ four_tombstones + 1 /\
  tombstones_ compacted = 0 /\
  bucket_count compacted = bucket_count four_tombstones /\
  exists p, int_find 6 compacted = Ret (Some p) compacted /\
            deref compacted (Some p) = Some "v"%string.
Proof.
  assert (Hrun : int_erase 5 four_tombstones = Ret true compacted)
    by (reflexivity).
  assert (Hhalf : bucket_count four_tombstones / 2 < tombstones_ four_tombstones + 1)
    by reflexivity.
  destruct (erase_compaction 0 ""%string hash_int Z.eqb Binary32.ops
              vector_max_size allocates eqb_refl_int eqb_sym_int eqb_trans_int
              hash_int_compat vector_max_size_bound
              8%nat 5 four_tombstones compacted
              four_tombstones_reachable four_tombstones_monotone Hrun Hhalf)
    as (_ & Htomb & Hlen & Hfind).
  split; [exact Hrun |]. split; [exact Hhalf |]. split; [exact Htomb |].
  split; [exact Hlen |].
  apply Hfind; [| reflexivity].
  exists 6%nat, (mkBucket 6 "v"%string Filled). repeat split; reflexivity.
Defined.

(** ** The further properties at concrete tables *)

Lemma thirteen_keys_reachable : int_reachable thirteen_keys.
Proof.
  apply (int_run_reachable
           [Op_insert_or_assign Binary32.ops 12 "v"%string;
            Op_insert_or_assign Binary32.ops 13 "w"%string]
           eleven_keys thirteen_keys eleven_keys_reachable).
  reflexivity.
Qed.

(** [rehash(5)] on the table with four tombstones. *)
Definition four_rehashed : int_map :=
  Eval vm_compute in table_of (int_exec (Op_rehash Binary32.ops 5) four_tombstones).


Lemma no_access_outside_storage_witness :
  pow2_storage Binary32.ops eleven_keys /\
  bucket_count eleven_keys <= vector_max_size /\
  int_exec (Op_erase Binary32.ops 3) eleven_keys <> Undefined.
Proof.
  destruct (int_reachable_well_formed _ eleven_keys_reachable ltac:(discriminate)) as [Hp Hm _ _ _].
  split; [exact Hp |]. split; [exact Hm |].
  apply (no_access_outside_storage 0 ""%string hash_int Z.eqb Binary32.ops
           vector_max_size allocates vector_max_size_bound 8%nat
           (Op_erase Binary32.ops 3) eleven_keys Hp Hm).
  intros p v. discriminate.
Defined.

Lemma find_returns_iff_witness :
  int_well_formed eleven_keys /\ buckets_ eleven_keys <> [] /\
  exists r, int_find 12 eleven_keys = Ret r eleven_keys.
Proof.
  pose proof (int_reachable_well_formed _ eleven_keys_reachable ltac:(discriminate)) as Hwf.
  assert (Hne : buckets_ eleven_keys <> []) by discriminate.
  split; [exact Hwf |]. split; [exact Hne |].
  apply (proj2 (proj1 (find_returns_iff hash_int Z.eqb Binary32.ops vector_max_size
                         eqb_sym_int eqb_trans_int hash_int_compat
                         vector_max_size_bound 12 eleven_keys Hwf Hne))).
  left. exists 0%nat. eexists. split; reflexivity.
Defined.

Lemma find_agrees_with_contents_witness :
  int_well_formed eleven_keys /\
  (holds Z.eqb Binary32.ops eleven_keys 3 "v"%string <->
   exists p, int_find 3 eleven_keys = Ret (Some p) eleven_keys /\
             deref eleven_keys (Some p) = Some "v"%string).
Proof.
  pose proof (int_reachable_well_formed _ eleven_keys_reachable ltac:(discriminate)) as Hwf.
  split; [exact Hwf |].
  apply (proj1 (proj2 (find_agrees_with_contents hash_int Z.eqb Binary32.ops
                         vector_max_size eqb_sym_int eqb_trans_int hash_int_compat
                         3 eleven_keys Hwf))).
Defined.

Lemma erase_removes_only_the_key_witness :
  int_well_formed thirteen_keys /\
  int_erase 3 thirteen_keys = Ret true thirteen_less_one /\
  absent Z.eqb Binary32.ops thirteen_less_one 3 /\
  size_ thirteen_less_one = size_ thirteen_keys - 1.
Proof.
  pose proof (int_reachable_well_formed _ thirteen_keys_reachable ltac:(discriminate)) as Hwf.
  assert (Hrun : int_erase 3 thirteen_keys = Ret true thirteen_less_one)
    by reflexivity.
  destruct (erase_removes_only_the_key 0 ""%string hash_int Z.eqb Binary32.ops
              vector_max_size allocates eqb_refl_int eqb_sym_int eqb_trans_int
              hash_int_compat vector_max_size_bound
              8%nat 3 thirteen_keys thirteen_less_one true Hwf Hrun)
    as (_ & _ & Habs & _ & Hsz & _).
  split; [exact Hwf |]. split; [exact Hrun |]. split; [exact Habs | exact Hsz].
Defined.


Lemma clear_empties_witness :
  int_well_formed eleven_keys /\
  exists s', clear Binary32.ops eleven_keys = Ret tt s' /\
             size_ s' = 0 /\ bucket_count s' = 16 /\
             forall k, int_find k s' = Ret None s'.
Proof.
  pose proof (int_reachable_well_formed _ eleven_keys_reachable ltac:(discriminate)) as Hwf.
  split; [exact Hwf |].
  destruct (clear_empties hash_int Z.eqb Binary32.ops vector_max_size
              vector_max_size_bound eleven_keys Hwf)
    as (s' & Hc & _ & Hs & _ & Hb & _ & Hf).
  exists s'. split; [exact Hc |]. split; [exact Hs |].
  split; [rewrite Hb; reflexivity | exact Hf].
Defined.

Lemma rehash_preserves_contents_witness :
  int_well_formed four_tombstones /\
  int_exec (Op_rehash Binary32.ops 5) four_tombstones = Ret tt four_rehashed /\
  (forall k v, holds Z.eqb Binary32.ops four_rehashed k v <->
               holds Z.eqb Binary32.ops four_tombstones k v) /\
  size_ four_rehashed = size_ four_tombstones /\
  tombstones_ four_rehashed = 0.
Proof.
  pose proof (int_reachable_well_formed _ four_tombstones_reachable ltac:(discriminate)) as Hwf.
  assert (Hrun : int_exec (Op_rehash Binary32.ops 5) four_tombstones =
                 Ret tt four_rehashed) by reflexivity.
  destruct (proj1 (rehash_preserves_contents 0 ""%string hash_int Z.eqb
                     Binary32.ops vector_max_size allocates eqb_refl_int eqb_sym_int
                     eqb_trans_int hash_int_compat vector_max_size_bound
                     8%nat 5 four_tombstones Hwf) four_rehashed Hrun)
    as (_ & Hh & Hs & _ & Ht & _).
  split; [exact Hwf |]. split; [exact Hrun |]. split; [exact Hh |].
  split; [exact Hs | exact Ht].
Defined.



Lemma exceptions_of_operations_witness :
  (int_exec (Op_rehash Binary32.ops (2 ^ 62)) eleven_keys =
     Throw length_error (with_buckets Binary32.ops eleven_keys []) /\
   buckets_ (with_buckets Binary32.ops eleven_keys []) = [] /\
   size_ (with_buckets Binary32.ops eleven_keys []) = 11) /\
  (2 ^ 57 <= vector_max_size /\
   int_exec (Op_rehash Binary32.ops (2 ^ 57)) eleven_keys =
     Throw bad_alloc (with_buckets Binary32.ops eleven_keys [])).
Proof.
  assert (Hrun : int_exec (Op_rehash Binary32.ops (2 ^ 62)) eleven_keys =
                 Throw length_error (with_buckets Binary32.ops eleven_keys []))
    by reflexivity.
  assert (Hmem : int_exec (Op_rehash Binary32.ops (2 ^ 57)) eleven_keys =
                 Throw bad_alloc (with_buckets Binary32.ops eleven_keys []))
    by reflexivity.
  split.
  - split; [exact Hrun |].
    destruct (exceptions_of_operations 0 ""%string hash_int Z.eqb Binary32.ops
                vector_max_size allocates 8%nat (Op_rehash Binary32.ops (2 ^ 62))
                eleven_keys (with_buckets Binary32.ops eleven_keys [])
                length_error Hrun) as [[He _] | (_ & Hb & _)].
    + discriminate He.
    + split; [exact Hb | reflexivity].
  - split; [vm_compute; discriminate | exact Hmem].
Defined.

Lemma max_load_factor_setter_witness :
  int_well_formed eleven_keys /\
  Binary32.le Binary32.f0_95 Binary32.f0_1
    || Binary32.ge Binary32.f0_95 Binary32.f0_95 = true /\
  int_set_max_load_factor Binary32.f0_95 eleven_keys =
    Throw invalid_argument eleven_keys.
Proof.
  pose proof (int_reachable_well_formed _ eleven_keys_reachable ltac:(discriminate)) as Hwf.
  assert (Hg : Binary32.le Binary32.f0_95 Binary32.f0_1
                 || Binary32.ge Binary32.f0_95 Binary32.f0_95 = true)
    by reflexivity.
  split; [exact Hwf |]. split; [exact Hg |].
  exact (proj1 (max_load_factor_setter 0 ""%string hash_int Z.eqb Binary32.ops
                  vector_max_size allocates eqb_refl_int eqb_sym_int eqb_trans_int
                  hash_int_compat vector_max_size_bound
                  8%nat Binary32.f0_95 eleven_keys Hwf) Hg).
Defined.

Lemma constructor_builds_empty_table_witness :
  0 <= 16 < size_mod /\
  (forall s : int_map,
     make 0 ""%string Binary32.ops vector_max_size allocates 16 = Ret tt s ->
     bucket_count s = 16 /\ size Binary32.ops s = 0 /\
     forall k, int_find k s = Ret None s) /\
  0 <= 2 ^ 57 < size_mod /\
  make 0 ""%string Binary32.ops vector_max_size allocates (2 ^ 57) =
    Throw bad_alloc (empty_map Binary32.ops).
Proof.
  assert (Hn : 0 <= 16 < size_mod) by (split; [lia | reflexivity]).
  assert (Hm : 0 <= 2 ^ 57 < size_mod) by (split; [lia | reflexivity]).
  split; [exact Hn |]. split.
  - intros s Hs.
    destruct (proj2 (proj2 (constructor_builds_empty_table 0 ""%string hash_int Z.eqb
                       Binary32.ops vector_max_size allocates vector_max_size_bound
                       16 Hn))
                s Hs)
      as (Hb & _ & Hsz & _ & _ & _ & _ & Hf).
    split; [rewrite Hb; reflexivity |]. split; [exact Hsz | exact Hf].
  - split; [exact Hm |].
    apply (proj1 (proj2 (constructor_builds_empty_table 0 ""%string hash_int Z.eqb
                     Binary32.ops vector_max_size allocates vector_max_size_bound
                     (2 ^ 57) Hm))).
    split; [split; [reflexivity | vm_compute; discriminate] | reflexivity].
Defined.

Lemma capacity_and_bound_stable_witness :
  int_well_formed eleven_keys /\
  int_exec (Op_insert_or_assign Binary32.ops 12 "v"%string) eleven_keys =
    Ret tt twelve_keys /\
  bucket_count eleven_keys <= bucket_count twelve_keys /\
  max_load_factor_ twelve_keys = max_load_factor_ eleven_keys.
Proof.
  pose proof (int_reachable_well_formed _ eleven_keys_reachable ltac:(discriminate)) as Hwf.
  assert (Hrun : int_exec (Op_insert_or_assign Binary32.ops 12 "v"%string)
                   eleven_keys = Ret tt twelve_keys) by reflexivity.
  destruct (capacity_and_bound_stable 0 ""%string hash_int Z.eqb Binary32.ops
              vector_max_size allocates eqb_refl_int eqb_sym_int eqb_trans_int
              hash_int_compat vector_max_size_bound
              8%nat (Op_insert_or_assign Binary32.ops 12 "v"%string)
              eleven_keys twelve_keys Hwf Hrun) as [Hlen Hm].
  split; [exact Hwf |]. split; [exact Hrun |]. split.
  - apply Hlen; intros n; discriminate.
  - apply Hm; intros f; discriminate.
Defined.


(** * SimpleMap: the binary search tree of [map.cpp]

    A node owns its two subtrees, so the tree is carried as a value: the
    recursive [insert] returns the node it was given with one subtree or the
    value replaced.  [operator<] and [operator>] of the key type are the two
    comparisons [lt] and [gt]. *)

Module SimpleMap.

Section Tree.

Context {Key Value : Type}.
Variable lt : Key -> Key -> bool.
Variable gt : Key -> Key -> bool.

(** [Node*]: [null] for [nullptr]. *)
Inductive Node : Type :=
| null
| node (key : Key) (value : Value) (left right : Node).

(** [Node* insert(Node* node, const Key& key, const Value& value)] *)
Fixpoint insert_node (n : Node) (key : Key) (value : Value) : Node :=
  match n with
  | null => node key value null null
  | node k v l r =>
      if lt key k then node k v (insert_node l key value) r
      else if gt key k then node k v l (insert_node r key value)
      else node k value l r
  end.

(** [Node* find(Node* node, const Key& key) const] *)
Fixpoint find_node (n : Node) (key : Key) : Node :=
  match n with
  | null => null
  | node k v l r =>
      if lt key k then find_node l key
      else if gt key k then find_node r key
      else n
  end.

(** The lines [inorder] writes, one pair per line. *)
Fixpoint inorder (n : Node) : list (Key * Value) :=
  match n with
  | null => []
  | node k v l r => inorder l ++ (k, v) :: inorder r
  end.

(** The map is its [root]. *)
Definition SimpleMap : Type := Node.

Definition empty_tree : SimpleMap := null.

(** [void insert(const Key& key, const Value& value)] *)
Definition insert (root : SimpleMap) (key : Key) (value : Value) : SimpleMap :=
  insert_node root key value.

(** [Value* find(const Key& key)], read through the pointer. *)
Definition find (root : SimpleMap) (key : Key) : option Value :=
  match find_node root key with
  | null => None
  | node _ v _ _ => Some v
  end.

(** [void printInOrder() const] *)
Definition printInOrder (root : SimpleMap) : list (Key * Value) := inorder root.

(** The map after a sequence of [insert] calls on a fresh map. *)
Definition built (calls : list (Key * Value)) : SimpleMap :=
  fold_left (fun t kv => insert t (fst kv) (snd kv)) calls empty_tree.

(** Every key of the tree satisfies [P]. *)
Fixpoint all_keys (P : Key -> Prop) (n : Node) : Prop :=
  match n with
  | null => True
  | node k _ l r => P k /\ all_keys P l /\ all_keys P r
  end.

(** The search-tree order: smaller keys to the left, greater to the right. *)
Fixpoint ordered (n : Node) : Prop :=
  match n with
  | null => True
  | node k _ l r =>
      all_keys (fun x => lt x k = true) l /\
      all_keys (fun x => lt k x = true) r /\
      ordered l /\ ordered r
  end.

(** A list of pairs with strictly increasing keys. *)
Fixpoint increasing (l : list (Key * Value)) : Prop :=
  match l with
  | [] => True
  | a :: rest =>
      Forall (fun b => lt (fst a) (fst b) = true) rest /\ increasing rest
  end.

Hypothesis lt_irrefl : forall a, lt a a = false.
Hypothesis lt_trans : forall a b c, lt a b = true -> lt b c = true -> lt a c = true.
Hypothesis lt_total : forall a b, lt a b = false -> lt b a = false -> a = b.
Hypothesis gt_lt : forall a b, gt a b = lt b a.

(** X15.  After [insert(key, value)], [find(key)] points to [value], whatever
    the shape of the tree, as long as [key] is neither below nor above
    itself. *)
Theorem find_after_insert (root : SimpleMap) (key : Key) (value : Value) :
  lt key key = false -> gt key key = false ->
  find (insert root key value) key = Some value.
Proof.
  intros Hl Hg. unfold find, insert.
  induction root as [| k v l IHl r IHr]; simpl.
  - rewrite Hl, Hg. reflexivity.
  - destruct (lt key k) eqn:E1.
    + simpl. rewrite E1. exact IHl.
    + destruct (gt key k) eqn:E2; simpl; rewrite E1, E2; [exact IHr | reflexivity].
Qed.

(** X16.  [insert(key, value)] does not change what [find] answers for any
    other key, provided two keys that are neither below nor above one
    another are the same key. *)
Theorem insert_keeps_other_keys (root : SimpleMap) (key key' : Key)
    (value : Value) :
  (forall a b, lt a b = false -> gt a b = false -> a = b) ->
  key' <> key ->
  find (insert root key value) key' = find root key'.
Proof.
  intros Htri Hne. unfold find, insert.
  induction root as [| k v l IHl r IHr]; simpl.
  - destruct (lt key' key) eqn:E1; [reflexivity |].
    destruct (gt key' key) eqn:E2; [reflexivity |].
    destruct Hne. now apply Htri.
  - destruct (lt key k) eqn:E1; simpl.
    + destruct (lt key' k); [exact IHl |]. destruct (gt key' k); reflexivity.
    + destruct (gt key k) eqn:E2; simpl.
      * destruct (lt key' k); [reflexivity |].
        destruct (gt key' k); [exact IHr | reflexivity].
      * destruct (lt key' k) eqn:E3; [reflexivity |].
        destruct (gt key' k) eqn:E4; [reflexivity |].
        destruct Hne. rewrite (Htri _ _ E3 E4). symmetry. now apply Htri.
Qed.

Lemma all_keys_insert (P : Key -> Prop) n key value :
  P key -> all_keys P n -> all_keys P (insert_node n key value).
Proof.
  intros HP. induction n as [| k v l IHl r IHr]; simpl.
  - auto.
  - intros (Hk & Hl & Hr).
    destruct (lt key k); [simpl; auto |]. destruct (gt key k); simpl; auto.
Qed.

Lemma all_keys_impl (P Q : Key -> Prop) n :
  (forall x, P x -> Q x) -> all_keys P n -> all_keys Q n.
Proof.
  intros H. induction n as [| k v l IHl r IHr]; simpl; [auto |].
  intros (Hk & Hl & Hr). auto.
Qed.

Lemma all_keys_inorder (P : Key -> Prop) n :
  all_keys P n <-> Forall (fun kv => P (fst kv)) (inorder n).
Proof.
  induction n as [| k v l IHl r IHr]; simpl.
  - split; [constructor | auto].
  - rewrite Forall_app, Forall_cons_iff, IHl, IHr. simpl. tauto.
Qed.

Lemma ordered_insert n key value :
  ordered n -> ordered (insert_node n key value).
Proof.
  induction n as [| k v l IHl r IHr]; simpl.
  - auto.
  - intros (Hl & Hr & Ol & Or).
    destruct (lt key k) eqn:E1; simpl.
    + split; [now apply all_keys_insert |]. auto.
    + destruct (gt key k) eqn:E2; simpl.
      * rewrite gt_lt in E2.
        split; [exact Hl |]. split; [now apply all_keys_insert |]. auto.
      * auto.
Qed.

Lemma built_ordered calls : ordered (built calls).
Proof.
  unfold built. generalize empty_tree, (I : ordered empty_tree).
  induction calls as [| kv calls IH]; intros t Ht; simpl; [exact Ht |].
  apply IH. now apply ordered_insert.
Qed.

Lemma increasing_app l x r :
  increasing l -> increasing r ->
  Forall (fun a => lt (fst a) (fst x) = true) l ->
  Forall (fun b => lt (fst x) (fst b) = true) r ->
  increasing (l ++ x :: r).
Proof.
  intros Hl Hr Hlx Hxr.
  induction l as [| a l IH]; simpl.
  - auto.
  - destruct Hl as [Ha Hl].
    apply Forall_cons_iff in Hlx as [Hax Hlx].
    split; [| now apply IH].
    rewrite Forall_app, Forall_cons_iff. split; [exact Ha |]. split; [exact Hax |].
    eapply Forall_impl; [exact Hxr |].
    intros b Hb. simpl in Hb. now apply lt_trans with (fst x).
Qed.

Lemma ordered_increasing n : ordered n -> increasing (inorder n).
Proof.
  induction n as [| k v l IHl r IHr]; simpl.
  - auto.
  - intros (Hl & Hr & Ol & Or).
    apply increasing_app; auto.
    + now apply all_keys_inorder in Hl.
    + now apply all_keys_inorder in Hr.
Qed.

Lemma all_keys_In (P : Key -> Prop) n k v :
  all_keys P n -> In (k, v) (inorder n) -> P k.
Proof.
  intros H Hin. apply all_keys_inorder in H.
  rewrite List.Forall_forall in H. exact (H (k, v) Hin).
Qed.

Lemma lt_asym a b : lt a b = true -> lt b a = true -> False.
Proof.
  intros H1 H2. pose proof (lt_trans _ _ _ H1 H2) as H.
  rewrite lt_irrefl in H. discriminate.
Qed.

(** X17.  Whatever sequence of [insert] calls built the map, [printInOrder]
    writes the pairs with strictly increasing keys. *)
Theorem printInOrder_sorted (calls : list (Key * Value)) :
  increasing (printInOrder (built calls)).
Proof. apply ordered_increasing, built_ordered. Qed.

(** X18.  On a map built by [insert] calls, [find(key)] points to [value]
    exactly when [printInOrder] writes the pair [(key, value)]; it returns
    [nullptr] exactly when no pair with that key is written. *)
Theorem find_agrees_with_printed (calls : list (Key * Value)) (key : Key) :
  (forall value,
     find (built calls) key = Some value <->
     In (key, value) (printInOrder (built calls))) /\
  (find (built calls) key = None <->
   forall value, ~ In (key, value) (printInOrder (built calls))).
Proof.
  assert (Hmain : forall n, ordered n ->
            forall value, find n key = Some value <-> In (key, value) (inorder n)).
  { unfold find. induction n as [| k v l IHl r IHr]; simpl; intros Ho value.
    - split; [discriminate | contradiction].
    - destruct Ho as (Hl & Hr & Ol & Or).
      rewrite in_app_iff. simpl.
      destruct (lt key k) eqn:E1.
      + rewrite (IHl Ol). split; [auto |].
        intros [H | [H | H]]; [exact H | exfalso | exfalso].
        * injection H as -> _. rewrite lt_irrefl in E1. discriminate.
        * pose proof (all_keys_In _ _ _ _ Hr H) as Hk. simpl in Hk.
          exact (lt_asym _ _ E1 Hk).
      + destruct (gt key k) eqn:E2.
        * rewrite gt_lt in E2. rewrite (IHr Or). split; [auto |].
          intros [H | [H | H]]; [exfalso | exfalso | exact H].
          -- pose proof (all_keys_In _ _ _ _ Hl H) as Hk. simpl in Hk.
             exact (lt_asym _ _ E2 Hk).
          -- injection H as -> _. rewrite lt_irrefl in E2. discriminate.
        * rewrite gt_lt in E2. pose proof (lt_total _ _ E1 E2) as ->.
          split.
          -- intros H. injection H as ->. auto.
          -- intros [H | [H | H]].
             ++ pose proof (all_keys_In _ _ _ _ Hl H) as Hk. simpl in Hk.
                rewrite lt_irrefl in Hk. discriminate.
             ++ injection H as ->. reflexivity.
             ++ pose proof (all_keys_In _ _ _ _ Hr H) as Hk. simpl in Hk.
                rewrite lt_irrefl in Hk. discriminate. }
  pose proof (Hmain _ (built_ordered calls)) as H. unfold printInOrder.
  split; [exact H |].
  split.
  - intros Hn value Hin. apply H in Hin. congruence.
  - intros Hn. destruct (find (built calls) key) as [v |] eqn:E; [| reflexivity].
    destruct (Hn v). now apply H.
Qed.

End Tree.

(** ** The map of [main]: [SimpleMap<int, std::string>] *)

Lemma ltb_irrefl_int (a : Z) : (a <? a) = false.
Proof. apply Z.ltb_irrefl. Qed.

Lemma ltb_trans_int (a b c : Z) :
  (a <? b) = true -> (b <? c) = true -> (a <? c) = true.
Proof. rewrite !Z.ltb_lt. lia. Qed.

Lemma ltb_total_int (a b : Z) : (a <? b) = false -> (b <? a) = false -> a = b.
Proof. rewrite !Z.ltb_ge. lia. Qed.

Lemma gtb_ltb_int (a b : Z) : (a >? b) = (b <? a).
Proof. apply Z.gtb_ltb. Qed.

Definition main_calls : list (Z * string) :=
  [(5, "apple"%string); (3, "banana"%string); (7, "cherry"%string);
   (2, "pear"%string)].

Definition main_map : @SimpleMap Z string :=
  Eval vm_compute in built Z.ltb Z.gtb main_calls.

Lemma find_after_insert_witness :
  (9 <? 9) = false /\ (9 >? 9) = false /\
  find Z.ltb Z.gtb (insert Z.ltb Z.gtb main_map 9 "plum"%string) 9 =
    Some "plum"%string.
Proof.
  split; [reflexivity |]. split; [reflexivity |].
  apply (find_after_insert Z.ltb Z.gtb main_map 9 "plum"%string);
    reflexivity.
Defined.

Lemma insert_keeps_other_keys_witness :
  (forall a b : Z, (a <? b) = false -> (a >? b) = false -> a = b) /\
  3 <> 9 /\
  find Z.ltb Z.gtb (insert Z.ltb Z.gtb main_map 9 "plum"%string) 3 =
    find Z.ltb Z.gtb main_map 3.
Proof.
  assert (Htri : forall a b : Z, (a <? b) = false -> (a >? b) = false -> a = b).
  { intros a b H1 H2. rewrite gtb_ltb_int in H2. now apply ltb_total_int. }
  assert (Hne : 3 <> 9) by discriminate.
  split; [exact Htri |]. split; [exact Hne |].
  exact (insert_keeps_other_keys Z.ltb Z.gtb main_map 9 3 "plum"%string Htri Hne).
Defined.

Lemma printInOrder_sorted_witness :
  (forall a b c : Z, (a <? b) = true -> (b <? c) = true -> (a <? c) = true) /\
  (forall a b : Z, (a >? b) = (b <? a)) /\
  printInOrder main_map =
    [(2, "pear"%string); (3, "banana"%string); (5, "apple"%string);
     (7, "cherry"%string)] /\
  increasing Z.ltb (printInOrder (built Z.ltb Z.gtb main_calls)).
Proof.
  split; [exact ltb_trans_int |]. split; [exact gtb_ltb_int |].
  split; [reflexivity |].
  exact (printInOrder_sorted Z.ltb Z.gtb ltb_trans_int gtb_ltb_int main_calls).
Defined.

Lemma find_agrees_with_printed_witness :
  (forall a : Z, (a <? a) = false) /\
  (forall a b c : Z, (a <? b) = true -> (b <? c) = true -> (a <? c) = true) /\
  (forall a b : Z, (a <? b) = false -> (b <? a) = false -> a = b) /\
  (forall a b : Z, (a >? b) = (b <? a)) /\
  (find Z.ltb Z.gtb (built Z.ltb Z.gtb main_calls) 3 = Some "banana"%string <->
   In (3, "banana"%string) (printInOrder (built Z.ltb Z.gtb main_calls))).
Proof.
  split; [exact ltb_irrefl_int |]. split; [exact ltb_trans_int |].
  split; [exact ltb_total_int |]. split; [exact gtb_ltb_int |].
  exact (proj1 (find_agrees_with_printed Z.ltb Z.gtb ltb_irrefl_int ltb_trans_int
                  ltb_total_int gtb_ltb_int main_calls 3) "banana"%string).
Defined.

End SimpleMap.

(** * UnorderedMap: separate chaining, [unordered_map.cpp]

    [Key] is [int], [Value] is [std::string]; the buckets are a vector of
    lists of pairs and are never resized.  A member function is undefined
    when the vector has no bucket ([hash % 0]); that outcome is [None].  A
    pointer or reference to a value is the pair of positions it lies at. *)

Module UnorderedMap.

Definition Key : Type := Z.
Definition Value : Type := string.
Definition Pair : Type := Key * Value.

Record UnorderedMap : Type := mkUnorderedMap {
  buckets : list (list Pair);
  numElements : Z
}.

Definition DEFAULT_BUCKETS : Z := 8.

(** [UnorderedMap(size_t bucketCount = DEFAULT_BUCKETS)], for a count the
    vector can be allocated with. *)
Definition make (bucketCount : Z) : UnorderedMap :=
  mkUnorderedMap (replicate (Z.to_nat bucketCount) []) 0.

(** [std::hash<Key>{}(key) % buckets.size()] *)
Definition getBucketIndex (m : UnorderedMap) (key : Key) : option nat :=
  match buckets m with
  | [] => None
  | _ => Some (Z.to_nat (hash_int key mod Z.of_nat (length (buckets m))))
  end.

(** The loop [for (auto& kv : chain) if (kv.first == key)]: where it stops. *)
Fixpoint position (chain : list Pair) (key : Key) : option nat :=
  match chain with
  | [] => None
  | kv :: rest =>
      if fst kv =? key then Some O else S <$> position rest key
  end.

(** The loop of [insert]: the chain with [kv.second = value] done at the
    first pair with the key, if there is one. *)
Fixpoint chain_assign (chain : list Pair) (key : Key) (value : Value)
  : option (list Pair) :=
  match chain with
  | [] => None
  | kv :: rest =>
      if fst kv =? key then Some ((fst kv, value) :: rest)
      else cons kv <$> chain_assign rest key value
  end.

(** The loop of [erase]: the chain without the first pair with the key. *)
Fixpoint chain_remove (chain : list Pair) (key : Key) : option (list Pair) :=
  match chain with
  | [] => None
  | kv :: rest =>
      if fst kv =? key then Some rest else cons kv <$> chain_remove rest key
  end.

Definition insert (key : Key) (value : Value) (m : UnorderedMap)
  : option UnorderedMap :=
  idx ← getBucketIndex m key;
  chain ← buckets m !! idx;
  Some match chain_assign chain key value with
       | Some chain' => mkUnorderedMap (<[idx := chain']> (buckets m)) (numElements m)
       | None =>
           mkUnorderedMap (<[idx := chain ++ [(key, value)]]> (buckets m))
                          (wrap (numElements m + 1))
       end.

(** [Value* find(const Key& key)]; the inner [None] is [nullptr]. *)
Definition find (key : Key) (m : UnorderedMap) : option (option (nat * nat)) :=
  idx ← getBucketIndex m key;
  chain ← buckets m !! idx;
  Some (pair idx <$> position chain key).

(** Reading through a pointer to a value. *)
Definition deref (m : UnorderedMap) (p : nat * nat) : option Value :=
  chain ← buckets m !! fst p;
  kv ← chain !! snd p;
  Some (snd kv).

(** Writing through a reference to a value. *)
Definition store (p : nat * nat) (value : Value) (m : UnorderedMap)
  : option UnorderedMap :=
  chain ← buckets m !! fst p;
  kv ← chain !! snd p;
  Some (mkUnorderedMap
          (<[fst p := <[snd p := (fst kv, value)]> chain]> (buckets m))
          (numElements m)).

(** [Value& operator[](const Key& key)] *)
Definition index (key : Key) (m : UnorderedMap)
  : option (UnorderedMap * (nat * nat)) :=
  idx ← getBucketIndex m key;
  chain ← buckets m !! idx;
  Some match position chain key with
       | Some j => (m, (idx, j))
       | None =>
           (mkUnorderedMap (<[idx := chain ++ [(key, ""%string)]]> (buckets m))
                           (wrap (numElements m + 1)),
            (idx, length chain))
       end.

Definition erase (key : Key) (m : UnorderedMap) : option UnorderedMap :=
  idx ← getBucketIndex m key;
  chain ← buckets m !! idx;
  Some match chain_remove chain key with
       | Some chain' =>
           mkUnorderedMap (<[idx := chain']> (buckets m)) (wrap (numElements m - 1))
       | None => m
       end.

Definition size (m : UnorderedMap) : Z := numElements m.

(** What [find] yields when its result is read: the outer [None] is the
    undefined call, the inner one [nullptr]. *)
Definition found (key : Key) (m : UnorderedMap) : option (option Value) :=
  r ← find key m;
  Some (p ← r; deref m p).

(** The value of the first pair of a chain with the key. *)
Fixpoint value_at (chain : list Pair) (key : Key) : option Value :=
  match chain with
  | [] => None
  | kv :: rest => if fst kv =? key then Some (snd kv) else value_at rest key
  end.

(** No key occurs twice in a chain. *)
Definition unique (m : UnorderedMap) : Prop :=
  Forall (fun chain => NoDup (fst <$> chain)) (buckets m).

(** The number of pairs stored. *)
Definition stored (m : UnorderedMap) : Z :=
  Z.of_nat (length (concat (buckets m))).

Inductive call : Type :=
| Insert (key : Key) (value : Value)
| Index (key : Key)
| Assign (key : Key) (value : Value)
| Erase (key : Key).

(** One statement of a program: [m.insert(k, v)], [m[k]], [m[k] = v],
    [m.erase(k)]. *)
Definition run (c : call) (m : UnorderedMap) : option UnorderedMap :=
  match c with
  | Insert key value => insert key value m
  | Index key => fst <$> index key m
  | Assign key value => r ← index key m; store (snd r) value (fst r)
  | Erase key => erase key m
  end.

Inductive reachable : UnorderedMap -> Prop :=
| reach_make n : reachable (make n)
| reach_run c m m' : reachable m -> run c m = Some m' -> reachable m'.

Lemma getBucketIndex_length m m' key :
  length (buckets m') = length (buckets m) ->
  getBucketIndex m' key = getBucketIndex m key.
Proof.
  intros H. unfold getBucketIndex. rewrite H.
  destruct (buckets m), (buckets m'); try discriminate; reflexivity.
Qed.

Lemma getBucketIndex_None m key : getBucketIndex m key = None <-> buckets m = [].
Proof.
  unfold getBucketIndex. destruct (buckets m); split; congruence.
Qed.

Lemma getBucketIndex_chain m key :
  buckets m <> [] ->
  exists idx chain, getBucketIndex m key = Some idx /\ buckets m !! idx = Some chain.
Proof.
  intros Hne. unfold getBucketIndex.
  destruct (buckets m) as [| c bs] eqn:Hb; [contradiction |].
  change (exists idx chain,
            Some (Z.to_nat (hash_int key mod Z.of_nat (length (c :: bs)))) = Some idx /\
            (c :: bs) !! idx = Some chain).
  remember (c :: bs) as l eqn:Hl.
  assert (Hn : 0 < Z.of_nat (length l)) by (rewrite Hl; simpl length; lia).
  pose proof (Z.mod_pos_bound (hash_int key) _ Hn) as Hr.
  destruct (lookup_lt_is_Some_2 l
              (Z.to_nat (hash_int key mod Z.of_nat (length l))))
    as [chain Hc]; [lia |].
  eauto.
Qed.

Lemma position_value chain key :
  (position chain key ≫= fun j => snd <$> chain !! j) = value_at chain key.
Proof.
  induction chain as [| kv rest IH]; simpl; [reflexivity |].
  destruct (fst kv =? key); [reflexivity |].
  rewrite <- IH. destruct (position rest key); reflexivity.
Qed.

Lemma position_None chain key :
  position chain key = None <-> value_at chain key = None.
Proof.
  induction chain as [| kv rest IH]; simpl; [tauto |].
  destruct (fst kv =? key); [split; discriminate |].
  rewrite <- IH. destruct (position rest key); split; simpl; congruence.
Qed.

Lemma chain_assign_None chain key value :
  chain_assign chain key value = None <-> value_at chain key = None.
Proof.
  induction chain as [| kv rest IH]; simpl; [tauto |].
  destruct (fst kv =? key); [split; discriminate |].
  rewrite <- IH. destruct (chain_assign rest key value); split; simpl; congruence.
Qed.

Lemma chain_remove_None chain key :
  chain_remove chain key = None <-> value_at chain key = None.
Proof.
  induction chain as [| kv rest IH]; simpl; [tauto |].
  destruct (fst kv =? key); [split; discriminate |].
  rewrite <- IH. destruct (chain_remove rest key); split; simpl; congruence.
Qed.

Lemma value_at_None chain key :
  value_at chain key = None <-> key ∉ fst <$> chain.
Proof.
  induction chain as [| kv rest IH]; simpl.
  - split; [intros _; apply not_elem_of_nil | reflexivity].
  - rewrite not_elem_of_cons, <- IH.
    destruct (Z.eqb_spec (fst kv) key) as [-> | Hne].
    + split; [discriminate | intros [H _]; now destruct H].
    + split; [auto | tauto].
Qed.

Lemma chain_assign_value chain key value chain' key' :
  chain_assign chain key value = Some chain' ->
  value_at chain' key' = (if key =? key' then Some value else value_at chain key') /\
  fst <$> chain' = fst <$> chain /\
  length chain' = length chain.
Proof.
  revert chain'. induction chain as [| kv rest IH]; simpl; intros chain' H.
  - discriminate.
  - destruct (Z.eqb_spec (fst kv) key) as [<- | Hne].
    + injection H as <-. simpl. destruct (fst kv =? key'); auto.
    + destruct (chain_assign rest key value) as [c |]; [| discriminate].
      injection H as <-. destruct (IH c eq_refl) as (Hv & Hk & Hl).
      split; [| split].
      * simpl. rewrite Hv.
        destruct (Z.eqb_spec (fst kv) key') as [<- | Hne']; [| reflexivity].
        destruct (Z.eqb_spec key (fst kv)); [congruence | reflexivity].
      * rewrite !fmap_cons, Hk. reflexivity.
      * simpl. rewrite Hl. reflexivity.
Qed.

Lemma value_at_push chain key value key' :
  value_at chain key = None ->
  value_at (chain ++ [(key, value)]) key' =
  if key =? key' then Some value else value_at chain key'.
Proof.
  induction chain as [| kv rest IH]; simpl; [reflexivity |].
  destruct (Z.eqb_spec (fst kv) key) as [-> | Hne]; [discriminate |].
  intros H. rewrite (IH H).
  destruct (Z.eqb_spec (fst kv) key') as [<- | Hne']; [| reflexivity].
  destruct (Z.eqb_spec key (fst kv)); [congruence | reflexivity].
Qed.

Lemma chain_remove_value chain key chain' :
  chain_remove chain key = Some chain' ->
  (forall key', key' <> key -> value_at chain' key' = value_at chain key') /\
  (NoDup (fst <$> chain) -> value_at chain' key = None /\ NoDup (fst <$> chain')) /\
  S (length chain') = length chain.
Proof.
  revert chain'. induction chain as [| kv rest IH]; simpl; intros chain' H.
  - discriminate.
  - destruct (Z.eqb_spec (fst kv) key) as [<- | Hne].
    + injection H as <-. split; [| split; [| reflexivity]].
      * intros key' Hk. destruct (Z.eqb_spec (fst kv) key'); congruence.
      * intros Hd. apply NoDup_cons in Hd as [Hnot Hd].
        split; [now apply value_at_None | exact Hd].
    + destruct (chain_remove rest key) as [c |] eqn:Hc; [| discriminate].
      injection H as <-. destruct (IH c eq_refl) as (Hv & Hu & Hl). simpl.
      split; [| split; [| now rewrite Hl]].
      * intros key' Hk. rewrite (Hv key' Hk). reflexivity.
      * intros Hd. apply NoDup_cons in Hd as [Hnot Hd].
        destruct (Hu Hd) as [Hn Hd'].
        destruct (Z.eqb_spec (fst kv) key); [contradiction |].
        split; [exact Hn |]. apply NoDup_cons. split; [| exact Hd'].
        intros Hin. apply Hnot. apply value_at_None in Hnot as Hnone.
        destruct (value_at c (fst kv)) eqn:E.
        -- rewrite (Hv (fst kv)) in E by auto. congruence.
        -- now apply value_at_None in E.
Qed.

Lemma found_value_at key m :
  found key m =
  (getBucketIndex m key ≫= fun idx =>
   buckets m !! idx ≫= fun chain => Some (value_at chain key)).
Proof.
  unfold found, find. destruct (getBucketIndex m key) as [idx |]; simpl; [| reflexivity].
  destruct (buckets m !! idx) as [chain |] eqn:Hc; simpl; [| reflexivity].
  f_equal. rewrite <- position_value.
  destruct (position chain key) as [j |]; simpl; [| reflexivity].
  unfold deref. simpl. rewrite Hc. simpl. destruct (chain !! j); reflexivity.
Qed.

(** What [found] answers after the chain at [idx] was replaced. *)
Lemma found_replaced m m' idx chain chain' key' n :
  buckets m !! idx = Some chain ->
  buckets m' = <[idx := chain']> (buckets m) ->
  numElements m' = n ->
  found key' m' =
  (getBucketIndex m key' ≫= fun i =>
   if decide (i = idx) then Some (value_at chain' key')
   else buckets m !! i ≫= fun c => Some (value_at c key')).
Proof.
  intros Hc Hb _. rewrite found_value_at.
  rewrite (getBucketIndex_length m m') by (rewrite Hb; apply length_insert).
  destruct (getBucketIndex m key') as [i |]; simpl; [| reflexivity].
  rewrite Hb. destruct (decide (i = idx)) as [-> | Hne].
  - rewrite list_lookup_insert_eq by (now apply lookup_lt_Some in Hc). reflexivity.
  - rewrite list_lookup_insert_ne by auto. reflexivity.
Qed.

Lemma found_same m idx chain chain' n key :
  getBucketIndex m key = Some idx ->
  buckets m !! idx = Some chain ->
  found key (mkUnorderedMap (<[idx := chain']> (buckets m)) n) =
  Some (value_at chain' key).
Proof.
  intros Hi Hc.
  rewrite (found_replaced m (mkUnorderedMap (<[idx := chain']> (buckets m)) n)
             idx chain chain' key n Hc eq_refl eq_refl).
  rewrite Hi. simpl. destruct (decide (idx = idx)); [reflexivity | contradiction].
Qed.

Lemma found_other m idx chain chain' n key' :
  buckets m !! idx = Some chain ->
  value_at chain' key' = value_at chain key' ->
  found key' (mkUnorderedMap (<[idx := chain']> (buckets m)) n) = found key' m.
Proof.
  intros Hc Hv.
  rewrite (found_replaced m (mkUnorderedMap (<[idx := chain']> (buckets m)) n)
             idx chain chain' key' n Hc eq_refl eq_refl).
  rewrite found_value_at.
  destruct (getBucketIndex m key') as [i |]; simpl; [| reflexivity].
  destruct (decide (i = idx)) as [-> | Hne]; [| reflexivity].
  rewrite Hc. simpl. now rewrite Hv.
Qed.

Lemma found_here m idx chain key :
  getBucketIndex m key = Some idx ->
  buckets m !! idx = Some chain ->
  found key m = Some (value_at chain key).
Proof.
  intros Hi Hc. rewrite found_value_at, Hi. simpl. rewrite Hc. reflexivity.
Qed.

(** X19.  [insert(key, value)] on a map with at least one bucket returns;
    the number of buckets is unchanged, [find(key)] then points to [value],
    every other key is found as before, and [size()] grew by one exactly
    when the key was not found before. *)
Theorem insert_then_found (key : Key) (value : Value) (m : UnorderedMap) :
  buckets m <> [] ->
  exists m',
    insert key value m = Some m' /\
    length (buckets m') = length (buckets m) /\
    found key m' = Some (Some value) /\
    (forall key', key' <> key -> found key' m' = found key' m) /\
    size m' = match found key m with
              | Some (Some _) => size m
              | _ => wrap (size m + 1)
              end.
Proof.
  intros Hne. destruct (getBucketIndex_chain m key Hne) as (idx & chain & Hi & Hc).
  unfold insert. rewrite Hi. simpl. rewrite Hc. simpl.
  rewrite (found_here m idx chain key Hi Hc).
  eexists. split; [reflexivity |].
  destruct (chain_assign chain key value) as [chain' |] eqn:Ha.
  - split; [apply length_insert |]. split; [| split].
    + rewrite (found_same m idx chain chain' _ key Hi Hc).
      rewrite (proj1 (chain_assign_value _ _ _ _ key Ha)), Z.eqb_refl. reflexivity.
    + intros key' Hk. apply (found_other m idx chain); [exact Hc |].
      rewrite (proj1 (chain_assign_value _ _ _ _ key' Ha)).
      destruct (Z.eqb_spec key key'); [congruence | reflexivity].
    + destruct (value_at chain key) eqn:Hv; [reflexivity |].
      rewrite (proj2 (chain_assign_None chain key value) Hv) in Ha. discriminate.
  - apply chain_assign_None in Ha.
    split; [apply length_insert |]. split; [| split].
    + rewrite (found_same m idx chain _ _ key Hi Hc).
      rewrite (value_at_push _ _ _ _ Ha), Z.eqb_refl. reflexivity.
    + intros key' Hk. apply (found_other m idx chain); [exact Hc |].
      rewrite (value_at_push _ _ _ _ Ha).
      destruct (Z.eqb_spec key key'); [congruence | reflexivity].
    + rewrite Ha. reflexivity.
Qed.

(** X20.  The member functions are undefined ([hash % 0]) exactly on a map
    without buckets, and the constructor builds such a map exactly from a
    bucket count of 0. *)
Theorem undefined_without_buckets (key : Key) (value : Value)
    (m : UnorderedMap) (n : Z) :
  (insert key value m = None <-> buckets m = []) /\
  (find key m = None <-> buckets m = []) /\
  (index key m = None <-> buckets m = []) /\
  (erase key m = None <-> buckets m = []) /\
  (buckets (make n) = [] <-> n <= 0).
Proof.
  assert (H : forall A (f : nat -> list Pair -> A),
            (getBucketIndex m key ≫= fun idx =>
             buckets m !! idx ≫= fun chain => Some (f idx chain)) = None <->
            buckets m = []).
  { intros A f. split.
    - intros Hn. destruct (buckets m) as [| c bs] eqn:Hb; [reflexivity | exfalso].
      destruct (getBucketIndex_chain m key) as (idx & chain & Hi & Hc);
        [rewrite Hb; discriminate |].
      rewrite Hi in Hn. simpl in Hn. rewrite Hb in Hc. rewrite Hc in Hn.
      discriminate.
    - intros Hb. rewrite (proj2 (getBucketIndex_None m key) Hb). reflexivity. }
  split; [apply H |]. split; [apply H |]. split; [apply H |]. split; [apply H |].
  unfold make. simpl. split.
  - intros Hr. destruct (Z_le_gt_dec n 0) as [Hle | Hgt]; [exact Hle | exfalso].
    assert (Hl : length (replicate (Z.to_nat n) ([] : list Pair)) = O)
      by (rewrite Hr; reflexivity).
    rewrite length_replicate in Hl. lia.
  - intros Hle. replace (Z.to_nat n) with O by lia. reflexivity.
Qed.

Lemma wrap_add_l a b : wrap (wrap a + b) = wrap (a + b).
Proof. unfold wrap. apply Zplus_mod_idemp_l. Qed.

Lemma wrap_sub_l a b : wrap (wrap a - b) = wrap (a - b).
Proof. unfold wrap. apply Zminus_mod_idemp_l. Qed.

Lemma stored_replace (bs : list (list Pair)) idx chain chain' :
  bs !! idx = Some chain ->
  Z.of_nat (length (concat (<[idx := chain']> bs))) =
  Z.of_nat (length (concat bs)) - Z.of_nat (length chain)
  + Z.of_nat (length chain').
Proof.
  revert idx. induction bs as [| c bs IH]; intros idx H; [discriminate |].
  destruct idx as [| idx]; simpl in H |- *.
  - injection H as ->. rewrite !length_app. lia.
  - rewrite !length_app, !Nat2Z.inj_add, (IH idx H). lia.
Qed.

Lemma position_push chain key value :
  position chain key = None ->
  position (chain ++ [(key, value)]) key = Some (length chain).
Proof.
  induction chain as [| kv rest IH]; simpl.
  - intros _. rewrite Z.eqb_refl. reflexivity.
  - destruct (fst kv =? key); [discriminate |].
    destruct (position rest key) eqn:E; [discriminate |].
    intros _. rewrite (IH eq_refl). reflexivity.
Qed.

Lemma position_lookup chain key j :
  position chain key = Some j -> exists v, chain !! j = Some (key, v).
Proof.
  revert j. induction chain as [| kv rest IH]; simpl; intros j H; [discriminate |].
  destruct (Z.eqb_spec (fst kv) key) as [<- | Hne].
  - injection H as <-. exists (snd kv). simpl. now destruct kv.
  - destruct (position rest key) as [i |]; [| discriminate].
    injection H as <-. simpl. now apply IH.
Qed.

(** X21.  [erase(key)] on a map with at least one bucket and no key stored
    twice returns; afterwards [find(key)] is [nullptr], every other key is
    found as before, [size()] dropped by one exactly when the key was found
    before, and still no key is stored twice. *)
Theorem erase_then_not_found (key : Key) (m : UnorderedMap) :
  buckets m <> [] -> unique m ->
  exists m',
    erase key m = Some m' /\
    length (buckets m') = length (buckets m) /\
    found key m' = Some None /\
    (forall key', key' <> key -> found key' m' = found key' m) /\
    size m' = match found key m with
              | Some (Some _) => wrap (size m - 1)
              | _ => size m
              end /\
    unique m'.
Proof.
  intros Hne Hu. destruct (getBucketIndex_chain m key Hne) as (idx & chain & Hi & Hc).
  unfold erase. rewrite Hi. simpl. rewrite Hc. simpl.
  rewrite (found_here m idx chain key Hi Hc).
  eexists. split; [reflexivity |].
  assert (Hd : NoDup (fst <$> chain)).
  { exact (proj1 (Forall_lookup _ _) Hu idx chain Hc). }
  destruct (chain_remove chain key) as [chain' |] eqn:Hr.
  - destruct (chain_remove_value _ _ _ Hr) as (Hv & Hk & Hl).
    destruct (Hk Hd) as [Hn Hd'].
    split; [apply length_insert |]. split; [| split; [| split]].
    + rewrite (found_same m idx chain chain' _ key Hi Hc), Hn. reflexivity.
    + intros key' Hk'. apply (found_other m idx chain); auto.
    + destruct (value_at chain key) eqn:E; [reflexivity |].
      rewrite (proj2 (chain_remove_None chain key) E) in Hr. discriminate.
    + unfold unique. simpl. now apply Forall_insert.
  - apply chain_remove_None in Hr.
    split; [reflexivity |]. split; [| split; [| split]].
    + rewrite (found_here m idx chain key Hi Hc), Hr. reflexivity.
    + reflexivity.
    + rewrite Hr. reflexivity.
    + exact Hu.
Qed.

(** X22.  [operator[](key)] returns a reference that [find(key)] then points
    to.  If the key was found the map is unchanged; if not, the map is the
    one [insert(key, Value{})] gives and the reference reads the empty
    string. *)
Theorem index_finds_or_appends (key : Key) (m m' : UnorderedMap)
    (p : nat * nat) :
  index key m = Some (m', p) ->
  find key m' = Some (Some p) /\
  match found key m with
  | Some (Some v) => m' = m /\ deref m' p = Some v
  | _ => insert key ""%string m = Some m' /\ deref m' p = Some ""%string
  end.
Proof.
  unfold index. intros H.
  destruct (getBucketIndex m key) as [idx |] eqn:Hi; simpl in H; [| discriminate].
  destruct (buckets m !! idx) as [chain |] eqn:Hc; simpl in H; [| discriminate].
  rewrite (found_here m idx chain key Hi Hc).
  pose proof (position_value chain key) as Hpv.
  destruct (position chain key) as [j |] eqn:Hp; injection H as <- <-.
  - split.
    + unfold find. rewrite Hi. simpl. rewrite Hc. simpl. rewrite Hp. reflexivity.
    + simpl in Hpv. rewrite <- Hpv.
      destruct (position_lookup _ _ _ Hp) as [v Hj]. rewrite Hj. simpl.
      split; [reflexivity |]. unfold deref. simpl. rewrite Hc. simpl.
      rewrite Hj. reflexivity.
  - simpl in Hpv. rewrite <- Hpv.
    assert (Hl : (<[idx := chain ++ [(key, ""%string)]]> (buckets m)) !! idx =
                 Some (chain ++ [(key, ""%string)])).
    { apply list_lookup_insert_eq. now apply lookup_lt_Some in Hc. }
    split; [| split].
    + unfold find.
      rewrite (getBucketIndex_length m) by apply length_insert.
      rewrite Hi. simpl. rewrite Hl. simpl.
      rewrite (position_push _ _ _ Hp). reflexivity.
    + unfold insert. rewrite Hi. simpl. rewrite Hc. simpl.
      rewrite (proj2 (chain_assign_None chain key ""%string)
                 (proj1 (position_None chain key) Hp)).
      reflexivity.
    + unfold deref. simpl. rewrite Hl. simpl.
      rewrite list_lookup_middle by reflexivity. reflexivity.
Qed.

(** The invariant of the map: no key twice in a chain, and [numElements]
    counts the pairs (as a [size_t]). *)
Definition counted (m : UnorderedMap) : Prop :=
  unique m /\ numElements m = wrap (stored m).

Lemma counted_replace m idx chain chain' n :
  counted m ->
  buckets m !! idx = Some chain ->
  NoDup (fst <$> chain') ->
  n = wrap (numElements m + (Z.of_nat (length chain') - Z.of_nat (length chain))) ->
  counted (mkUnorderedMap (<[idx := chain']> (buckets m)) n).
Proof.
  intros [Hu Hn] Hc Hd ->. split.
  - unfold unique. simpl. now apply Forall_insert.
  - unfold stored. simpl. rewrite (stored_replace _ _ _ _ Hc), Hn, wrap_add_l.
    unfold stored. f_equal. unfold Pair in *. lia.
Qed.

Lemma counted_chain m idx chain :
  counted m -> buckets m !! idx = Some chain -> NoDup (fst <$> chain).
Proof. intros [Hu _] Hc. exact (proj1 (Forall_lookup _ _) Hu idx chain Hc). Qed.

Lemma push_unique (chain : list Pair) key value :
  NoDup (fst <$> chain) -> value_at chain key = None ->
  NoDup (fst <$> chain ++ [(key, value)]).
Proof.
  intros Hd Hn. rewrite fmap_app. apply NoDup_app. split; [exact Hd |].
  split; [| apply NoDup_singleton].
  intros x Hx Hin. apply list_elem_of_singleton in Hin. simpl in Hin. subst x.
  now apply value_at_None in Hn.
Qed.

Lemma insert_keeps_counted key value m m' :
  counted m -> insert key value m = Some m' -> counted m'.
Proof.
  intros Hinv H. unfold insert in H.
  destruct (getBucketIndex m key) as [idx |]; simpl in H; [| discriminate].
  destruct (buckets m !! idx) as [chain |] eqn:Hc; simpl in H; [| discriminate].
  injection H as <-. pose proof (counted_chain _ _ _ Hinv Hc) as Hd.
  destruct (chain_assign chain key value) as [chain' |] eqn:Ha.
  - destruct (chain_assign_value _ _ _ _ key Ha) as (_ & Hk & Hl).
    apply (counted_replace m idx chain); auto.
    + now rewrite Hk.
    + match goal with
      | |- _ = wrap (_ + ?d) => replace d with 0 by (unfold Pair in *; lia)
      end.
      rewrite Z.add_0_r. destruct Hinv as [_ ->].
      symmetry. apply wrap_small, wrap_range.
  - apply chain_assign_None in Ha.
    apply (counted_replace m idx chain); auto.
    + now apply push_unique.
    + rewrite length_app. simpl. f_equal. unfold Pair in *. lia.
Qed.

Lemma index_cases key m m' p :
  index key m = Some (m', p) ->
  (m' = m \/ insert key ""%string m = Some m') /\
  exists chain kv, buckets m' !! fst p = Some chain /\ chain !! snd p = Some kv.
Proof.
  unfold index, insert. intros H.
  destruct (getBucketIndex m key) as [idx |]; simpl in H |- *; [| discriminate].
  destruct (buckets m !! idx) as [chain |] eqn:Hc; simpl in H |- *; [| discriminate].
  destruct (position chain key) as [j |] eqn:Hp; injection H as <- <-.
  - split; [now left |]. destruct (position_lookup _ _ _ Hp) as [v Hj].
    exists chain, (key, v). auto.
  - rewrite (proj2 (chain_assign_None chain key ""%string)
               (proj1 (position_None chain key) Hp)).
    split; [now right |]. simpl.
    exists (chain ++ [(key, ""%string)]), (key, ""%string). split.
    + apply list_lookup_insert_eq. now apply lookup_lt_Some in Hc.
    + now apply list_lookup_middle.
Qed.

Lemma store_keeps_counted p value m m' :
  counted m -> store p value m = Some m' -> counted m'.
Proof.
  intros Hinv H. unfold store in H.
  destruct (buckets m !! fst p) as [chain |] eqn:Hc; simpl in H; [| discriminate].
  destruct (chain !! snd p) as [kv |] eqn:Hj; simpl in H; [| discriminate].
  injection H as <-. pose proof (counted_chain _ _ _ Hinv Hc) as Hd.
  apply (counted_replace m (fst p) chain); auto.
  - rewrite list_fmap_insert. simpl.
    rewrite list_insert_id; [exact Hd |].
    rewrite list_lookup_fmap. unfold Pair in *. rewrite Hj. reflexivity.
  - match goal with
    | |- _ = wrap (_ + ?d) =>
        replace d with 0 by (rewrite length_insert; unfold Pair in *; lia)
    end.
    rewrite Z.add_0_r. destruct Hinv as [_ ->].
    symmetry. apply wrap_small, wrap_range.
Qed.

Lemma erase_keeps_counted key m m' :
  counted m -> erase key m = Some m' -> counted m'.
Proof.
  intros Hinv H. unfold erase in H.
  destruct (getBucketIndex m key) as [idx |]; simpl in H; [| discriminate].
  destruct (buckets m !! idx) as [chain |] eqn:Hc; simpl in H; [| discriminate].
  injection H as <-. pose proof (counted_chain _ _ _ Hinv Hc) as Hd.
  destruct (chain_remove chain key) as [chain' |] eqn:Hr; [| exact Hinv].
  destruct (chain_remove_value _ _ _ Hr) as (_ & Hk & Hl).
  apply (counted_replace m idx chain); auto.
  - now apply Hk.
  - f_equal. unfold Pair in *. lia.
Qed.

(** X23.  In every map a program can build from the constructor with
    [insert], [operator[]], assignment through [operator[]] and [erase], no
    key is stored twice and [size()] is the number of pairs stored, counted
    as a [size_t]. *)
Theorem reachable_counted (m : UnorderedMap) :
  reachable m -> unique m /\ size m = wrap (stored m).
Proof.
  intros Hr. change (counted m). induction Hr as [n | c m m' Hr IH Hrun].
  - split.
    + unfold unique, make. simpl. apply Forall_replicate. constructor.
    + unfold stored, make. simpl.
      assert (Hz : concat (replicate (Z.to_nat n) ([] : list Pair)) = []).
      { induction (Z.to_nat n); simpl; auto. }
      rewrite Hz. reflexivity.
  - destruct c as [key value | key | key value | key]; simpl in Hrun.
    + exact (insert_keeps_counted _ _ _ _ IH Hrun).
    + destruct (index key m) as [[m1 p] |] eqn:Hi; [| discriminate].
      injection Hrun as <-.
      destruct (index_cases _ _ _ _ Hi) as [[-> | Hins] _]; [exact IH |].
      exact (insert_keeps_counted _ _ _ _ IH Hins).
    + destruct (index key m) as [[m1 p] |] eqn:Hi; [| discriminate].
      simpl in Hrun. apply (store_keeps_counted p value m1 m'); [| exact Hrun].
      destruct (index_cases _ _ _ _ Hi) as [[-> | Hins] _]; [exact IH |].
      exact (insert_keeps_counted _ _ _ _ IH Hins).
    + exact (erase_keeps_counted _ _ _ IH Hrun).
Qed.

(** ** The map of [main] *)

Fixpoint run_all (cs : list call) (m : UnorderedMap) : option UnorderedMap :=
  match cs with
  | [] => Some m
  | c :: cs => run c m ≫= run_all cs
  end.

(** [insert(1, "apple")], [insert(2, "banana")], [map[3] = "cherry"]. *)
Definition main_calls : list call :=
  [Insert 1 "apple"%string; Insert 2 "banana"%string; Assign 3 "cherry"%string].

Definition three_fruits : UnorderedMap :=
  Eval vm_compute in
    default (make 0) (run_all main_calls (make DEFAULT_BUCKETS)).

Lemma run_all_reachable cs :
  forall m m', reachable m -> run_all cs m = Some m' -> reachable m'.
Proof.
  induction cs as [| c cs IH]; intros m m' Hr H; simpl in H.
  - injection H as <-. exact Hr.
  - destruct (run c m) as [m1 |] eqn:Hc; [| discriminate].
    simpl in H. apply (IH m1 m'); [| exact H].
    now apply (reach_run c m m1).
Qed.

Lemma three_fruits_reachable : reachable three_fruits.
Proof.
  apply (run_all_reachable main_calls (make DEFAULT_BUCKETS) three_fruits).
  - apply reach_make.
  - reflexivity.
Qed.

Lemma three_fruits_unique : unique three_fruits.
Proof.
  unfold unique, three_fruits. simpl.
  repeat (apply Forall_cons; split; [repeat constructor; set_solver |]).
  apply Forall_nil_2.
Qed.

Lemma insert_then_found_witness :
  buckets three_fruits <> [] /\
  exists m', insert 9 "plum"%string three_fruits = Some m' /\
             found 9 m' = Some (Some "plum"%string) /\
             found 1 m' = found 1 three_fruits.
Proof.
  assert (Hne : buckets three_fruits <> []) by discriminate.
  split; [exact Hne |].
  destruct (insert_then_found 9 "plum"%string three_fruits Hne)
    as (m' & Hi & _ & Hf & Ho & _).
  exists m'. split; [exact Hi |]. split; [exact Hf |].
  apply Ho. discriminate.
Defined.

Lemma erase_then_not_found_witness :
  buckets three_fruits <> [] /\ unique three_fruits /\
  exists m', erase 1 three_fruits = Some m' /\
             found 1 m' = Some None /\
             size m' = 2.
Proof.
  assert (Hne : buckets three_fruits <> []) by discriminate.
  split; [exact Hne |]. split; [exact three_fruits_unique |].
  destruct (erase_then_not_found 1 three_fruits Hne three_fruits_unique)
    as (m' & He & _ & Hf & _ & Hs & _).
  exists m'. split; [exact He |]. split; [exact Hf |]. rewrite Hs. reflexivity.
Defined.

Lemma index_finds_or_appends_witness :
  index 3 three_fruits = Some (three_fruits, (3%nat, 0%nat)) /\
  find 3 three_fruits = Some (Some (3%nat, 0%nat)) /\
  deref three_fruits (3%nat, 0%nat) = Some "cherry"%string.
Proof.
  assert (Hi : index 3 three_fruits = Some (three_fruits, (3%nat, 0%nat)))
    by reflexivity.
  split; [exact Hi |].
  destruct (index_finds_or_appends 3 three_fruits three_fruits (3%nat, 0%nat) Hi)
    as [Hf _].
  split; [exact Hf | reflexivity].
Defined.

Lemma reachable_counted_witness :
  reachable three_fruits /\
  unique three_fruits /\ size three_fruits = wrap (stored three_fruits) /\
  size three_fruits = 3.
Proof.
  split; [exact three_fruits_reachable |].
  destruct (reachable_counted three_fruits three_fruits_reachable) as [Hu Hs].
  split; [exact Hu |]. split; [exact Hs | reflexivity].
Defined.

End UnorderedMap.

(** * EntityManager: a packed vector with an index map,
      [vector_with_index_map.cpp]

    [entities] is the vector, [indexOf] the [std::unordered_map] from an
    entity's id to its position.  An access of the vector out of its range,
    [pop_back] on an empty vector and the use of an iterator that an
    insertion may have invalidated are undefined; a call that does one of
    them is [None]. *)

Module EntityManager.

Record Entity : Type := mkEntity {
  id : Z;
  name : string;
  health : spec_float
}.

Record EntityManager : Type := mkManager {
  entities : list Entity;
  indexOf : gmap Z nat
}.

(** The manager a program starts with. *)
Definition fresh : EntityManager := mkManager [] ∅.

(** What [addEntity] writes to [std::cout]. *)
Inductive message : Type :=
| already_exists (i : Z).

(** [void addEntity(int id, std::string name, float health)] *)
Definition addEntity (i : Z) (n : string) (h : spec_float) (mgr : EntityManager)
  : EntityManager * list message :=
  match indexOf mgr !! i with
  | Some _ => (mgr, [already_exists i])
  | None =>
      let index := length (entities mgr) in
      (mkManager (entities mgr ++ [mkEntity i n h]) (<[i := index]> (indexOf mgr)),
       [])
  end.

(** [Entity* getEntity(int id)]: the entity pointed to; the inner [None] is
    [nullptr]. *)
Definition getEntity (i : Z) (mgr : EntityManager) : option (option Entity) :=
  match indexOf mgr !! i with
  | None => Some None
  | Some index =>
      match entities mgr !! index with
      | Some e => Some (Some e)
      | None => None
      end
  end.

(** [entities.pop_back()] on a vector that is not empty. *)
Definition pop_back (l : list Entity) : list Entity := take (pred (length l)) l.

(** [void removeEntity(int id)].  With an empty vector every path past the
    lookup reads or pops the empty vector.  [indexOf[...] = index] on a key
    that is not in the map inserts it, which may rehash the map and
    invalidate [it]. *)
Definition removeEntity (i : Z) (mgr : EntityManager) : option EntityManager :=
  match indexOf mgr !! i with
  | None => Some mgr
  | Some index =>
      match last (entities mgr) with
      | None => None
      | Some moved =>
          let lastIndex := pred (length (entities mgr)) in
          if decide (index = lastIndex)
          then Some (mkManager (pop_back (entities mgr)) (delete i (indexOf mgr)))
          else
            match entities mgr !! index, indexOf mgr !! id moved with
            | Some _, Some _ =>
                Some (mkManager
                        (pop_back (<[index := moved]> (entities mgr)))
                        (delete i (<[id moved := index]> (indexOf mgr))))
            | _, _ => None
            end
      end
  end.

(** [void printAll() const]: the entities written, in order. *)
Definition printAll (mgr : EntityManager) : list Entity := entities mgr.

(** The index map and the vector describe each other. *)
Definition consistent (mgr : EntityManager) : Prop :=
  forall k index,
    indexOf mgr !! k = Some index <->
    exists e, entities mgr !! index = Some e /\ id e = k.

Inductive call : Type :=
| Add (i : Z) (n : string) (h : spec_float)
| Remove (i : Z).

Definition run (c : call) (mgr : EntityManager) : option EntityManager :=
  match c with
  | Add i n h => Some (fst (addEntity i n h mgr))
  | Remove i => removeEntity i mgr
  end.

Inductive reachable : EntityManager -> Prop :=
| reach_fresh : reachable fresh
| reach_run c mgr mgr' : reachable mgr -> run c mgr = Some mgr' -> reachable mgr'.

Lemma consistent_inj mgr a b e e' :
  consistent mgr ->
  entities mgr !! a = Some e -> entities mgr !! b = Some e' -> id e = id e' ->
  a = b.
Proof.
  intros Hc Ha Hb Hid.
  assert (H1 : indexOf mgr !! id e = Some a) by (apply Hc; eauto).
  assert (H2 : indexOf mgr !! id e = Some b) by (apply Hc; eauto).
  congruence.
Qed.

Lemma getEntity_found mgr k e :
  consistent mgr ->
  getEntity k mgr = Some (Some e) <-> e ∈ entities mgr /\ id e = k.
Proof.
  intros Hc. unfold getEntity. split.
  - destruct (indexOf mgr !! k) as [index |] eqn:Hi; [| discriminate].
    apply Hc in Hi as (e0 & He0 & Hid). rewrite He0. intros H.
    injection H as <-. split; [| exact Hid]. now apply list_elem_of_lookup_2 with index.
  - intros [Hin Hid]. apply list_elem_of_lookup_1 in Hin as [index He].
    assert (Hi : indexOf mgr !! k = Some index) by (apply Hc; eauto).
    rewrite Hi, He. reflexivity.
Qed.

Lemma getEntity_absent mgr k :
  consistent mgr ->
  getEntity k mgr = Some None <-> forall e, e ∈ entities mgr -> id e <> k.
Proof.
  intros Hc. unfold getEntity. split.
  - destruct (indexOf mgr !! k) as [index |] eqn:Hi.
    + apply Hc in Hi as (e0 & He0 & Hid). rewrite He0. discriminate.
    + intros _ e Hin Hid. apply list_elem_of_lookup_1 in Hin as [index He].
      assert (Hi' : indexOf mgr !! k = Some index) by (apply Hc; eauto).
      congruence.
  - intros Hno. destruct (indexOf mgr !! k) as [index |] eqn:Hi; [| reflexivity].
    apply Hc in Hi as (e0 & He0 & Hid). destruct (Hno e0); [| exact Hid].
    now apply list_elem_of_lookup_2 with index.
Qed.

Lemma getEntity_defined mgr k : consistent mgr -> getEntity k mgr <> None.
Proof.
  intros Hc. unfold getEntity.
  destruct (indexOf mgr !! k) as [index |] eqn:Hi; [| discriminate].
  apply Hc in Hi as (e0 & He0 & _). rewrite He0. discriminate.
Qed.

(** Two consistent managers with the same entities of id [k] answer
    [getEntity(k)] alike. *)
Lemma getEntity_ext m1 m2 k :
  consistent m1 -> consistent m2 ->
  (forall e, id e = k -> e ∈ entities m1 <-> e ∈ entities m2) ->
  getEntity k m1 = getEntity k m2.
Proof.
  intros H1 H2 Hsame.
  destruct (getEntity k m1) as [[e |] |] eqn:E.
  - apply (getEntity_found _ _ _ H1) in E as [Hin Hid].
    symmetry. apply (getEntity_found _ _ _ H2). split; [| exact Hid].
    now apply Hsame.
  - symmetry. apply (getEntity_absent _ _ H2). intros e Hin Hid.
    apply (proj1 (getEntity_absent _ _ H1) E e); [| exact Hid]. now apply Hsame.
  - now apply getEntity_defined in E.
Qed.

Lemma add_consistent i n h mgr :
  consistent mgr -> indexOf mgr !! i = None ->
  consistent (mkManager (entities mgr ++ [mkEntity i n h])
                        (<[i := length (entities mgr)]> (indexOf mgr))).
Proof.
  intros Hc Hno k index. simpl. split.
  - intros H. apply lookup_insert_Some in H as [[<- <-] | [Hne H]].
    + exists (mkEntity i n h). split; [| reflexivity].
      now apply list_lookup_middle.
    + apply Hc in H as (e & He & Hid). exists e. split; [| exact Hid].
      rewrite lookup_app_l; [exact He |]. now apply lookup_lt_Some in He.
  - intros (e & He & Hid).
    destruct (decide (index < length (entities mgr))%nat) as [Hlt | Hge].
    + rewrite lookup_app_l in He by exact Hlt.
      assert (Hi : indexOf mgr !! k = Some index) by (apply Hc; eauto).
      rewrite lookup_insert_ne; [exact Hi |]. congruence.
    + rewrite lookup_app_r in He by lia.
      destruct (index - length (entities mgr))%nat as [| d] eqn:Hd;
        [| destruct d; discriminate].
      injection He as <-. simpl in Hid. subst k.
      replace index with (length (entities mgr)) by lia.
      apply lookup_insert_eq.
Qed.

(** X24.  [addEntity(id, name, health)] on a consistent manager: if the id
    is already managed it only writes the message and changes nothing (the
    new name and health are dropped); otherwise the entity is appended to
    the vector and [getEntity(id)] points to it.  Every other id is found
    as before and the manager stays consistent. *)
Theorem add_then_get (i : Z) (n : string) (h : spec_float) (mgr : EntityManager) :
  consistent mgr ->
  consistent (fst (addEntity i n h mgr)) /\
  (forall k, k <> i ->
     getEntity k (fst (addEntity i n h mgr)) = getEntity k mgr) /\
  match getEntity i mgr with
  | Some (Some _) => addEntity i n h mgr = (mgr, [already_exists i])
  | _ =>
      snd (addEntity i n h mgr) = [] /\
      printAll (fst (addEntity i n h mgr)) = printAll mgr ++ [mkEntity i n h] /\
      getEntity i (fst (addEntity i n h mgr)) = Some (Some (mkEntity i n h))
  end.
Proof.
  intros Hc. destruct (indexOf mgr !! i) as [index |] eqn:Hi.
  - destruct (proj1 (Hc _ _) Hi) as (e & He & _).
    assert (Hg : getEntity i mgr = Some (Some e))
      by (unfold getEntity; rewrite Hi, He; reflexivity).
    rewrite Hg. unfold addEntity. rewrite Hi. simpl.
    split; [exact Hc |]. split; reflexivity.
  - assert (Hg : getEntity i mgr = Some None)
      by (unfold getEntity; rewrite Hi; reflexivity).
    rewrite Hg. unfold addEntity. rewrite Hi. simpl.
    pose proof (add_consistent i n h mgr Hc Hi) as Hc'.
    split; [exact Hc' |]. split; [| split; [reflexivity | split; [reflexivity |]]].
    + intros k Hk. apply getEntity_ext; [exact Hc' | exact Hc |].
      intros e Hid. simpl. rewrite elem_of_app, list_elem_of_singleton.
      split; [| auto]. intros [H | ->]; [exact H |]. simpl in Hid. congruence.
    + apply (getEntity_found _ _ _ Hc'). simpl. split; [| reflexivity].
      rewrite elem_of_app, list_elem_of_singleton. auto.
Qed.

(** What [removeEntity] leaves when the id is managed: the vector is one
    shorter, with the last entity in the freed slot. *)
Lemma remove_present i mgr i0 :
  consistent mgr -> indexOf mgr !! i = Some i0 ->
  exists mgr' moved,
    removeEntity i mgr = Some mgr' /\
    entities mgr !! pred (length (entities mgr)) = Some moved /\
    (i0 < length (entities mgr))%nat /\
    (forall index,
       entities mgr' !! index =
       if decide (index < pred (length (entities mgr)))%nat
       then if decide (index = i0) then Some moved else entities mgr !! index
       else None) /\
    (forall k,
       indexOf mgr' !! k =
       if decide (k = i) then None
       else if decide (k = id moved) then Some i0 else indexOf mgr !! k).
Proof.
  intros Hc Hi. destruct (proj1 (Hc _ _) Hi) as (e & He & Hid).
  pose proof (lookup_lt_Some _ _ _ He) as Hlt.
  destruct (lookup_lt_is_Some_2 (entities mgr) (pred (length (entities mgr))))
    as [moved Hm]; [lia |].
  assert (Hmi : indexOf mgr !! id moved = Some (pred (length (entities mgr))))
    by (apply Hc; eauto).
  unfold removeEntity. rewrite Hi, last_lookup, Hm.
  destruct (decide (i0 = pred (length (entities mgr)))) as [Heq | Hne].
  - assert (moved = e) by congruence. subst moved.
    eexists _, e. split; [reflexivity |]. split; [reflexivity |]. split; [exact Hlt |].
    simpl. split.
    + intros index. unfold pop_back.
      destruct (decide (index < pred (length (entities mgr)))%nat) as [Hl | Hg].
      * rewrite lookup_take_lt by exact Hl.
        destruct (decide (index = i0)); [lia | reflexivity].
      * apply lookup_take_ge. lia.
    + intros k. destruct (decide (k = i)) as [-> | Hk].
      * apply lookup_delete_eq.
      * rewrite lookup_delete_ne by auto.
        destruct (decide (k = id e)); [congruence | reflexivity].
  - rewrite He, Hmi.
    eexists _, moved. split; [reflexivity |]. split; [reflexivity |].
    split; [exact Hlt |]. simpl. split.
    + intros index. unfold pop_back. rewrite length_insert.
      destruct (decide (index < pred (length (entities mgr)))%nat) as [Hl | Hg].
      * rewrite lookup_take_lt by exact Hl.
        destruct (decide (index = i0)) as [-> | Hx].
        -- now apply list_lookup_insert_eq.
        -- apply list_lookup_insert_ne. auto.
      * apply lookup_take_ge. lia.
    + intros k. destruct (decide (k = i)) as [-> | Hk].
      * apply lookup_delete_eq.
      * rewrite lookup_delete_ne by auto.
        destruct (decide (k = id moved)) as [-> | Hx].
        -- apply lookup_insert_eq.
        -- apply lookup_insert_ne. auto.
Qed.

Lemma remove_consistent i mgr mgr' :
  consistent mgr -> removeEntity i mgr = Some mgr' -> consistent mgr'.
Proof.
  intros Hc Hr. destruct (indexOf mgr !! i) as [i0 |] eqn:Hi.
  2: { unfold removeEntity in Hr. rewrite Hi in Hr. now injection Hr as <-. }
  destruct (remove_present i mgr i0 Hc Hi) as (m1 & moved & Hr1 & Hm & Hlt & Hents & Hidx).
  rewrite Hr in Hr1. injection Hr1 as <-.
  destruct (proj1 (Hc _ _) Hi) as (e & He & Hid).
  set (n := length (entities mgr)) in *.
  intros k index. rewrite Hidx, Hents. split.
  - destruct (decide (k = i)) as [-> | Hk]; [discriminate |].
    destruct (decide (k = id moved)) as [-> | Hx].
    + intros H. injection H as <-.
      assert (i0 <> pred n) by (intros ->; congruence).
      destruct (decide (i0 < pred n)%nat); [| lia].
      destruct (decide (i0 = i0)); [eauto | contradiction].
    + intros H. destruct (proj1 (Hc _ _) H) as (e' & He' & Hid').
      pose proof (lookup_lt_Some _ _ _ He') as Hl. fold n in Hl.
      assert (index <> i0) by (intros ->; congruence).
      assert (index <> pred n) by (intros ->; congruence).
      destruct (decide (index < pred n)%nat); [| lia].
      destruct (decide (index = i0)); [contradiction | eauto].
  - intros (e' & He' & Hid').
    destruct (decide (index < pred n)%nat) as [Hl | Hg]; [| discriminate].
    destruct (decide (index = i0)) as [-> | Hx].
    + injection He' as <-. subst k.
      assert (id moved <> i).
      { intros Hc'. rewrite <- Hid in Hc'.
        pose proof (consistent_inj mgr _ _ _ _ Hc Hm He Hc'). lia. }
      destruct (decide (id moved = i)); [contradiction |].
      destruct (decide (id moved = id moved)); [reflexivity | contradiction].
    + assert (Hk : indexOf mgr !! k = Some index) by (apply Hc; eauto).
      destruct (decide (k = i)) as [-> | Hki]; [congruence |].
      destruct (decide (k = id moved)) as [-> | Hkm]; [| exact Hk].
      assert (indexOf mgr !! id moved = Some (pred n)) by (apply Hc; eauto).
      assert (index = pred n) by congruence. lia.
Qed.

Lemma remove_members i mgr mgr' e' :
  consistent mgr -> removeEntity i mgr = Some mgr' -> id e' <> i ->
  e' ∈ entities mgr' <-> e' ∈ entities mgr.
Proof.
  intros Hc Hr Hne. destruct (indexOf mgr !! i) as [i0 |] eqn:Hi.
  2: { unfold removeEntity in Hr. rewrite Hi in Hr. now injection Hr as <-. }
  destruct (remove_present i mgr i0 Hc Hi) as (m1 & moved & Hr1 & Hm & Hlt & Hents & _).
  rewrite Hr in Hr1. injection Hr1 as <-.
  destruct (proj1 (Hc _ _) Hi) as (e & He & Hid).
  set (n := length (entities mgr)) in *.
  rewrite !list_elem_of_lookup. split.
  - intros [index H]. rewrite Hents in H.
    destruct (decide (index < pred n)%nat); [| discriminate].
    destruct (decide (index = i0)); [| eauto].
    injection H as <-. eauto.
  - intros [index H]. pose proof (lookup_lt_Some _ _ _ H) as Hl. fold n in Hl.
    assert (index <> i0) by (intros ->; congruence).
    destruct (decide (index = pred n)) as [-> | Hx].
    + exists i0. rewrite Hents.
      destruct (decide (i0 < pred n)%nat); [| lia].
      destruct (decide (i0 = i0)); [congruence | contradiction].
    + exists index. rewrite Hents.
      destruct (decide (index < pred n)%nat); [| lia].
      destruct (decide (index = i0)); [contradiction | exact H].
Qed.

Lemma remove_length i mgr mgr' i0 :
  indexOf mgr !! i = Some i0 -> removeEntity i mgr = Some mgr' ->
  length (entities mgr') = pred (length (entities mgr)).
Proof.
  intros Hi Hr. unfold removeEntity in Hr. rewrite Hi in Hr.
  destruct (last (entities mgr)) as [moved |]; [| discriminate].
  destruct (decide (i0 = pred (length (entities mgr)))).
  - injection Hr as <-. simpl. unfold pop_back. rewrite length_take. lia.
  - destruct (entities mgr !! i0), (indexOf mgr !! id moved); try discriminate.
    injection Hr as <-. simpl. unfold pop_back.
    rewrite length_take, length_insert. lia.
Qed.

Lemma fresh_consistent : consistent fresh.
Proof.
  intros k index. simpl. rewrite lookup_empty. split; [discriminate |].
  intros (e & He & _). discriminate.
Qed.

Lemma consistent_ids mgr : consistent mgr -> NoDup (id <$> entities mgr).
Proof.
  intros Hc. apply NoDup_alt. intros a b x Ha Hb.
  rewrite list_lookup_fmap in Ha, Hb.
  destruct (entities mgr !! a) as [e |] eqn:Ea; [| discriminate].
  destruct (entities mgr !! b) as [e' |] eqn:Eb; [| discriminate].
  simpl in Ha, Hb. apply (consistent_inj mgr a b e e' Hc Ea Eb). congruence.
Qed.

(** X25.  [removeEntity(id)] on a consistent manager returns and leaves a
    consistent manager; afterwards [getEntity(id)] is [nullptr], every other
    id is found as before, [printAll] writes exactly the entities it wrote
    before except the one removed, and the vector is one shorter exactly
    when the id was managed. *)
Theorem remove_then_get (i : Z) (mgr : EntityManager) :
  consistent mgr ->
  exists mgr',
    removeEntity i mgr = Some mgr' /\
    consistent mgr' /\
    getEntity i mgr' = Some None /\
    (forall k, k <> i -> getEntity k mgr' = getEntity k mgr) /\
    (forall e, e ∈ printAll mgr' <-> e ∈ printAll mgr /\ id e <> i) /\
    length (printAll mgr') =
      match getEntity i mgr with
      | Some (Some _) => pred (length (printAll mgr))
      | _ => length (printAll mgr)
      end.
Proof.
  intros Hc. unfold printAll.
  assert (Hex : exists mgr', removeEntity i mgr = Some mgr' /\
                  indexOf mgr' !! i = None /\
                  length (entities mgr') =
                    match getEntity i mgr with
                    | Some (Some _) => pred (length (entities mgr))
                    | _ => length (entities mgr)
                    end).
  { destruct (indexOf mgr !! i) as [i0 |] eqn:Hi.
    - destruct (remove_present i mgr i0 Hc Hi)
        as (m1 & moved & Hr & _ & _ & _ & Hidx).
      exists m1. split; [exact Hr |]. split.
      + rewrite Hidx. destruct (decide (i = i)); [reflexivity | contradiction].
      + rewrite (remove_length i mgr m1 i0 Hi Hr).
        destruct (proj1 (Hc _ _) Hi) as (e & He & _).
        unfold getEntity. rewrite Hi, He. reflexivity.
    - exists mgr. unfold removeEntity, getEntity. rewrite Hi. auto. }
  destruct Hex as (mgr' & Hr & Hgone & Hlen).
  pose proof (remove_consistent i mgr mgr' Hc Hr) as Hc'.
  assert (Hnone : getEntity i mgr' = Some None)
    by (unfold getEntity; rewrite Hgone; reflexivity).
  exists mgr'. split; [exact Hr |]. split; [exact Hc' |]. split; [exact Hnone |].
  split; [| split; [| exact Hlen]].
  - intros k Hk. apply getEntity_ext; [exact Hc' | exact Hc |].
    intros e Hid. apply (remove_members i mgr mgr' e Hc Hr). congruence.
  - intros e. split.
    + intros Hin.
      pose proof (proj1 (getEntity_absent mgr' i Hc') Hnone e Hin) as Hid.
      split; [| exact Hid]. now apply (remove_members i mgr mgr' e Hc Hr).
    + intros [Hin Hid]. now apply (remove_members i mgr mgr' e Hc Hr).
Qed.

Lemma reachable_keeps_consistent mgr : reachable mgr -> consistent mgr.
Proof.
  intros Hr. induction Hr as [| c mgr mgr' Hr IH Hrun]; [exact fresh_consistent |].
  destruct c as [i n h | i]; simpl in Hrun.
  - injection Hrun as <-. unfold addEntity.
    destruct (indexOf mgr !! i) eqn:Hi; simpl; [exact IH |].
    now apply add_consistent.
  - exact (remove_consistent i mgr mgr' IH Hrun).
Qed.

(** X26.  Every manager a program builds from the empty one with
    [addEntity] and [removeEntity] is consistent: the index map holds
    exactly the positions of the entities, [getEntity] and [removeEntity]
    never touch the vector out of range, and no id is written twice by
    [printAll]. *)
Theorem reachable_consistent (mgr : EntityManager) :
  reachable mgr ->
  consistent mgr /\
  (forall i, getEntity i mgr <> None) /\
  (forall i, removeEntity i mgr <> None) /\
  NoDup (id <$> printAll mgr).
Proof.
  intros Hr. pose proof (reachable_keeps_consistent mgr Hr) as Hc.
  split; [exact Hc |]. split; [| split].
  - intros i. now apply getEntity_defined.
  - intros i. destruct (indexOf mgr !! i) as [i0 |] eqn:Hi.
    + destruct (remove_present i mgr i0 Hc Hi) as (m1 & moved & Hr1 & _).
      rewrite Hr1. discriminate.
    + unfold removeEntity. rewrite Hi. discriminate.
  - now apply consistent_ids.
Qed.

(** ** The manager of [main] *)

Definition hundred : spec_float := Binary32.of_Z 100.
Definition eighty : spec_float := Binary32.of_Z 80.
Definition hundred_twenty : spec_float := Binary32.of_Z 120.

Fixpoint run_all (cs : list call) (mgr : EntityManager) : option EntityManager :=
  match cs with
  | [] => Some mgr
  | c :: cs => run c mgr ≫= run_all cs
  end.

Definition main_calls : list call :=
  [Add 1 "Orc"%string hundred; Add 2 "Elf"%string eighty;
   Add 3 "Dwarf"%string hundred_twenty].

Definition three_entities : EntityManager :=
  default fresh (run_all main_calls fresh).

Lemma program_reachable cs :
  forall mgr mgr', reachable mgr -> run_all cs mgr = Some mgr' -> reachable mgr'.
Proof.
  induction cs as [| c cs IH]; intros mgr mgr' Hr H; simpl in H.
  - injection H as <-. exact Hr.
  - destruct (run c mgr) as [m1 |] eqn:Hc; [| discriminate].
    simpl in H. apply (IH m1 mgr'); [| exact H].
    now apply (reach_run c mgr m1).
Qed.

Lemma three_entities_reachable : reachable three_entities.
Proof.
  apply (program_reachable main_calls fresh three_entities).
  - apply reach_fresh.
  - reflexivity.
Qed.

Lemma three_entities_consistent : consistent three_entities.
Proof. apply reachable_keeps_consistent, three_entities_reachable. Qed.

Lemma add_then_get_witness :
  consistent three_entities /\
  getEntity 4 (fst (addEntity 4 "Troll"%string hundred three_entities)) =
    Some (Some (mkEntity 4 "Troll"%string hundred)) /\
  getEntity 3 (fst (addEntity 4 "Troll"%string hundred three_entities)) =
    getEntity 3 three_entities.
Proof.
  split; [exact three_entities_consistent |].
  destruct (add_then_get 4 "Troll"%string hundred three_entities
              three_entities_consistent) as (_ & Ho & Hm).
  assert (Hg : getEntity 4 three_entities = Some None) by reflexivity.
  rewrite Hg in Hm. destruct Hm as (_ & _ & Hget).
  split; [exact Hget |]. apply Ho. discriminate.
Defined.

Lemma remove_then_get_witness :
  consistent three_entities /\
  exists mgr',
    removeEntity 2 three_entities = Some mgr' /\
    getEntity 2 mgr' = Some None /\
    getEntity 3 mgr' = getEntity 3 three_entities /\
    length (printAll mgr') = 2%nat.
Proof.
  split; [exact three_entities_consistent |].
  destruct (remove_then_get 2 three_entities three_entities_consistent)
    as (mgr' & Hr & _ & Hn & Ho & _ & Hl).
  exists mgr'. split; [exact Hr |]. split; [exact Hn |].
  split; [apply Ho; discriminate |].
  rewrite Hl. reflexivity.
Defined.

Lemma reachable_consistent_witness :
  reachable three_entities /\
  consistent three_entities /\
  removeEntity 2 three_entities <> None /\
  NoDup (id <$> printAll three_entities).
Proof.
  split; [exact three_entities_reachable |].
  destruct (reachable_consistent three_entities three_entities_reachable)
    as (Hc & _ & Hr & Hd).
  split; [exact Hc |]. split; [exact (Hr 2) | exact Hd].
Defined.

End EntityManager.

